(** * Hide From The Monster: geometry, motion, shield and grid navigation

    A shallow embedding of the simulation core of the browser game
    ([game.js], and the grid-navigation variant of the same file) together
    with the properties its specification states about it.

    Number model.  JavaScript numbers are modelled as exact rationals [Q];
    comparisons are the boolean tests of [QArith].  A quotient whose divisor
    is zero (JavaScript: [Infinity] or [NaN]) is not a rational: the checked
    division [div] returns [None] there, and every function that divides by
    a computed value is written in the option monad so that such a value
    cannot go unnoticed (a division by a non-zero literal, as in [W / 2], is
    plain rational division).  [Math.hypot], [Math.cos], [Math.sin],
    [Math.atan2], [Math.PI] and the stream behind [Math.random] are
    parameters ([MathLib]); the canvas size [W], [H] is a parameter too. *)

From Stdlib Require Import QArith Qround Qminmax Qabs Lqa ZArith Lia Bool.
From Stdlib Require PrimFloat.
From stdpp Require Import base option list strings pretty gmap.

Open Scope Q_scope.

(** ** Numbers *)

Definition Qltb (a b : Q) : bool := negb (Qle_bool b a).
Definition Qgtb (a b : Q) : bool := Qltb b a.
Definition Qgeb (a b : Q) : bool := Qle_bool b a.

(** [Math.min], [Math.max]: as in the language, the second argument wins
    only when it is strictly smaller (larger). *)
Definition Math_min (a b : Q) : Q := if Qltb b a then b else a.
Definition Math_max (a b : Q) : Q := if Qltb a b then b else a.

(** [function clamp(v, lo, hi) { return Math.max(lo, Math.min(hi, v)); }] *)
Definition clamp (v lo hi : Q) : Q := Math_max lo (Math_min hi v).

(** Checked division: [None] stands for the non-finite result of dividing
    by zero. *)
Definition div (a b : Q) : option Q :=
  if Qeq_bool b 0 then None else Some (a / b).

(** The library functions the program calls. [random n] is the value of the
    [n]-th call of [Math.random()]. *)
Record MathLib := {
  hypot : Q -> Q -> Q;
  cos : Q -> Q;
  sin : Q -> Q;
  atan2 : Q -> Q -> Q;
  PI : Q;
  random : nat -> Q
}.

Record Vec := vec { vx_ : Q; vy_ : Q }.

(** [function len(x, y) { return Math.hypot(x, y); }] *)
Definition len (M : MathLib) (a b : Q) : Q := hypot M a b.

(** [function norm(x, y) { const l = Math.hypot(x, y) || 1;
                           return { x: x / l, y: y / l }; }]
    [l || 1] replaces a zero length by one. *)
Definition norm (M : MathLib) (a b : Q) : option Vec :=
  let l := if Qeq_bool (hypot M a b) 0 then 1 else hypot M a b in
  nx ← div a l;
  ny ← div b l;
  Some (vec nx ny).

(** ** Geometry primitives *)

(** [function rect(x, y, w, h) { return { x, y, w, h }; }] *)
Record Rect := rect { x : Q; y : Q; w : Q; h : Q }.

(** [a.x < b.x + b.w && a.x + a.w > b.x && a.y < b.y + b.h && a.y + a.h > b.y] *)
Definition intersectsAABB (a b : Rect) : bool :=
  Qltb (x a) (x b + w b) && Qgtb (x a + w a) (x b) &&
  Qltb (y a) (y b + h b) && Qgtb (y a + h a) (y b).

Definition set_x (r : Rect) (v : Q) : Rect := rect v (y r) (w r) (h r).
Definition set_y (r : Rect) (v : Q) : Rect := rect (x r) v (w r) (h r).

(** The two overlap extents computed by [resolveStaticCollision]. *)
Definition overlapX (mover stat : Rect) : Q :=
  Math_min (x mover + w mover) (x stat + w stat) - Math_max (x mover) (x stat).
Definition overlapY (mover stat : Rect) : Q :=
  Math_min (y mover + h mover) (y stat + h stat) - Math_max (y mover) (y stat).

(** [resolveStaticCollision(mover, stat)]: the mover is mutated in place; the
    model returns the mover after the call. *)
Definition resolveStaticCollision (mover stat : Rect) : Rect :=
  if negb (intersectsAABB mover stat) then mover
  else
    if Qltb (overlapX mover stat) (overlapY mover stat) then
      if Qltb (x mover) (x stat)
      then set_x mover (x mover - overlapX mover stat)
      else set_x mover (x mover + overlapX mover stat)
    else
      if Qltb (y mover) (y stat)
      then set_y mover (y mover - overlapY mover stat)
      else set_y mover (y mover + overlapY mover stat).

(** [px >= r.x && px <= r.x + r.w && py >= r.y && py <= r.y + r.h] *)
Definition pointInRect (px py : Q) (r : Rect) : bool :=
  Qgeb px (x r) && Qle_bool px (x r + w r) &&
  Qgeb py (y r) && Qle_bool py (y r + h r).

(** One turn of the clipping loop of [segmentIntersectsRect] on the
    coefficient pair [(p, q)] and the current parameter range [(t0, t1)].
    - [None]: the division produced no finite number;
    - [Some None]: the loop executes [return false];
    - [Some (Some (t0', t1'))]: the loop goes on with the new range. *)
Definition clipStep (p q : Q) (t : Q * Q) : option (option (Q * Q)) :=
  let '(t0, t1) := t in
  if Qeq_bool p 0 then
    if Qltb q 0 then Some None else Some (Some (t0, t1))
  else
    tq ← div q p;
    if Qltb p 0 then
      if Qgtb tq t1 then Some None
      else Some (Some (if Qgtb tq t0 then tq else t0, t1))
    else
      if Qltb tq t0 then Some None
      else Some (Some (t0, if Qltb tq t1 then tq else t1)).

(** [for (let i = 0; i < 4; i++) ...] over the arrays [p] and [q], given as
    the list of their pairs; [Some true] is the final [return true]. *)
Fixpoint clipLoop (pq : list (Q * Q)) (t : Q * Q) : option bool :=
  match pq with
  | [] => Some true
  | (p, q) :: rest =>
      match clipStep p q t with
      | None => None
      | Some None => Some false
      | Some (Some t') => clipLoop rest t'
      end
  end.

(** [segmentIntersectsRect(x1, y1, x2, y2, r)], Liang-Barsky clipping. *)
Definition segmentIntersectsRect (x1 y1 x2 y2 : Q) (r : Rect) : option bool :=
  if pointInRect x1 y1 r || pointInRect x2 y2 r then Some true
  else
    let dx := x2 - x1 in
    let dy := y2 - y1 in
    let p := [ - dx; dx; - dy; dy ] in
    let q := [ x1 - x r; (x r + w r) - x1; y1 - y r; (y r + h r) - y1 ] in
    clipLoop (zip p q) (0, 1).

(** ** The arena *)

(** [const walls = [...]]: four border walls and eight interior ones, for a
    canvas of width [W] and height [H]. *)
Definition walls (W H : Q) : list Rect := [
  rect 0 0 W 16;
  rect 0 (H - 16) W 16;
  rect 0 0 16 H;
  rect (W - 16) 0 16 H;

  rect 140 80 520 18;
  rect 140 80 18 250;
  rect 320 160 18 260;
  rect 480 250 320 18;
  rect 650 120 18 210;
  rect 210 360 260 18;
  rect 760 360 18 120;
  rect 90 420 180 18
].

(** [for (const w of walls) if (segmentIntersectsRect(...)) return false;
     return true;] over an arbitrary wall list. *)
Fixpoint losAgainst (ws : list Rect) (ax ay bx by_ : Q) : option bool :=
  match ws with
  | [] => Some true
  | wl :: rest =>
      hit ← segmentIntersectsRect ax ay bx by_ wl;
      if (hit : bool) then Some false else losAgainst rest ax ay bx by_
  end.

Definition hasLineOfSight (W H : Q) (ax ay bx by_ : Q) : option bool :=
  losAgainst (walls W H) ax ay bx by_.

(** ** Game state ([game.js]) *)

Record Shield := mkShield {
  active : bool;
  durability : Q;
  shield_max : Q;          (* [max] *)
  hitCost : Q;
  regenPerSec : Q;
  brokenUntil : Q;
  breakCooldownMs : Q
}.

Record Player := mkPlayer {
  body : Rect;             (* [x], [y], [w], [h] *)
  speed : Q;
  sprintMult : Q;
  stamina : Q;
  staminaMax : Q;
  staminaDrainPerSec : Q;
  staminaRegenPerSec : Q;
  shield : Shield
}.

Record Wander := mkWander { wander_x : Q; wander_y : Q; wander_until : Q }.

Record Monster := mkMonster {
  mbody : Rect;            (* [x], [y], [w], [h] *)
  speedChase : Q;
  speedPatrol : Q;
  wander : Wander;
  breathCooldownMs : Q;
  breathDurationMs : Q;
  breathActiveUntil : Q;
  lastBreathAt : Q;
  coneAngle : Q
}.

Record Flame := mkFlame {
  fl_x : Q; fl_y : Q; fl_vx : Q; fl_vy : Q; fl_r : Q;
  bornAt : Q; ttlMs : Q
}.

Inductive RunState := running | won | lost.

(** The module-level variables of [game.js]. [status] is
    [statusEl.textContent]; [rng] counts the calls of [Math.random()] made so
    far. *)
Record Game := mkGame {
  player : Player;
  monster : Monster;
  flames : list Flame;
  startTs : Q;
  lastTs : Q;
  elapsed : Q;
  state : RunState;
  status : string;
  rng : nat
}.

Definition GOAL_SECONDS : Q := 30.

Definition with_durability (s : Shield) (d : Q) : Shield :=
  mkShield (active s) d (shield_max s) (hitCost s) (regenPerSec s)
           (brokenUntil s) (breakCooldownMs s).
Definition with_active (s : Shield) (a : bool) : Shield :=
  mkShield a (durability s) (shield_max s) (hitCost s) (regenPerSec s)
           (brokenUntil s) (breakCooldownMs s).
Definition with_brokenUntil (s : Shield) (t : Q) : Shield :=
  mkShield (active s) (durability s) (shield_max s) (hitCost s) (regenPerSec s)
           t (breakCooldownMs s).

Definition with_shield (p : Player) (s : Shield) : Player :=
  mkPlayer (body p) (speed p) (sprintMult p) (stamina p) (staminaMax p)
           (staminaDrainPerSec p) (staminaRegenPerSec p) s.
Definition with_stamina (p : Player) (v : Q) : Player :=
  mkPlayer (body p) (speed p) (sprintMult p) v (staminaMax p)
           (staminaDrainPerSec p) (staminaRegenPerSec p) (shield p).
Definition with_body (p : Player) (b : Rect) : Player :=
  mkPlayer b (speed p) (sprintMult p) (stamina p) (staminaMax p)
           (staminaDrainPerSec p) (staminaRegenPerSec p) (shield p).

Definition with_mbody (m : Monster) (b : Rect) : Monster :=
  mkMonster b (speedChase m) (speedPatrol m) (wander m) (breathCooldownMs m)
            (breathDurationMs m) (breathActiveUntil m) (lastBreathAt m)
            (coneAngle m).
Definition with_wander (m : Monster) (wd : Wander) : Monster :=
  mkMonster (mbody m) (speedChase m) (speedPatrol m) wd (breathCooldownMs m)
            (breathDurationMs m) (breathActiveUntil m) (lastBreathAt m)
            (coneAngle m).
Definition with_breath (m : Monster) (activeUntil lastAt : Q) : Monster :=
  mkMonster (mbody m) (speedChase m) (speedPatrol m) (wander m)
            (breathCooldownMs m) (breathDurationMs m) activeUntil lastAt
            (coneAngle m).

Definition with_player (g : Game) (p : Player) : Game :=
  mkGame p (monster g) (flames g) (startTs g) (lastTs g) (elapsed g)
         (state g) (status g) (rng g).
Definition with_monster (g : Game) (m : Monster) : Game :=
  mkGame (player g) m (flames g) (startTs g) (lastTs g) (elapsed g)
         (state g) (status g) (rng g).
Definition with_flames (g : Game) (fs : list Flame) : Game :=
  mkGame (player g) (monster g) fs (startTs g) (lastTs g) (elapsed g)
         (state g) (status g) (rng g).
Definition with_rng (g : Game) (n : nat) : Game :=
  mkGame (player g) (monster g) (flames g) (startTs g) (lastTs g) (elapsed g)
         (state g) (status g) n.
Definition with_state (g : Game) (s : RunState) (msg : string) : Game :=
  mkGame (player g) (monster g) (flames g) (startTs g) (lastTs g) (elapsed g)
         s msg (rng g).
Definition with_clock (g : Game) (start last el : Q) : Game :=
  mkGame (player g) (monster g) (flames g) start last el
         (state g) (status g) (rng g).

(** [keys.has(k)] on the set of keys currently held down. *)
Definition has (ks : gset string) (k : string) : bool := bool_decide (k ∈ ks).

Section Simulation.

Variable M : MathLib.
Variables W H : Q.

(** [moveEntity(ent, vx, vy, dt)] on the rectangle of the entity. *)
Definition moveEntity (ent : Rect) (vx vy dt : Q) : Rect :=
  let e1 := rect (x ent + vx * dt) (y ent + vy * dt) (w ent) (h ent) in
  let e2 := fold_left resolveStaticCollision (walls W H) e1 in
  let e3 := set_x e2 (clamp (x e2) 0 (W - w e2)) in
  set_y e3 (clamp (y e3) 0 (H - h e3)).

(** [shieldIsUp(now)] *)
Definition shieldIsUp (now : Q) (s : Shield) : bool :=
  if negb (active s) then false
  else if Qltb now (brokenUntil s) then false
  else Qgtb (durability s) 0.

(** The shield regeneration statement of [updatePlayer]. *)
Definition regenShield (dt now : Q) (s : Shield) : Shield :=
  if Qgeb now (brokenUntil s) && negb (shieldIsUp now s)
  then with_durability s
         (clamp (durability s + regenPerSec s * dt) 0 (shield_max s))
  else s.

(** [updatePlayer(dt, now)] with the keys held down. *)
Definition updatePlayer (ks : gset string) (dt now : Q) (p : Player)
  : option Player :=
  let p := with_shield p (with_active (shield p) (has ks " ")) in
  let wantsSprint := has ks "shift" in
  let canSprint := wantsSprint && Qgtb (stamina p) 1 in
  let dx := 0 in
  let dy := 0 in
  let dx := if has ks "arrowleft" || has ks "a" then dx - 1 else dx in
  let dx := if has ks "arrowright" || has ks "d" then dx + 1 else dx in
  let dy := if has ks "arrowup" || has ks "w" then dy - 1 else dy in
  let dy := if has ks "arrowdown" || has ks "s" then dy + 1 else dy in
  let moving := negb (Qeq_bool dx 0) || negb (Qeq_bool dy 0) in
  let sprinting := moving && canSprint in
  let speed' := if sprinting then speed p * sprintMult p else speed p in
  let p :=
    if sprinting
    then with_stamina p
           (clamp (stamina p - staminaDrainPerSec p * dt) 0 (staminaMax p))
    else with_stamina p
           (clamp (stamina p + staminaRegenPerSec p * dt) 0 (staminaMax p)) in
  let p := with_shield p (regenShield dt now (shield p)) in
  if moving then
    n ← norm M dx dy;
    Some (with_body p
            (moveEntity (body p) (vx_ n * speed') (vy_ n * speed') dt))
  else Some p.

(** [pickWanderTarget(now)]: [n] is the number of turns of the
    [for (let i = 0; i < 40; i++)] loop still to run. *)
Fixpoint pickWanderLoop (n : nat) (now : Q) (g : Game) : Game :=
  match n with
  | O =>
      with_monster g
        (with_wander (monster g) (mkWander (W / 2) (H / 2) (now + 1000)))
  | S n' =>
      let px := 40 + random M (rng g) * (W - 80) in
      let py := 40 + random M (S (rng g)) * (H - 80) in
      let probe := rect (px - 6) (py - 6) 12 12 in
      if forallb (fun wl => negb (intersectsAABB probe wl)) (walls W H) then
        with_rng
          (with_monster g
             (with_wander (monster g)
                (mkWander px py
                   (now + 1100 + random M (S (S (rng g))) * 1300))))
          (S (S (S (rng g))))
      else pickWanderLoop n' now (with_rng g (S (S (rng g))))
  end.

Definition pickWanderTarget (now : Q) (g : Game) : Game :=
  pickWanderLoop 40 now g.

(** One particle of [emitConeFlames], for loop index [i]; [r0] is the number
    of [Math.random()] calls made before it. *)
Definition coneFlame (m : Monster) (fromX fromY baseAng now : Q)
           (i : nat) (r0 : nat) : Flame :=
  let count := 9 in
  let speed := 520 in
  let t := (inject_Z (Z.of_nat i) / (count - 1)) * 2 - 1 in
  let ang := baseAng + t * (coneAngle m / 2) in
  let jitter := (random M r0 - (1 # 2)) * (10 # 100) in
  let a := ang + jitter in
  let vx := cos M a * speed * ((75 # 100) + random M (r0 + 1) * (35 # 100)) in
  let vy := sin M a * speed * ((75 # 100) + random M (r0 + 2) * (35 # 100)) in
  mkFlame (fromX + cos M a * 22) (fromY + sin M a * 22) vx vy
          ((45 # 10) + random M (r0 + 3) * (25 # 10))
          now
          (520 + random M (r0 + 4) * 260).

(** [emitConeFlames(fromX, fromY, dirX, dirY, now)]: nine particles pushed
    at the end of [flames], five random draws each. *)
Definition emitConeFlames (fromX fromY dirX dirY now : Q) (g : Game) : Game :=
  let baseAng := atan2 M dirY dirX in
  let new := map (fun i => coneFlame (monster g) fromX fromY baseAng now i
                             (rng g + 5 * i)) (seq 0 9) in
  with_rng (with_flames g (flames g ++ new)) (rng g + 45).

(** What [updateFlames] does with the particle [f] (already advanced) once
    it is found to touch the player: the shield absorbs it, or the round is
    lost. Either way the particle is removed. *)
Definition flameHit (now : Q) (g : Game) : Game :=
  let s := shield (player g) in
  if shieldIsUp now s then
    let s1 := with_durability s (clamp (durability s - hitCost s) 0 (shield_max s)) in
    let s2 := if Qle_bool (durability s1) (1 # 1000)
              then with_brokenUntil s1 (now + breakCooldownMs s1)
              else s1 in
    with_player g (with_shield (player g) s2)
  else with_state g lost "burned (press R)".

(** The body of the loop of [updateFlames] for one particle: the game after
    it and the particle if it stays in [flames]. *)
Definition flameStep (dt now : Q) (f : Flame) (g : Game) : Game * option Flame :=
  let f := mkFlame (fl_x f + fl_vx f * dt) (fl_y f + fl_vy f * dt)
                   (fl_vx f) (fl_vy f) (fl_r f) (bornAt f) (ttlMs f) in
  if Qgtb (now - bornAt f) (ttlMs f) then (g, None)
  else
    let fr := rect (fl_x f - fl_r f) (fl_y f - fl_r f) (fl_r f * 2) (fl_r f * 2) in
    if existsb (intersectsAABB fr) (walls W H) then (g, None)
    else
      let pr := rect (x (body (player g))) (y (body (player g)))
                     (w (body (player g))) (h (body (player g))) in
      if pointInRect (fl_x f) (fl_y f) pr || intersectsAABB fr pr
      then (flameHit now g, None)
      else (g, Some f).

(** [updateFlames(dt, now)]: the loop runs from the last particle to the
    first and removes in place, so the particles are handled from the right
    and the survivors keep their order. *)
Definition updateFlames (dt now : Q) (g : Game) : Game :=
  let '(g', kept) :=
    fold_right
      (fun f '(acc, kept) =>
         match flameStep dt now f acc with
         | (acc', Some f') => (acc', f' :: kept)
         | (acc', None) => (acc', kept)
         end)
      (g, []) (flames g) in
  with_flames g' kept.

(** The last statement of [updateMonster]: contact with the dragon. *)
Definition contactCheck (g : Game) : Game :=
  if intersectsAABB (body (player g)) (mbody (monster g))
  then with_state g lost "mauled (press R)"
  else g.

(** The chase of [updateMonster]: close in beyond 110 pixels, back off
    under 75, hold in between. *)
Definition chaseMove (dt : Q) (toP : Vec) (dist : Q) (mo : Monster) : Monster :=
  if Qgtb dist 110 then
    with_mbody mo (moveEntity (mbody mo) (vx_ toP * speedChase mo)
                              (vy_ toP * speedChase mo) dt)
  else if Qltb dist 75 then
    with_mbody mo (moveEntity (mbody mo)
                              (- vx_ toP * (speedChase mo * (55 # 100)))
                              (- vy_ toP * (speedChase mo * (55 # 100))) dt)
  else mo.

(** [if (now - monster.lastBreathAt >= monster.breathCooldownMs) ...]:
    a breath burst starts. *)
Definition breathGate (now : Q) (mo : Monster) : Monster :=
  if Qgeb (now - lastBreathAt mo) (breathCooldownMs mo)
  then with_breath mo (now + breathDurationMs mo) now
  else mo.

(** The patrol step once the wander target is settled. *)
Definition patrolMove (dt : Q) (v : Vec) (mo : Monster) : Monster :=
  with_mbody mo (moveEntity (mbody mo) (vx_ v * speedPatrol mo)
                            (vy_ v * speedPatrol mo) dt).

(** [updateMonster(dt, now)] up to the contact test. The centres [mcx],
    [mcy] are those before the move. *)
Definition monsterAct (dt now : Q) (g : Game) : option Game :=
  let p := body (player g) in
  let m := mbody (monster g) in
  let pcx := x p + w p / 2 in
  let pcy := y p + h p / 2 in
  let mcx := x m + w m / 2 in
  let mcy := y m + h m / 2 in
  sees ← hasLineOfSight W H mcx mcy pcx pcy;
  if (sees : bool) then
    toP ← norm M (pcx - mcx) (pcy - mcy);
    let dist := len M (pcx - mcx) (pcy - mcy) in
    let mo := breathGate now (chaseMove dt toP dist (monster g)) in
    if Qltb now (breathActiveUntil mo)
    then Some (emitConeFlames mcx mcy (vx_ toP) (vy_ toP) now
                              (with_monster g mo))
    else Some (with_monster g mo)
  else
    let g := if Qgtb now (wander_until (wander (monster g)))
             then pickWanderTarget now g else g in
    v ← norm M (wander_x (wander (monster g)) - mcx)
               (wander_y (wander (monster g)) - mcy);
    Some (with_monster g (patrolMove dt v (monster g))).

Definition updateMonster (dt now : Q) (g : Game) : option Game :=
  g' ← monsterAct dt now g;
  Some (contactCheck g').

(** [startTs] and the time step of the frame at [ts]: a zero [startTs] or
    [lastTs] is replaced by [ts] first. *)
Definition frameStart (ts : Q) (g : Game) : Q :=
  if Qeq_bool (startTs g) 0 then ts else startTs g.

Definition frameDt (ts : Q) (g : Game) : Q :=
  let last := if Qeq_bool (lastTs g) 0 then ts else lastTs g in
  Math_min (33 # 1000) ((ts - last) / 1000).

(** The simulation part of [tick(ts)]; drawing and the request for the next
    frame are left to the presentation layer. *)
Definition tick (ks : gset string) (ts : Q) (g : Game) : option Game :=
  let start := frameStart ts g in
  let dt := frameDt ts g in
  let g := with_clock g start ts (elapsed g) in
  match state g with
  | running =>
      let g := with_clock g start ts ((ts - start) / 1000) in
      p ← updatePlayer ks dt ts (player g);
      g ← updateMonster dt ts (with_player g p);
      let g := updateFlames dt ts g in
      if Qgeb (elapsed g) GOAL_SECONDS
      then Some (with_state g won "won (press R)")
      else Some g
  | _ => Some g
  end.

End Simulation.

(** The initial values of [player] and [monster], and [reset()]. *)
Definition player0 : Player :=
  mkPlayer (rect 60 60 18 26) 210 (165 # 100) 100 100 38 22
           (mkShield false 100 100 26 14 0 2400).

Definition monster0 (M : MathLib) (W H : Q) : Monster :=
  mkMonster (rect (W - 110) (H - 100) 34 24) 220 125
            (mkWander (W / 2) (H / 2) 0)
            900 700 0 0 (PI M / (55 # 10)).

Definition reset (W H : Q) (g : Game) : Game :=
  let p := player g in
  let p := with_body p (set_y (set_x (body p) 60) 60) in
  let p := with_stamina p (staminaMax p) in
  let s := shield p in
  let s := with_brokenUntil (with_durability (with_active s false) (shield_max s)) 0 in
  let p := with_shield p s in
  let m := monster g in
  let m := with_mbody m (set_y (set_x (mbody m) (W - 110)) (H - 100)) in
  let m := with_wander m (mkWander (W / 2) (H / 2) 0) in
  let m := with_breath m 0 0 in
  mkGame p m [] 0 0 0 running "running" (rng g).

(** ** Grid navigation (the A* variant of the game) *)

Module Nav.

Open Scope Z_scope.

Definition NAV_CELL : Z := 22.
Definition NAV_COLS (W : Q) : Z := Qfloor (W / inject_Z NAV_CELL).
Definition NAV_ROWS (H : Q) : Z := Qfloor (H / inject_Z NAV_CELL).

(** Reading and writing a typed array at a [Z] index: a read out of range
    gives [undefined] ([None]), a write out of range is ignored. *)
Definition get {A} (a : list A) (i : Z) : option A :=
  if i <? 0 then None else a !! Z.to_nat i.
Definition set {A} (a : list A) (i : Z) (v : A) : list A :=
  if i <? 0 then a else <[Z.to_nat i := v]> a.

(** [a < b] when either side may be [undefined]: false then. *)
Definition lt_opt (a b : option Z) : bool :=
  match a, b with
  | Some u, Some v => u <? v
  | _, _ => false
  end.

(** The object [{ c, r, key }] made by [pointToCell]. *)
Record TCell := mkTCell { col : Z; row : Z; key : string }.

(** [`${c},${r}`] *)
Definition cellKey (c r : Z) : string := pretty c +:+ "," +:+ pretty r.

Definition clampZ (v lo hi : Z) : Z := Z.max lo (Z.min hi v).

(** The monster of this variant: the fields of [monster] that path planning
    reads or writes, next to the ones shared with [game.js]. *)
Record NavMonster := mkNavMonster {
  base : Monster;
  path : list Vec;
  pathIdx : Z;
  nextPathAt : Q;
  lastTargetKey : option string
}.

(** The arrays and the open list of one run of [aStar]. *)
Record Search := mkSearch {
  gScore : list Z;
  fScore : list Z;
  cameFrom : list Z;
  inOpen : list bool;
  inClosed : list bool;
  openList : list Z
}.

Section Grid.

Variables W H : Q.

(** [let navBlocked]: one byte per cell, row by row. *)
Variable navBlocked : list Z.

Definition navIdx (c r : Z) : Z := r * NAV_COLS W + c.

Definition inBounds (c r : Z) : bool :=
  (0 <=? c) && (0 <=? r) && (c <? NAV_COLS W) && (r <? NAV_ROWS H).

(** [pointToCell(x, y)] *)
Definition pointToCell (px py : Q) : TCell :=
  let c := clampZ (Qfloor (px / inject_Z NAV_CELL)) 0 (NAV_COLS W - 1) in
  let r := clampZ (Qfloor (py / inject_Z NAV_CELL)) 0 (NAV_ROWS H - 1) in
  mkTCell c r (cellKey c r).

(** [cellCenter(c, r)] *)
Definition cellCenter (c r : Z) : Vec :=
  vec (inject_Z (c * NAV_CELL) + inject_Z NAV_CELL / 2)
      (inject_Z (r * NAV_CELL) + inject_Z NAV_CELL / 2).

(** [isBlocked(c, r)] *)
Definition isBlocked (c r : Z) : bool :=
  if negb (inBounds c r) then true
  else match get navBlocked (navIdx c r) with
       | Some v => v =? 1
       | None => false
       end.

(** The cell of an index, as [aStar] recovers it:
    [r = Math.floor(idx / NAV_COLS)], [c = idx - r * NAV_COLS]. The search
    runs only on a grid with at least one column. *)
Definition cellOf (idx : Z) : Z * Z :=
  let r := idx / NAV_COLS W in
  (idx - r * NAV_COLS W, r).

(** [h(c, r)]: Manhattan distance to the goal. *)
Definition manhattan (goal : Z * Z) (c r : Z) : Z :=
  Z.abs (c - fst goal) + Z.abs (r - snd goal).

Definition dirs : list (Z * Z) := [ (1, 0); (-1, 0); (0, 1); (0, -1) ].

(** The arrays after the initialisation loop and the seeding of the start
    cell. Scores are whole numbers well inside the exact range of a
    [Float32Array]; [1e9] plays infinity. *)
Definition initSearch (start goal : Z * Z) : Search :=
  let n := Z.to_nat (NAV_COLS W * NAV_ROWS H) in
  let startIdx := navIdx (fst start) (snd start) in
  mkSearch (set (replicate n 1000000000) startIdx 0)
           (set (replicate n 1000000000) startIdx
                (manhattan goal (fst start) (snd start)))
           (replicate n (-1))
           (set (replicate n false) startIdx true)
           (replicate n false)
           [startIdx].

(** The linear scan for the best [fScore]: [i] is the loop index, [rest] the
    part of [openList] from [i] on. *)
Fixpoint scanBest (fS : list Z) (open rest : list Z) (i bestI : nat) : nat :=
  match rest with
  | [] => bestI
  | oi :: rest' =>
      let bestI' :=
        if lt_opt (get fS oi) (open !! bestI ≫= get fS) then i else bestI in
      scanBest fS open rest' (S i) bestI'
  end.

Definition bestIndex (fS : list Z) (open : list Z) : nat :=
  scanBest fS open (tail open) 1 0.

(** The body of [for (const d of dirs)] for one direction. *)
Definition relax (goal : Z * Z) (currentIdx : Z) (s : Search) (d : Z * Z)
  : Search :=
  let '(cc, cr) := cellOf currentIdx in
  let nc := cc + fst d in
  let nr := cr + snd d in
  if negb (inBounds nc nr) then s
  else if isBlocked nc nr then s
  else
    let ni := navIdx nc nr in
    if default false (get (inClosed s) ni) then s
    else
      let tentative := (λ g, g + 1) <$> get (gScore s) currentIdx in
      if lt_opt tentative (get (gScore s) ni) then
        let t := default 0 tentative in
        let s' := mkSearch (set (gScore s) ni t)
                           (set (fScore s) ni (t + manhattan goal nc nr))
                           (set (cameFrom s) ni currentIdx)
                           (inOpen s) (inClosed s) (openList s) in
        if negb (default false (get (inOpen s') ni)) then
          mkSearch (gScore s') (fScore s') (cameFrom s')
                   (set (inOpen s') ni true) (inClosed s')
                   (openList s' ++ [ni])
        else s'
      else s.

(** The reconstruction loop [while (cur !== -1)], followed by
    [path.reverse()]: the cells are consed in front of [acc]. [None] when
    the fuel runs out, or when [cameFrom[cur]] is read out of range, where
    the loop would go on for ever on [undefined]. *)
Fixpoint reconstruct (fuel : nat) (cF : list Z) (cur : Z) (acc : list (Z * Z))
  : option (list (Z * Z)) :=
  if cur =? -1 then Some acc
  else
    match fuel with
    | O => None
    | S fuel' =>
        match get cF cur with
        | None => None
        | Some prev => reconstruct fuel' cF prev (cellOf cur :: acc)
        end
    end.

(** The main loop [while (openList.length)]. [None]: out of fuel;
    [Some None]: [return null]; [Some (Some path)]: the path found. *)
Fixpoint searchLoop (fuel : nat) (goal : Z * Z) (s : Search)
  : option (option (list (Z * Z))) :=
  match fuel with
  | O => None
  | S fuel' =>
      match openList s with
      | [] => Some None
      | _ :: _ =>
          let bestI := bestIndex (fScore s) (openList s) in
          match openList s !! bestI with
          | None => None
          | Some currentIdx =>
              let s := mkSearch (gScore s) (fScore s) (cameFrom s)
                                (set (inOpen s) currentIdx false)
                                (set (inClosed s) currentIdx true)
                                (delete bestI (openList s)) in
              if currentIdx =? navIdx (fst goal) (snd goal) then
                Some <$> reconstruct fuel' (cameFrom s) currentIdx []
              else
                searchLoop fuel' goal (fold_left (relax goal currentIdx) dirs s)
          end
      end
  end.

(** [aStar(start, goal)] on the cells [(c, r)]. *)
Definition aStar (fuel : nat) (start goal : Z * Z)
  : option (option (list (Z * Z))) :=
  searchLoop fuel goal (initSearch start goal).

(** The offsets [(dc, dr)] of the square of radius [rad], in the order of
    the two nested loops: [dr] outside, [dc] inside, both from [-rad] up. *)
Definition ringOffsets (rad : Z) : list (Z * Z) :=
  dr ← seqZ (- rad) (2 * rad + 1);
  dc ← seqZ (- rad) (2 * rad + 1);
  [(dc, dr)].

(** The first free in-bounds cell of the square of radius [rad] around
    [(c0, r0)]. *)
Definition ringFind (c0 r0 rad : Z) : option (Z * Z) :=
  find (λ cr, inBounds (fst cr) (snd cr) && negb (isBlocked (fst cr) (snd cr)))
       (map (λ d, (c0 + fst d, r0 + snd d)) (ringOffsets rad)).

(** [for (let rad = 1; rad <= 4 && !found; rad++)] *)
Fixpoint ringSearch (c0 r0 : Z) (rads : list Z) : option (Z * Z) :=
  match rads with
  | [] => None
  | rad :: rest =>
      match ringFind c0 r0 rad with
      | Some f => Some f
      | None => ringSearch c0 r0 rest
      end
  end.

(** The target cell after the nudge of [buildPathTo]. *)
Definition retarget (tc : TCell) : TCell :=
  if isBlocked (col tc) (row tc) then
    match ringSearch (col tc) (row tc) [1; 2; 3; 4] with
    | Some (c, r) => mkTCell c r (cellKey c r)
    | None => tc
    end
  else tc.

(** [buildPathTo] from the blocked-cell tests on: the search from the
    monster's cell [mc] to the target cell [tc], and the installation of the
    way points. [None] when the search is out of fuel. *)
Definition planTo (fuel : nat) (mc tc : TCell) (m : NavMonster)
  : option (bool * NavMonster) :=
  let startBlocked := isBlocked (col mc) (row mc) in
  let goalBlocked := isBlocked (col tc) (row tc) in
  if startBlocked || goalBlocked then Some (false, m)
  else
    match aStar fuel (col mc, row mc) (col tc, row tc) with
    | None => None
    | Some None => Some (false, m)
    | Some (Some cells) =>
        if (length cells <? 2)%nat then Some (false, m)
        else
          Some (true,
                mkNavMonster (base m)
                             (map (λ p, cellCenter (fst p) (snd p)) (tail cells))
                             0 (nextPathAt m) (Some (key tc)))
    end.

(** The cell of the centre of the monster. *)
Definition monsterCell (m : NavMonster) : TCell :=
  let b := mbody (base m) in
  pointToCell (x b + w b / 2)%Q (y b + h b / 2)%Q.

(** [buildPathTo(targetX, targetY)]: the value returned and the monster
    after the call. *)
Definition buildPathTo (fuel : nat) (targetX targetY : Q) (m : NavMonster)
  : option (bool * NavMonster) :=
  planTo fuel (monsterCell m) (retarget (pointToCell targetX targetY)) m.

(** *** Predicates used in the statements *)

(** Two cells that differ by exactly one in exactly one of column and row. *)
Definition adjacent (a b : Z * Z) : Prop :=
  Z.abs (fst a - fst b) + Z.abs (snd a - snd b) = 1.

(** Every cell of the list is 4-adjacent to the next one. *)
Definition stepwise (l : list (Z * Z)) : Prop :=
  ∀ (i : nat) a b, l !! i = Some a → l !! S i = Some b → adjacent a b.

Definition free (p : Z * Z) : Prop := isBlocked (fst p) (snd p) = false.

(** The ring a cell lies on around [(c0, r0)]: its Chebyshev distance. *)
Definition ringOf (c0 r0 : Z) (p : Z * Z) : Z :=
  Z.max (Z.abs (fst p - c0)) (Z.abs (snd p - r0)).

(** Every link recorded in [cameFrom] goes from a cell to a free in-bounds
    neighbour of it in one of the four directions. *)
Definition linked (cF : list Z) : Prop :=
  ∀ i j, get cF i = Some j → j ≠ -1 →
    ∃ d, d ∈ dirs ∧
      inBounds (fst (cellOf j) + fst d) (snd (cellOf j) + snd d) = true ∧
      isBlocked (fst (cellOf j) + fst d) (snd (cellOf j) + snd d) = false ∧
      i = navIdx (fst (cellOf j) + fst d) (snd (cellOf j) + snd d).

(** The number of cells of the grid, and of those the search has not
    closed yet. *)
Definition slots : nat := Z.to_nat (NAV_COLS W * NAV_ROWS H).

Definition unclosed (s : Search) : nat :=
  count_occ Bool.bool_dec (inClosed s) false.

Definition closedN (s : Search) : Z := Z.of_nat slots - Z.of_nat (unclosed s).

(** The invariant of the main loop of [aStar] behind its termination: the
    arrays have one slot per cell; the open list holds distinct indices of
    cells that are flagged open, not closed, with a score of at most the
    number of closed cells; a closed cell has a score below that number; and
    every link goes to a closed cell of smaller score. *)
Record searching (s : Search) : Prop := {
  sized :
    length (inClosed s) = slots /\ length (inOpen s) = slots /\
    length (gScore s) = slots /\ length (cameFrom s) = slots;
  open_ok : ∀ i, i ∈ openList s →
    get (inClosed s) i = Some false ∧ get (inOpen s) i = Some true ∧
    ∃ g, get (gScore s) i = Some g ∧ 0 <= g <= closedN s;
  open_nodup : NoDup (openList s);
  closed_ok : ∀ i, get (inClosed s) i = Some true →
    ∃ g, get (gScore s) i = Some g ∧ 0 <= g < closedN s;
  links_ok : ∀ i j, get (cameFrom s) i = Some j → j ≠ -1 →
    get (inClosed s) j = Some true ∧
    ∃ gi gj, get (gScore s) i = Some gi ∧ get (gScore s) j = Some gj ∧ gj < gi
}.

End Grid.

(** [rebuildNavGrid()]: a cell is blocked when its 4x4 centre probe meets a
    wall inflated by ten pixels. *)
Definition rebuildNavGrid (W H : Q) : list Z :=
  let inflate := 10%Q in
  let inflatedWalls :=
    map (λ wl, rect (x wl - inflate) (y wl - inflate)
                    (w wl + inflate * 2) (h wl + inflate * 2))%Q (walls W H) in
  r ← seqZ 0 (NAV_ROWS H);
  c ← seqZ 0 (NAV_COLS W);
  let cx := (inject_Z (c * NAV_CELL) + inject_Z NAV_CELL / 2)%Q in
  let cy := (inject_Z (r * NAV_CELL) + inject_Z NAV_CELL / 2)%Q in
  let probe := rect (cx - 2) (cy - 2) 4 4 in
  [if existsb (intersectsAABB probe) inflatedWalls then 1 else 0].

End Nav.

(** A rational stand-in for the library, to run the model on concrete
    inputs: the taxicab length for [hypot], a fixed direction for the
    trigonometry, [355/113] for [PI] and a constant random stream. *)
Definition sampleMath : MathLib :=
  {| hypot := fun a b => Qabs a + Qabs b;
     cos := fun _ => 1;
     sin := fun _ => 0;
     atan2 := fun _ _ => 0;
     PI := 355 # 113;
     random := fun _ => 1 # 2 |}.

(** The module-level variables as the script initialises them. *)
Definition game0 (M : MathLib) (W H : Q) : Game :=
  mkGame player0 (monster0 M W H) [] 0 0 0 running "running" 0.

(** Three situations on a 900 x 560 canvas, with the dragon next to the
    player.  [closingIn]: the dragon one pixel to the right of the player,
    29.99 seconds into the round.  [touching]: the two rectangles on top of
    each other, four seconds in.  [touchingInFlames]: the same with a flame
    particle on the player. *)
Definition closingIn : Game :=
  mkGame player0
         (with_mbody (monster0 sampleMath 900 560) (rect 79 60 34 24))
         [] 1000 30990 (2999 # 100) running "running" 0.

Definition touching : Game :=
  mkGame player0
         (with_mbody (monster0 sampleMath 900 560) (rect 60 60 34 24))
         [] 1000 5000 4 running "running" 0.

Definition touchingInFlames : Game :=
  with_flames touching [mkFlame 69 73 0 0 5 5000 600].

(** A five by five grid (a 110 x 110 canvas) with a wall in the middle, and
    a monster in its top left cell. *)
Definition sampleGrid : list Z :=
  [ 0; 0; 0; 0; 0;
    0; 1; 1; 1; 0;
    0; 0; 0; 1; 0;
    1; 1; 0; 1; 0;
    0; 0; 0; 0; 0 ]%Z.

Definition sampleNavMonster : Nav.NavMonster :=
  Nav.mkNavMonster
    (with_mbody (monster0 sampleMath 110 110) (rect 0 0 10 10)) [] 0 0 None.

(** ** Predicates used in the statements *)

(** On one axis, the interval [a1, a2] of the mover leaves the interval
    [b1, b2] of the obstacle on one side only: it starts before the obstacle
    and ends no later, or starts inside it and ends no earlier. *)
Definition partialOverlap (a1 a2 b1 b2 : Q) : Prop :=
  (a1 < b1 /\ a2 <= b2) \/ (b1 <= a1 /\ b2 <= a2).

(** The overlap is partial on the axis along which
    [resolveStaticCollision] pushes. *)
Definition pushedClear (m s : Rect) : Prop :=
  (overlapX m s < overlapY m s ->
   partialOverlap (x m) (x m + w m) (x s) (x s + w s)) /\
  (overlapY m s <= overlapX m s ->
   partialOverlap (y m) (y m + h m) (y s) (y s + h s)).

(** Some parameter [t] of the range [t0, t1] meets every constraint
    [p * t <= q] of the list: the segment meets all the half-planes. *)
Definition feasible (pq : list (Q * Q)) (t0 t1 : Q) : Prop :=
  exists t, t0 <= t <= t1 /\ Forall (fun c => fst c * t <= snd c) pq.

(** The four half-plane constraints of a segment against a rectangle. *)
Definition constraints (x1 y1 x2 y2 : Q) (r : Rect) : list (Q * Q) :=
  zip [ - (x2 - x1); x2 - x1; - (y2 - y1); y2 - y1 ]
      [ x1 - x r; (x r + w r) - x1; y1 - y r; (y r + h r) - y1 ].

(** The rectangle lies inside the arena of width [W] and height [H]. *)
Definition insideArena (W H : Q) (e : Rect) : Prop :=
  0 <= x e /\ x e + w e <= W /\ 0 <= y e /\ y e + h e <= H.

(** A sequence of motion updates, each with its velocity and time step. *)
Definition moveAll (W H : Q) (e : Rect) (moves : list (Q * Q * Q)) : Rect :=
  fold_left (fun e mv => moveEntity W H e (fst (fst mv)) (snd (fst mv)) (snd mv))
            moves e.

(** Flame particles that reach the player one after the other, at the
    times [nows], with nothing else happening in between. *)
Definition applyHits (nows : list Q) (g : Game) : Game :=
  fold_left (fun g now => flameHit now g) nows g.

(** The shield is raised at each of these hits. *)
Fixpoint raisedForAll (nows : list Q) (g : Game) : Prop :=
  match nows with
  | [] => True
  | now :: rest =>
      shieldIsUp now (shield (player g)) = true /\
      raisedForAll rest (flameHit now g)
  end.

(** Successive calls of [updatePlayer], each with the keys held, the time
    step and the clock of its tick. *)
Fixpoint playerTicks (M : MathLib) (W H : Q)
         (inputs : list (gset string * Q * Q)) (p : Player) : option Player :=
  match inputs with
  | [] => Some p
  | (ks, dt, now) :: rest =>
      p' ← updatePlayer M W H ks dt now p;
      playerTicks M W H rest p'
  end.

(** What the dragon's own move leaves alone: the player, the outcome of the
    round and the clock. *)
Definition sameRound (g g' : Game) : Prop :=
  player g' = player g /\ state g' = state g /\ status g' = status g /\
  elapsed g' = elapsed g.

(** What the projectile update may do to the outcome of the round [g]: the
    clock and the rectangles are kept, a loss stays a loss, and the cause is
    either kept or replaced by the burn. *)
Definition afterFlames (g g' : Game) : Prop :=
  elapsed g' = elapsed g /\
  body (player g') = body (player g) /\ monster g' = monster g /\
  (state g = lost -> state g' = lost) /\
  (state g' = state g \/ state g' = lost) /\
  (status g' = status g \/
   (status g' = "burned (press R)" /\ state g' = lost)).

(** The particle [f], once advanced by [dt], is alive at [now], clear of
    the walls and touches the rectangle [pr]: the three tests of
    [updateFlames] that lead to a hit. *)
Definition reachesPlayer (W H dt now : Q) (pr : Rect) (f : Flame) : bool :=
  let fx := fl_x f + fl_vx f * dt in
  let fy := fl_y f + fl_vy f * dt in
  let fr := rect (fx - fl_r f) (fy - fl_r f) (fl_r f * 2) (fl_r f * 2) in
  negb (Qgtb (now - bornAt f) (ttlMs f)) &&
  negb (existsb (intersectsAABB fr) (walls W H)) &&
  (pointInRect fx fy pr || intersectsAABB fr pr).

(** The invariant of the shield: its durability lies in [[0, max]]. *)
Definition shieldInRange (s : Shield) : Prop :=
  0 <= durability s <= shield_max s.

(** [Math.random()] returns a number of [[0, 1)]. *)
Definition unitRandom (M : MathLib) : Prop :=
  forall n, 0 <= random M n < 1.

(** The particle after the integration step of [updateFlames]. *)
Definition advanceFlame (dt : Q) (f : Flame) : Flame :=
  mkFlame (fl_x f + fl_vx f * dt) (fl_y f + fl_vy f * dt)
          (fl_vx f) (fl_vy f) (fl_r f) (bornAt f) (ttlMs f).

(** The square that [updateFlames] tests for the particle [f]. *)
Definition flameBox (f : Flame) : Rect :=
  rect (fl_x f - fl_r f) (fl_y f - fl_r f) (fl_r f * 2) (fl_r f * 2).

(** The particle [f] stays in [flames] through an [updateFlames] at [now]
    with the player at [pr]: once advanced it has not expired, its square is
    clear of the walls and it does not touch the player. *)
Definition staysAloft (W H dt now : Q) (pr : Rect) (f : Flame) : bool :=
  let f' := advanceFlame dt f in
  negb (Qgtb (now - bornAt f') (ttlMs f')) &&
  negb (existsb (intersectsAABB (flameBox f')) (walls W H)) &&
  negb (pointInRect (fl_x f') (fl_y f') pr || intersectsAABB (flameBox f') pr).

(** The fields that no function of the game assigns, [reset] included: the
    sizes, speeds and rates of the player, of its shield and of the dragon. *)
Definition playerSetup (p : Player) : list Q :=
  [w (body p); h (body p); speed p; sprintMult p; staminaMax p;
   staminaDrainPerSec p; staminaRegenPerSec p;
   shield_max (shield p); hitCost (shield p); regenPerSec (shield p);
   breakCooldownMs (shield p)].

Definition monsterSetup (m : Monster) : list Q :=
  [w (mbody m); h (mbody m); speedChase m; speedPatrol m;
   breathCooldownMs m; breathDurationMs m; coneAngle m].

Definition setup (g : Game) : list Q :=
  playerSetup (player g) ++ monsterSetup (monster g).

(** ** Following a path (the A* variant) *)

Module NavMore.

Import Nav.
Local Open Scope Z_scope.

Section Grid.

Variable M : MathLib.
Variables W H : Q.
Variable navBlocked : list Z.

(** [followPath(dt, speed)]: the value returned and the monster after the
    call. [None] stands for the [TypeError] of reading [wp.x] when
    [monster.path[monster.pathIdx]] is [undefined] (a negative index). *)
Definition followPath (dt speed : Q) (m : NavMonster)
  : option (bool * NavMonster) :=
  if (length (path m) =? 0)%nat || (Z.of_nat (length (path m)) <=? pathIdx m)
  then Some (false, m)
  else
    let b := mbody (base m) in
    let mcx := (x b + w b / 2)%Q in
    let mcy := (y b + h b / 2)%Q in
    wp ← get (path m) (pathIdx m);
    let dx := (vx_ wp - mcx)%Q in
    let dy := (vy_ wp - mcy)%Q in
    let d := len M dx dy in
    if Qltb d 6 then
      Some (true, mkNavMonster (base m) (path m) (pathIdx m + 1)
                               (nextPathAt m) (lastTargetKey m))
    else
      v ← norm M dx dy;
      Some (true,
            mkNavMonster
              (with_mbody (base m)
                 (moveEntity W H (mbody (base m))
                             (vx_ v * speed) (vy_ v * speed) dt))
              (path m) (pathIdx m) (nextPathAt m) (lastTargetKey m)).

(** A walk over free cells from [a] to [b], each step to a 4-neighbour. *)
Definition route (a b : Z * Z) (p : list (Z * Z)) : Prop :=
  head p = Some a /\ last p = Some b /\ stepwise p /\
  Forall (free W H navBlocked) p.

(** Among the cells the search has reached, only the start cell has no
    predecessor. *)
Definition rooted (startIdx : Z) (s : Search) : Prop :=
  forall i, get (cameFrom s) i = Some (-1) ->
            get (inClosed s) i = Some true \/ i ∈ openList s ->
            i = startIdx.

(** The invariant of the main loop of [aStar] behind its completeness, for
    the start index [si] and the goal index [gi]: a cell flagged open is in
    the open list; a cell with a score below the initial [1e9] is closed or
    flagged open; the start cell is closed or in the open list; the goal
    cell is not closed; and every free neighbour of a closed cell is closed
    or in the open list, but for the neighbours of the cell [cur] under
    expansion in the directions not yet [done]. *)
Record exploring (si gi cur : Z) (done : list (Z * Z)) (s : Search) : Prop := {
  flagged : forall i, get (inOpen s) i = Some true -> i ∈ openList s;
  reached : forall i g, get (gScore s) i = Some g -> g < 1000000000 ->
    get (inClosed s) i = Some true \/ get (inOpen s) i = Some true;
  start_in : get (inClosed s) si = Some true \/ si ∈ openList s;
  goal_out : get (inClosed s) gi <> Some true;
  spread : forall j d,
    get (inClosed s) j = Some true -> d ∈ dirs -> j <> cur \/ d ∈ done ->
    isBlocked W H navBlocked (fst (cellOf W j) + fst d)
              (snd (cellOf W j) + snd d) = false ->
    get (inClosed s)
        (navIdx W (fst (cellOf W j) + fst d) (snd (cellOf W j) + snd d))
    = Some true \/
    navIdx W (fst (cellOf W j) + fst d) (snd (cellOf W j) + snd d)
    ∈ openList s
}.

(** The invariant of the main loop of [aStar] behind the shortness of its
    path, from [start] to [goal]: the start cell has score zero; [fScore]
    has one slot per cell and, for a cell of the open list, holds its
    [gScore] plus the Manhattan distance to the goal; the score of a closed
    cell is at most the number of steps of any walk to it; a score below
    the initial [1e9] is the number of steps of some walk; the score of a
    free neighbour of a closed cell is at most one more than the score of
    that cell, but for the neighbours of the cell [cur] under expansion in
    the directions not yet [done]; and the score of a cell is one more than
    the score of the cell it came from. *)
Record settled (start goal : Z * Z) (cur : Z) (done : list (Z * Z))
       (s : Search) : Prop := {
  g_start : get (gScore s) (navIdx W (fst start) (snd start)) = Some 0;
  f_len : length (fScore s) = slots W H;
  f_open : forall i, i ∈ openList s ->
    exists g, get (gScore s) i = Some g /\
      get (fScore s) i
      = Some (g + manhattan goal (fst (cellOf W i)) (snd (cellOf W i)));
  closed_best : forall j g q,
    get (inClosed s) j = Some true -> get (gScore s) j = Some g ->
    route start (cellOf W j) q -> g + 1 <= Z.of_nat (length q);
  realized : forall i g,
    get (gScore s) i = Some g -> g < 1000000000 ->
    exists q, route start (cellOf W i) q /\ Z.of_nat (length q) = g + 1;
  edges : forall j d gj,
    get (inClosed s) j = Some true -> d ∈ dirs -> j <> cur \/ d ∈ done ->
    isBlocked W H navBlocked (fst (cellOf W j) + fst d)
              (snd (cellOf W j) + snd d) = false ->
    get (gScore s) j = Some gj ->
    exists gn,
      get (gScore s)
          (navIdx W (fst (cellOf W j) + fst d) (snd (cellOf W j) + snd d))
      = Some gn /\ gn <= gj + 1;
  glink : forall i j,
    get (cameFrom s) i = Some j -> j <> -1 ->
    exists gj, get (gScore s) j = Some gj /\ get (gScore s) i = Some (gj + 1)
}.

(** ** The dragon of the A* variant *)

(** The game of this variant: the variables shared with [game.js] in
    [world], and the fields of [monster] that only this variant has. *)
Record Hunt := mkHunt {
  world : Game;
  hpath : list Vec;
  hpathIdx : Z;
  hnextPathAt : Q;
  hlastTargetKey : option string;
  lastSeen : Vec;
  lastSeenAt : Q
}.

Definition with_world (h : Hunt) (g : Game) : Hunt :=
  mkHunt g (hpath h) (hpathIdx h) (hnextPathAt h) (hlastTargetKey h)
         (lastSeen h) (lastSeenAt h).

(** The monster as [buildPathTo] and [followPath] see it, and back. *)
Definition navOf (h : Hunt) : NavMonster :=
  mkNavMonster (monster (world h)) (hpath h) (hpathIdx h) (hnextPathAt h)
               (hlastTargetKey h).

Definition withNav (h : Hunt) (m : NavMonster) : Hunt :=
  mkHunt (with_monster (world h) (base m)) (path m) (pathIdx m)
         (nextPathAt m) (lastTargetKey m) (lastSeen h) (lastSeenAt h).

(** [moveEntity(monster, vx, vy, dt)] *)
Definition moveMonster (vx vy dt : Q) (h : Hunt) : Hunt :=
  with_world h
    (with_monster (world h)
       (with_mbody (monster (world h))
          (moveEntity W H (mbody (monster (world h))) vx vy dt))).

(** The block of [updateMonster] that plans towards [(tx, ty)]; it appears
    twice, with a pause of 220 ms when hunting and of 350 ms on patrol. The
    value returned by [buildPathTo] is not looked at. *)
Definition repath (fuel : nat) (pause now mcx mcy tx ty : Q) (h : Hunt)
  : option Hunt :=
  let tc := pointToCell W H tx ty in
  let shouldRepath :=
    Qgeb now (hnextPathAt h)
    || negb (bool_decide (hlastTargetKey h = Some (key tc))) in
  if shouldRepath then
    direct ← hasLineOfSight W H mcx mcy tx ty;
    h ← (if (direct : bool) then
           Some (mkHunt (world h) [vec tx ty] 0 (hnextPathAt h)
                        (Some (key tc)) (lastSeen h) (lastSeenAt h))
         else
           '(_, m) ← buildPathTo W H navBlocked fuel tx ty (navOf h);
           Some (withNav h m));
    Some (mkHunt (world h) (hpath h) (hpathIdx h) (now + pause)%Q
                 (hlastTargetKey h) (lastSeen h) (lastSeenAt h))
  else Some h.

(** [const ok = followPath(dt, speed); if (!ok) moveEntity(monster, ...)] *)
Definition followOr (dt speed vx vy : Q) (h : Hunt) : option Hunt :=
  '(ok, m) ← followPath dt speed (navOf h);
  let h := withNav h m in
  if (ok : bool) then Some h else Some (moveMonster vx vy dt h).

(** The branch [if (target) { ... }] of [updateMonster]: the dragon goes
    for the point [t], the player when it [sees] it and the place where it
    last saw it otherwise. *)
Definition chase (fuel : nat) (dt now mcx mcy : Q) (sees : bool) (toP : Vec)
           (dist : Q) (t : Vec) (st : Hunt) : option Hunt :=
  st ← repath fuel 220 now mcx mcy (vx_ t) (vy_ t) st;
  let speedChase := speedChase (monster (world st)) in
  let desired := (if sees then 105 else 0)%Q in
  st ← (if sees && Qltb dist 70 then
          Some (moveMonster (- vx_ toP * (speedChase * (55 # 100)))
                            (- vy_ toP * (speedChase * (55 # 100))) dt st)
        else if negb sees || Qgtb dist desired then
          followOr dt (if sees then speedChase else speedChase * (9 # 10))%Q
                   (vx_ toP * speedChase) (vy_ toP * speedChase) st
        else Some st);
  if sees then
    let g := with_monster (world st) (breathGate now (monster (world st))) in
    if Qltb now (breathActiveUntil (monster g))
    then Some (with_world st
                 (emitConeFlames M mcx mcy (vx_ toP) (vy_ toP) now g))
    else Some (with_world st g)
  else Some st.

(** The branch [else { ... }] of [updateMonster]: the patrol. *)
Definition patrol (fuel : nat) (dt now mcx mcy : Q) (st : Hunt)
  : option Hunt :=
  let st := if Qgtb now (wander_until (wander (monster (world st))))
            then with_world st (pickWanderTarget M W H now (world st))
            else st in
  let wd := wander (monster (world st)) in
  v ← norm M (wander_x wd - mcx) (wander_y wd - mcy);
  st ← repath fuel 350 now mcx mcy (wander_x wd) (wander_y wd) st;
  let speedPatrol := speedPatrol (monster (world st)) in
  followOr dt speedPatrol (vx_ v * speedPatrol) (vy_ v * speedPatrol) st.

(** [updateMonster(dt, now)] of the A* variant. The centres [mcx], [mcy]
    are those before the move. *)
Definition updateMonster (fuel : nat) (dt now : Q) (st : Hunt) : option Hunt :=
  let p := body (player (world st)) in
  let m := mbody (monster (world st)) in
  let pcx := (x p + w p / 2)%Q in
  let pcy := (y p + h p / 2)%Q in
  let mcx := (x m + w m / 2)%Q in
  let mcy := (y m + h m / 2)%Q in
  sees ← hasLineOfSight W H mcx mcy pcx pcy;
  let st := if (sees : bool)
            then mkHunt (world st) (hpath st) (hpathIdx st) (hnextPathAt st)
                        (hlastTargetKey st) (vec pcx pcy) now
            else st in
  toP ← norm M (pcx - mcx) (pcy - mcy);
  let dist := len M (pcx - mcx) (pcy - mcy) in
  let target :=
    if sees then Some (vec pcx pcy)
    else if Qltb (now - lastSeenAt st) 2500 then Some (lastSeen st)
    else None in
  st ← match target with
       | Some t => chase fuel dt now mcx mcy sees toP dist t st
       | None => patrol fuel dt now mcx mcy st
       end;
  Some (with_world st (contactCheck (world st))).

(** The cursor of the path is within the path. *)
Definition onPath (h : Hunt) : Prop :=
  0 <= hpathIdx h <= Z.of_nat (length (hpath h)).

(** What a step of the dragon keeps: the cursor on the path, and the
    player, the outcome and the clock of the round. *)
Definition keeps (st st' : Hunt) : Prop :=
  onPath st' /\ sameRound (world st) (world st').

End Grid.

End NavMore.

(** The A* variant at its start on the 110 x 110 canvas of [sampleGrid]:
    its dragon chases at 235 pixels per second. *)
Definition sampleHunt : NavMore.Hunt :=
  NavMore.mkHunt
    (with_monster (game0 sampleMath 110 110)
       (mkMonster (rect (110 - 110) (110 - 100) 34 24) 235 125
                  (mkWander (110 / 2) (110 / 2) 0)
                  900 700 0 0 (PI sampleMath / (55 # 10))))
    [] 0 0 None (vec (110 / 2) (110 / 2)) 0.

(** A rectangle with whole coordinates and sizes, small enough for the sums
    and differences that [resolveStaticCollision] and [intersectsAABB] form
    to be exact in double precision. *)
Definition wholeRect (r : Rect) : Prop :=
  exists a b c d : Z,
    x r == inject_Z a /\ y r == inject_Z b /\
    w r == inject_Z c /\ h r == inject_Z d /\
    (Z.abs a <= 2 ^ 50 /\ Z.abs b <= 2 ^ 50 /\
     Z.abs c <= 2 ^ 50 /\ Z.abs d <= 2 ^ 50)%Z.

(** ** The geometry in double precision *)

(** The numbers of the program are IEEE 754 doubles. The module [Dbl]
    carries the functions whose result can depend on rounding over the
    binary64 numbers of [PrimFloat], operation by operation. *)
Module Dbl.

Import PrimFloat.
Local Open Scope float_scope.

Record Rect := rect { x : float; y : float; w : float; h : float }.

(** [Math.min] and [Math.max]: [NaN] when an argument is [NaN], and [-0]
    below [+0]. *)
Definition Math_min (a b : float) : float :=
  if is_nan a || is_nan b then nan
  else if a <? b then a
  else if b <? a then b
  else if get_sign a then a else b.

Definition Math_max (a b : float) : float :=
  if is_nan a || is_nan b then nan
  else if a <? b then b
  else if b <? a then a
  else if get_sign a then b else a.

(** [a.x < b.x + b.w && a.x + a.w > b.x && a.y < b.y + b.h && a.y + a.h > b.y] *)
Definition intersectsAABB (a b : Rect) : bool :=
  (x a <? x b + w b) && (x b <? x a + w a) &&
  (y a <? y b + h b) && (y b <? y a + h a).

Definition set_x (r : Rect) (v : float) : Rect := rect v (y r) (w r) (h r).
Definition set_y (r : Rect) (v : float) : Rect := rect (x r) v (w r) (h r).

Definition overlapX (mover stat : Rect) : float :=
  Math_min (x mover + w mover) (x stat + w stat) - Math_max (x mover) (x stat).
Definition overlapY (mover stat : Rect) : float :=
  Math_min (y mover + h mover) (y stat + h stat) - Math_max (y mover) (y stat).

(** [resolveStaticCollision(mover, stat)]: the mover after the call. *)
Definition resolveStaticCollision (mover stat : Rect) : Rect :=
  if negb (intersectsAABB mover stat) then mover
  else
    if overlapX mover stat <? overlapY mover stat then
      if x mover <? x stat
      then set_x mover (x mover - overlapX mover stat)
      else set_x mover (x mover + overlapX mover stat)
    else
      if y mover <? y stat
      then set_y mover (y mover - overlapY mover stat)
      else set_y mover (y mover + overlapY mover stat).

(** [px >= r.x && px <= r.x + r.w && py >= r.y && py <= r.y + r.h] *)
Definition pointInRect (px py : float) (r : Rect) : bool :=
  (x r <=? px) && (px <=? x r + w r) && (y r <=? py) && (py <=? y r + h r).

(** One turn of the clipping loop on the pair [(p, q)] and the range
    [(t0, t1)]; [None] is [return false]. *)
Definition clipStep (p q : float) (t : float * float)
  : option (float * float) :=
  let '(t0, t1) := t in
  if p =? 0 then
    if q <? 0 then None else Some (t0, t1)
  else
    let tq := q / p in
    if p <? 0 then
      if t1 <? tq then None
      else Some (if t0 <? tq then tq else t0, t1)
    else
      if tq <? t0 then None
      else Some (t0, if tq <? t1 then tq else t1).

Fixpoint clipLoop (pq : list (float * float)) (t : float * float) : bool :=
  match pq with
  | [] => true
  | (p, q) :: rest =>
      match clipStep p q t with
      | None => false
      | Some t' => clipLoop rest t'
      end
  end.

(** [segmentIntersectsRect(x1, y1, x2, y2, r)] *)
Definition segmentIntersectsRect (x1 y1 x2 y2 : float) (r : Rect) : bool :=
  if pointInRect x1 y1 r || pointInRect x2 y2 r then true
  else
    let dx := x2 - x1 in
    let dy := y2 - y1 in
    clipLoop [ (- dx, x1 - x r); (dx, (x r + w r) - x1);
               (- dy, y1 - y r); (dy, (y r + h r) - y1) ] (0, 1).

(** [const walls = [...]] for a canvas of width [W] and height [H]. *)
Definition walls (W H : float) : list Rect := [
  rect 0 0 W 16;
  rect 0 (H - 16) W 16;
  rect 0 0 16 H;
  rect (W - 16) 0 16 H;

  rect 140 80 520 18;
  rect 140 80 18 250;
  rect 320 160 18 260;
  rect 480 250 320 18;
  rect 650 120 18 210;
  rect 210 360 260 18;
  rect 760 360 18 120;
  rect 90 420 180 18
].

Fixpoint losAgainst (ws : list Rect) (ax ay bx by_ : float) : bool :=
  match ws with
  | [] => true
  | wl :: rest =>
      if segmentIntersectsRect ax ay bx by_ wl then false
      else losAgainst rest ax ay bx by_
  end.

(** [hasLineOfSight(ax, ay, bx, by)] *)
Definition hasLineOfSight (W H ax ay bx by_ : float) : bool :=
  losAgainst (walls W H) ax ay bx by_.


(** A rectangle of the size of the player, 7.165 pixels deep into the top
    of the wall [rect(480, 250, 320, 18)]: its position is
    (528.8517938618824, 231.16512985879686). *)
Definition sunkMover : Rect :=
  rect 0x1.086d0794cddbfp+9 0x1.ce548be69e405p+7 18 26.

End Dbl.

(** * Properties *)

(** ** Comparisons *)

Lemma Qltb_lt a b : Qltb a b = true <-> a < b.
Proof.
  unfold Qltb. rewrite negb_true_iff, <- not_true_iff_false, Qle_bool_iff.
  split; [apply Qnot_le_lt | apply Qlt_not_le].
Qed.

Lemma Qltb_ge a b : Qltb a b = false <-> b <= a.
Proof.
  unfold Qltb. rewrite negb_false_iff, Qle_bool_iff. reflexivity.
Qed.

Lemma Qgeb_le a b : Qgeb a b = true <-> b <= a.
Proof. unfold Qgeb. apply Qle_bool_iff. Qed.

Lemma Qgeb_lt a b : Qgeb a b = false <-> a < b.
Proof.
  unfold Qgeb. rewrite <- not_true_iff_false, Qle_bool_iff.
  split; [apply Qnot_le_lt | apply Qlt_not_le].
Qed.

Lemma Qle_bool_gt a b : Qle_bool a b = false <-> b < a.
Proof. apply (Qgeb_lt b a). Qed.

Lemma Qeq_bool_false a b : Qeq_bool a b = false <-> ~ a == b.
Proof.
  rewrite <- not_true_iff_false, Qeq_bool_iff. reflexivity.
Qed.

(** Case analysis on every comparison in sight, leaving its meaning as a
    hypothesis on rationals. *)
Ltac qsplit c l1 l2 :=
  let E := fresh "E" in
  destruct c eqn:E; rewrite ?E in *; [apply l1 in E | apply l2 in E].

Ltac qcase :=
  match goal with
  | |- context [Qgtb ?a ?b] => unfold Qgtb
  | H : context [Qgtb ?a ?b] |- _ => unfold Qgtb in H
  | |- context [Qltb ?a ?b] => qsplit (Qltb a b) Qltb_lt Qltb_ge
  | H : context [Qltb ?a ?b] |- _ => qsplit (Qltb a b) Qltb_lt Qltb_ge
  | |- context [Qgeb ?a ?b] => qsplit (Qgeb a b) Qgeb_le Qgeb_lt
  | H : context [Qgeb ?a ?b] |- _ => qsplit (Qgeb a b) Qgeb_le Qgeb_lt
  | |- context [Qle_bool ?a ?b] =>
      qsplit (Qle_bool a b) Qle_bool_iff Qle_bool_gt
  | H : context [Qle_bool ?a ?b] |- _ =>
      qsplit (Qle_bool a b) Qle_bool_iff Qle_bool_gt
  | |- context [Qeq_bool ?a ?b] =>
      qsplit (Qeq_bool a b) Qeq_bool_iff Qeq_bool_false
  | H : context [Qeq_bool ?a ?b] |- _ =>
      qsplit (Qeq_bool a b) Qeq_bool_iff Qeq_bool_false
  end.

Ltac qcases := repeat (qcase; cbv beta iota in * ).

Lemma Math_min_spec a b :
  (b < a /\ Math_min a b = b) \/ (a <= b /\ Math_min a b = a).
Proof. unfold Math_min. qcase; auto. Qed.

Lemma Math_max_spec a b :
  (a < b /\ Math_max a b = b) \/ (b <= a /\ Math_max a b = a).
Proof. unfold Math_max. qcase; auto. Qed.

Lemma clamp_bounds v lo hi : lo <= hi -> lo <= clamp v lo hi <= hi.
Proof.
  intros Hlh. unfold clamp, Math_max, Math_min. qcases; lra.
Qed.

Lemma clamp_id v lo hi : lo <= v <= hi -> clamp v lo hi == v.
Proof.
  intros Hv. unfold clamp, Math_max, Math_min. qcases; lra.
Qed.

Lemma intersectsAABB_true a b :
  intersectsAABB a b = true <->
  x a < x b + w b /\ x b < x a + w a /\ y a < y b + h b /\ y b < y a + h a.
Proof.
  unfold intersectsAABB, Qgtb.
  rewrite !andb_true_iff, !Qltb_lt. tauto.
Qed.

Lemma intersectsAABB_false a b :
  intersectsAABB a b = false <->
  x b + w b <= x a \/ x a + w a <= x b \/ y b + h b <= y a \/ y a + h a <= y b.
Proof.
  unfold intersectsAABB, Qgtb.
  rewrite !andb_false_iff, !Qltb_ge. tauto.
Qed.

(** ** Static collision resolution *)

Lemma resolveStaticCollision_size m s :
  w (resolveStaticCollision m s) = w m /\ h (resolveStaticCollision m s) = h m.
Proof.
  unfold resolveStaticCollision.
  destruct (intersectsAABB m s); simpl; [| auto].
  destruct (Qltb (overlapX m s) (overlapY m s)), (Qltb (x m) (x s)),
    (Qltb (y m) (y s)); simpl; auto.
Qed.

(** C8. On a mover and an obstacle that do not intersect (touching edges
    included), [resolveStaticCollision] returns the mover as it was: [x] and
    [y] are unchanged, so the call that follows a separating call changes
    nothing either. *)
Theorem resolveStaticCollision_separated_noop (m s : Rect) :
  intersectsAABB m s = false ->
  resolveStaticCollision m s = m /\
  x (resolveStaticCollision m s) = x m /\
  y (resolveStaticCollision m s) = y m /\
  resolveStaticCollision (resolveStaticCollision m s) s
    = resolveStaticCollision m s.
Proof.
  intros Hsep.
  assert (Hid : resolveStaticCollision m s = m).
  { unfold resolveStaticCollision. rewrite Hsep. reflexivity. }
  rewrite !Hid. auto.
Qed.

Lemma resolveStaticCollision_separated_noop_witness :
  let m := rect 0 0 10 10 in
  let s := rect 10 0 5 5 in
  intersectsAABB m s = false /\ resolveStaticCollision m s = m.
Proof.
  split; [reflexivity |].
  apply (resolveStaticCollision_separated_noop (rect 0 0 10 10) (rect 10 0 5 5)).
  reflexivity.
Defined.

(** Idempotence in its usual form: whenever one call separates the pair, a
    second call is the identity. *)
Lemma resolveStaticCollision_idempotent m s :
  intersectsAABB (resolveStaticCollision m s) s = false ->
  resolveStaticCollision (resolveStaticCollision m s) s
    = resolveStaticCollision m s.
Proof.
  intros Hsep. unfold resolveStaticCollision at 1. rewrite Hsep. reflexivity.
Qed.

Lemma overlap_positive_intersects m s :
  0 < overlapX m s -> 0 < overlapY m s -> intersectsAABB m s = true.
Proof.
  unfold overlapX, overlapY. intros Hx Hy. apply intersectsAABB_true.
  destruct (Math_min_spec (x m + w m) (x s + w s)) as [[? E1] | [? E1]],
    (Math_max_spec (x m) (x s)) as [[? E2] | [? E2]],
    (Math_min_spec (y m + h m) (y s + h s)) as [[? E3] | [? E3]],
    (Math_max_spec (y m) (y s)) as [[? E4] | [? E4]];
    rewrite E1, E2 in Hx; rewrite E3, E4 in Hy; lra.
Qed.

(** After the push: the two cases of the minimum and of the maximum behind
    the overlap on the axis of the intervals [a1, a2] and [b1, b2]. *)
Ltac along_axis a1 a2 b1 b2 :=
  unfold overlapX, overlapY in *;
  destruct (Math_min_spec a2 b2) as [[? ?E] | [? ?E]],
    (Math_max_spec a1 b1) as [[? ?E] | [? ?E]];
  repeat match goal with E : _ = _ |- _ => rewrite E in *; clear E end;
  split; intros; try split; intros; lra.

(** C9, as the code has it. When the overlap is strictly positive on both
    axes, one call moves the mover along exactly one axis ([x] when the
    horizontal overlap is the smaller, [y] otherwise) by exactly the overlap
    extent it computed on that axis, leaving its size alone. For rectangles
    with whole coordinates and sizes, where this arithmetic is exact in
    double precision, the two rectangles no longer intersect afterwards
    exactly when the overlap on that axis is partial (the mover neither
    straddles the obstacle nor lies within it). For other coordinates the
    rounded subtraction can leave the mover just inside the obstacle: see
    [DblFacts.resolveStaticCollision_rounding]. *)
Theorem resolveStaticCollision_overlapping (m s : Rect) :
  0 < overlapX m s -> 0 < overlapY m s ->
  let m' := resolveStaticCollision m s in
  w m' = w m /\ h m' = h m /\
  ((overlapX m s < overlapY m s /\ y m' = y m /\
    (x m' == x m - overlapX m s \/ x m' == x m + overlapX m s)) \/
   (overlapY m s <= overlapX m s /\ x m' = x m /\
    (y m' == y m - overlapY m s \/ y m' == y m + overlapY m s))) /\
  (wholeRect m -> wholeRect s ->
   (intersectsAABB m' s = false <-> pushedClear m s)).
Proof.
  intros Hx Hy m'.
  assert (Hgoal :
    w m' = w m /\ h m' = h m /\
    ((overlapX m s < overlapY m s /\ y m' = y m /\
      (x m' == x m - overlapX m s \/ x m' == x m + overlapX m s)) \/
     (overlapY m s <= overlapX m s /\ x m' = x m /\
      (y m' == y m - overlapY m s \/ y m' == y m + overlapY m s))) /\
    (intersectsAABB m' s = false <-> pushedClear m s));
    [| destruct Hgoal as (Hw & Hh & Haxis & Hclear); auto].
  pose proof (overlap_positive_intersects m s Hx Hy) as Hint.
  pose proof (resolveStaticCollision_size m s) as [Hw Hh].
  split; [exact Hw |]. split; [exact Hh |].
  subst m'. unfold resolveStaticCollision in *. rewrite Hint in *.
  cbv beta iota in *. simpl negb in *. cbv beta iota in *.
  apply intersectsAABB_true in Hint.
  rewrite intersectsAABB_false. unfold pushedClear, partialOverlap.
  destruct (Qltb (overlapX m s) (overlapY m s)) eqn:Eax;
    [apply Qltb_lt in Eax | apply Qltb_ge in Eax].
  - destruct (Qltb (x m) (x s)) eqn:Els;
      [apply Qltb_lt in Els | apply Qltb_ge in Els]; simpl.
    + split; [left; repeat split; auto; left; reflexivity |].
      along_axis (x m) (x m + w m) (x s) (x s + w s).
    + split; [left; repeat split; auto; right; reflexivity |].
      along_axis (x m) (x m + w m) (x s) (x s + w s).
  - destruct (Qltb (y m) (y s)) eqn:Els;
      [apply Qltb_lt in Els | apply Qltb_ge in Els]; simpl.
    + split; [right; repeat split; auto; left; reflexivity |].
      along_axis (y m) (y m + h m) (y s) (y s + h s).
    + split; [right; repeat split; auto; right; reflexivity |].
      along_axis (y m) (y m + h m) (y s) (y s + h s).
Qed.

Lemma resolveStaticCollision_overlapping_witness :
  let m := rect 0 0 10 10 in
  let s := rect 8 0 10 10 in
  0 < overlapX m s /\ 0 < overlapY m s /\ wholeRect m /\ wholeRect s /\
  (intersectsAABB (resolveStaticCollision m s) s = false <-> pushedClear m s).
Proof.
  assert (Hm : wholeRect (rect 0 0 10 10)).
  { exists 0%Z, 0%Z, 10%Z, 10%Z.
    repeat split; try reflexivity; vm_compute; discriminate. }
  assert (Hs : wholeRect (rect 8 0 10 10)).
  { exists 8%Z, 0%Z, 10%Z, 10%Z.
    repeat split; try reflexivity; vm_compute; discriminate. }
  split; [reflexivity |]. split; [reflexivity |].
  split; [exact Hm |]. split; [exact Hs |].
  destruct (resolveStaticCollision_overlapping (rect 0 0 10 10)
              (rect 8 0 10 10)) as (_ & _ & _ & Hclear);
    [reflexivity | reflexivity |].
  exact (Hclear Hm Hs).
Defined.

(** The dragon (34 x 24) astride the 18-pixel wall [rect(320, 160, 18, 260)]:
    the overlap is positive on both axes, the call shifts the dragon left by
    the 18 pixels of the wall, and the two rectangles still intersect. *)
Lemma resolveStaticCollision_astride_still_intersects :
  let m := rect 312 200 34 24 in
  let s := rect 320 160 18 260 in
  0 < overlapX m s /\ 0 < overlapY m s /\
  intersectsAABB m s = true /\
  resolveStaticCollision m s = rect (312 - 18) 200 34 24 /\
  intersectsAABB (resolveStaticCollision m s) s = true.
Proof. repeat split. Qed.

(** ** Segment against rectangle *)

Lemma div_nonzero a b : ~ b == 0 -> div a b = Some (a / b).
Proof.
  intros Hb. unfold div. apply Qeq_bool_false in Hb. rewrite Hb. reflexivity.
Qed.

Lemma div_is_Some a b v : div a b = Some v -> ~ b == 0 /\ v = a / b.
Proof.
  unfold div. destruct (Qeq_bool b 0) eqn:E; [discriminate |].
  intros [= <-]. apply Qeq_bool_false in E. auto.
Qed.

Lemma le_div_pos p q t : 0 < p -> (p * t <= q <-> t <= q / p).
Proof.
  intros Hp. assert (E : q / p * p == q) by (field; lra).
  split; intros Hle; nra.
Qed.

Lemma le_div_neg p q t : p < 0 -> (p * t <= q <-> q / p <= t).
Proof.
  intros Hp. assert (E : q / p * p == q) by (field; lra).
  split; intros Hle; nra.
Qed.

(** A zero coefficient costs no division: the step only looks at the sign
    of [q]. *)
Lemma clipStep_zero p q t :
  p == 0 ->
  clipStep p q t = Some (if Qltb q 0 then None else Some t).
Proof.
  intros Hp. unfold clipStep. destruct t as [t0 t1].
  apply Qeq_bool_iff in Hp. rewrite Hp. destruct (Qltb q 0); reflexivity.
Qed.

(** The step never divides by zero. *)
Lemma clipStep_total p q t : exists o, clipStep p q t = Some o.
Proof.
  unfold clipStep. destruct t as [t0 t1].
  destruct (Qeq_bool p 0) eqn:Ep.
  - destruct (Qltb q 0); eauto.
  - apply Qeq_bool_false in Ep. rewrite (div_nonzero q p Ep). simpl.
    destruct (Qltb p 0), (Qgtb (q / p) t1), (Qltb (q / p) t0); eauto.
Qed.

Lemma feasible_cons p q pq t0 t1 :
  feasible ((p, q) :: pq) t0 t1 <->
  exists t, t0 <= t <= t1 /\ p * t <= q /\ Forall (fun c => fst c * t <= snd c) pq.
Proof.
  unfold feasible. split; intros (t & Ht & Hall); exists t.
  - inversion Hall; subst. auto.
  - destruct Hall. split; [assumption |]. constructor; assumption.
Qed.

(** The clipping loop decides feasibility of its constraints on the range it
    is given, and always produces a boolean. *)
Lemma clipLoop_spec pq : forall t0 t1,
  t0 <= t1 ->
  exists b, clipLoop pq (t0, t1) = Some b /\ (b = true <-> feasible pq t0 t1).
Proof.
  induction pq as [| [p q] pq IH]; intros t0 t1 Hle.
  - exists true. split; [reflexivity |]. split; [| reflexivity].
    intros _. exists t0. split; [lra | constructor].
  - simpl. unfold clipStep.
    destruct (Qeq_bool p 0) eqn:Ep.
    + apply Qeq_bool_iff in Ep.
      destruct (Qltb q 0) eqn:Eq0;
        [apply Qltb_lt in Eq0 | apply Qltb_ge in Eq0].
      * exists false. split; [reflexivity |]. split; [discriminate |].
        rewrite feasible_cons. intros (t & _ & Hc & _). exfalso. nra.
      * destruct (IH t0 t1 Hle) as (b & Hb & Hspec).
        exists b. split; [exact Hb |]. rewrite Hspec, feasible_cons.
        unfold feasible. split; intros (t & Ht & Hrest); exists t.
        -- split; [assumption |]. split; [nra | assumption].
        -- destruct Hrest. auto.
    + apply Qeq_bool_false in Ep. rewrite (div_nonzero q p Ep). simpl.
      destruct (Qltb p 0) eqn:Eneg;
        [apply Qltb_lt in Eneg | apply Qltb_ge in Eneg].
      * unfold Qgtb.
        destruct (Qltb t1 (q / p)) eqn:E1;
          [apply Qltb_lt in E1 | apply Qltb_ge in E1].
        { exists false. split; [reflexivity |]. split; [discriminate |].
          rewrite feasible_cons. intros (t & Ht & Hc & _).
          apply le_div_neg in Hc; [| assumption]. exfalso. lra. }
        destruct (Qltb t0 (q / p)) eqn:E0;
          [apply Qltb_lt in E0 | apply Qltb_ge in E0].
        -- destruct (IH (q / p) t1 E1) as (b & Hb & Hspec).
           exists b. split; [exact Hb |]. rewrite Hspec, feasible_cons.
           unfold feasible. split; intros (t & Ht & Hrest); exists t.
           ++ split; [lra |]. split; [| assumption].
              apply le_div_neg; [assumption | lra].
           ++ destruct Hrest as [Hc Hrest].
              apply le_div_neg in Hc; [| assumption].
              split; [lra | assumption].
        -- destruct (IH t0 t1 Hle) as (b & Hb & Hspec).
           exists b. split; [exact Hb |]. rewrite Hspec, feasible_cons.
           unfold feasible. split; intros (t & Ht & Hrest); exists t.
           ++ split; [lra |]. split; [| assumption].
              apply le_div_neg; [assumption | lra].
           ++ destruct Hrest as [Hc Hrest]. split; [lra | assumption].
      * assert (Hpos : 0 < p).
        { destruct (Qlt_le_dec 0 p) as [Hlt | Hge]; [exact Hlt |].
          exfalso. apply Ep. lra. }
        destruct (Qltb (q / p) t0) eqn:E0;
          [apply Qltb_lt in E0 | apply Qltb_ge in E0].
        { exists false. split; [reflexivity |]. split; [discriminate |].
          rewrite feasible_cons. intros (t & Ht & Hc & _).
          apply le_div_pos in Hc; [| assumption]. exfalso. lra. }
        destruct (Qltb (q / p) t1) eqn:E1;
          [apply Qltb_lt in E1 | apply Qltb_ge in E1].
        -- destruct (IH t0 (q / p) E0) as (b & Hb & Hspec).
           exists b. split; [exact Hb |]. rewrite Hspec, feasible_cons.
           unfold feasible. split; intros (t & Ht & Hrest); exists t.
           ++ split; [lra |]. split; [| assumption].
              apply le_div_pos; [assumption | lra].
           ++ destruct Hrest as [Hc Hrest].
              apply le_div_pos in Hc; [| assumption].
              split; [lra | assumption].
        -- destruct (IH t0 t1 Hle) as (b & Hb & Hspec).
           exists b. split; [exact Hb |]. rewrite Hspec, feasible_cons.
           unfold feasible. split; intros (t & Ht & Hrest); exists t.
           ++ split; [lra |]. split; [| assumption].
              apply le_div_pos; [assumption | lra].
           ++ destruct Hrest as [Hc Hrest]. split; [lra | assumption].
Qed.

Lemma segmentIntersectsRect_spec x1 y1 x2 y2 r :
  exists b,
    segmentIntersectsRect x1 y1 x2 y2 r = Some b /\
    (b = true <->
     pointInRect x1 y1 r = true \/ pointInRect x2 y2 r = true \/
     feasible (constraints x1 y1 x2 y2 r) 0 1).
Proof.
  unfold segmentIntersectsRect.
  destruct (pointInRect x1 y1 r) eqn:E1; simpl.
  { exists true. split; [reflexivity |]. tauto. }
  destruct (pointInRect x2 y2 r) eqn:E2; simpl.
  { exists true. split; [reflexivity |]. tauto. }
  destruct (clipLoop_spec (constraints x1 y1 x2 y2 r) 0 1) as (b & Hb & Hspec);
    [lra |].
  exists b. split; [exact Hb |]. rewrite Hspec.
  split; [tauto |]. intros [? | [? | ?]]; [discriminate | discriminate | assumption].
Qed.

Lemma Forall4 {A} (P : A -> Prop) a b c d :
  Forall P [a; b; c; d] <-> P a /\ P b /\ P c /\ P d.
Proof.
  split.
  - intros HF. repeat (inversion HF as [| ? ? ? HF']; subst; clear HF; rename HF' into HF; split; [assumption |]).
    inversion HF; subst; assumption.
  - intros (Ha & Hb & Hc & Hd). repeat constructor; assumption.
Qed.

Lemma feasible_swap_half x1 y1 x2 y2 r :
  feasible (constraints x1 y1 x2 y2 r) 0 1 ->
  feasible (constraints x2 y2 x1 y1 r) 0 1.
Proof.
  unfold feasible, constraints. simpl zip.
  intros (t & Ht & Hall). exists (1 - t). split; [lra |].
  apply Forall4 in Hall. apply Forall4. simpl in *.
  destruct Hall as (H1 & H2 & H3 & H4). repeat split; lra.
Qed.

Lemma feasible_swap x1 y1 x2 y2 r :
  feasible (constraints x1 y1 x2 y2 r) 0 1 <->
  feasible (constraints x2 y2 x1 y1 r) 0 1.
Proof. split; apply feasible_swap_half. Qed.

(** The segment test does not depend on the order of the end points. *)
Lemma segmentIntersectsRect_sym x1 y1 x2 y2 r :
  segmentIntersectsRect x1 y1 x2 y2 r = segmentIntersectsRect x2 y2 x1 y1 r.
Proof.
  destruct (segmentIntersectsRect_spec x1 y1 x2 y2 r) as (b & Hb & Hspec).
  destruct (segmentIntersectsRect_spec x2 y2 x1 y1 r) as (b' & Hb' & Hspec').
  rewrite Hb, Hb'. f_equal.
  rewrite (feasible_swap x2 y2 x1 y1 r) in Hspec'.
  apply eq_true_iff_eq. rewrite Hspec, Hspec'. tauto.
Qed.

Lemma losAgainst_sym ws ax ay bx by_ :
  losAgainst ws ax ay bx by_ = losAgainst ws bx by_ ax ay.
Proof.
  induction ws as [| wl ws IH]; simpl; [reflexivity |].
  rewrite (segmentIntersectsRect_sym ax ay bx by_ wl), IH. reflexivity.
Qed.

Lemma losAgainst_total ws ax ay bx by_ :
  exists b, losAgainst ws ax ay bx by_ = Some b.
Proof.
  induction ws as [| wl ws IH]; simpl; [eauto |].
  destruct (segmentIntersectsRect_spec ax ay bx by_ wl) as (b & Hb & _).
  rewrite Hb. simpl. destruct b; eauto.
Qed.

Lemma hasLineOfSight_total W H ax ay bx by_ :
  exists b, hasLineOfSight W H ax ay bx by_ = Some b.
Proof. unfold hasLineOfSight. apply losAgainst_total. Qed.

(** With exact arithmetic, [hasLineOfSight(a, b)] and
    [hasLineOfSight(b, a)] return the same boolean for all end points and
    the wall list of any arena. The doubles of the program round the
    clipping quotients of the two directions differently: see
    [DblFacts.hasLineOfSight_not_symmetric]. *)
Lemma hasLineOfSight_symmetric (W H ax ay bx by_ : Q) :
  hasLineOfSight W H ax ay bx by_ = hasLineOfSight W H bx by_ ax ay /\
  exists b, hasLineOfSight W H ax ay bx by_ = Some b.
Proof.
  split.
  - unfold hasLineOfSight.
    induction (walls W H) as [| wl ws IH]; simpl; [reflexivity |].
    rewrite (segmentIntersectsRect_sym ax ay bx by_ wl), IH. reflexivity.
  - apply hasLineOfSight_total.
Qed.

(** ** Degenerate geometry *)

Lemma pointInRect_true px py r :
  pointInRect px py r = true <->
  x r <= px /\ px <= x r + w r /\ y r <= py /\ py <= y r + h r.
Proof.
  unfold pointInRect. rewrite !andb_true_iff, !Qgeb_le, !Qle_bool_iff. tauto.
Qed.

Lemma segment_zero_length px py r :
  segmentIntersectsRect px py px py r = Some (pointInRect px py r).
Proof.
  destruct (segmentIntersectsRect_spec px py px py r) as (b & Hb & Hspec).
  rewrite Hb. f_equal. apply eq_true_iff_eq. rewrite Hspec.
  split; [| tauto].
  intros [? | [? | Hf]]; try assumption.
  destruct Hf as (t & Ht & Hall). unfold constraints in Hall. simpl zip in Hall.
  apply Forall4 in Hall. simpl in Hall. destruct Hall as (H1 & H2 & H3 & H4).
  apply pointInRect_true. repeat split; lra.
Qed.

Lemma norm_total M a b : exists v, norm M a b = Some v /\
  vx_ v = a / (if Qeq_bool (hypot M a b) 0 then 1 else hypot M a b) /\
  vy_ v = b / (if Qeq_bool (hypot M a b) 0 then 1 else hypot M a b).
Proof.
  unfold norm.
  set (l := if Qeq_bool (hypot M a b) 0 then 1 else hypot M a b).
  assert (Hl : ~ l == 0).
  { subst l. destruct (Qeq_bool (hypot M a b) 0) eqn:E.
    - intros Habs. discriminate Habs.
    - apply Qeq_bool_false in E. exact E. }
  rewrite !(div_nonzero _ l Hl). simpl. eexists. split; [reflexivity |]. auto.
Qed.

(** C7. The clipping step divides only by a non-zero coefficient: on a zero
    coefficient it rejects exactly when [q] is negative; the segment test
    returns a boolean on every input, and on a zero-length segment that
    boolean says whether the point lies in the rectangle. [norm] always
    returns a vector, [norm(0, 0)] is the zero vector, and a velocity built
    from it displaces nothing. *)
Theorem degenerate_geometry_total (M : MathLib) :
  (forall p q t, p == 0 ->
     clipStep p q t = Some (if Qltb q 0 then None else Some t)) /\
  (forall p q t, exists o, clipStep p q t = Some o) /\
  (forall x1 y1 x2 y2 r, exists b, segmentIntersectsRect x1 y1 x2 y2 r = Some b) /\
  (forall px py r,
     segmentIntersectsRect px py px py r = Some (pointInRect px py r)) /\
  (forall a b, exists v, norm M a b = Some v) /\
  (exists v, norm M 0 0 = Some v /\ vx_ v == 0 /\ vy_ v == 0 /\
     forall px speed dt, px + vx_ v * speed * dt == px /\
                         px + vy_ v * speed * dt == px).
Proof.
  split; [apply clipStep_zero |].
  split; [apply clipStep_total |].
  split.
  { intros. destruct (segmentIntersectsRect_spec x1 y1 x2 y2 r) as (b & Hb & _).
    eauto. }
  split; [apply segment_zero_length |].
  split.
  { intros a b. destruct (norm_total M a b) as (v & Hv & _). eauto. }
  destruct (norm_total M 0 0) as (v & Hv & Hx & Hy).
  exists v. split; [exact Hv |].
  assert (Hx0 : vx_ v == 0) by (rewrite Hx; unfold Qdiv; ring).
  assert (Hy0 : vy_ v == 0) by (rewrite Hy; unfold Qdiv; ring).
  split; [exact Hx0 |]. split; [exact Hy0 |].
  intros px speed dt. rewrite Hx0, Hy0. split; ring.
Qed.

(** ** Entity motion *)

Lemma fold_resolve_size ws : forall e,
  w (fold_left resolveStaticCollision ws e) = w e /\
  h (fold_left resolveStaticCollision ws e) = h e.
Proof.
  induction ws as [| wl ws IH]; intros e; simpl; [auto |].
  destruct (IH (resolveStaticCollision e wl)) as [Hw Hh].
  destruct (resolveStaticCollision_size e wl) as [Hw' Hh'].
  rewrite Hw, Hh. auto.
Qed.

(** The rectangle [moveEntity] returns, in terms of the rectangle [e2] left
    by the wall loop. *)
Lemma moveEntity_shape W H e vx vy dt :
  exists e2,
    w e2 = w e /\ h e2 = h e /\
    moveEntity W H e vx vy dt
    = rect (clamp (x e2) 0 (W - w e2)) (clamp (y e2) 0 (H - h e2)) (w e2) (h e2).
Proof.
  unfold moveEntity.
  pose proof (fold_resolve_size (walls W H)
                (rect (x e + vx * dt) (y e + vy * dt) (w e) (h e))) as Hsz.
  revert Hsz.
  generalize (fold_left resolveStaticCollision (walls W H)
                (rect (x e + vx * dt) (y e + vy * dt) (w e) (h e))).
  intros e2 [Hw Hh]. exists e2. simpl in Hw, Hh. auto.
Qed.

Lemma moveEntity_size W H e vx vy dt :
  w (moveEntity W H e vx vy dt) = w e /\ h (moveEntity W H e vx vy dt) = h e.
Proof.
  destruct (moveEntity_shape W H e vx vy dt) as (e2 & Hw & Hh & ->).
  simpl. auto.
Qed.

Lemma moveEntity_inside W H e vx vy dt :
  w e <= W -> h e <= H -> insideArena W H (moveEntity W H e vx vy dt).
Proof.
  intros HW HH. unfold insideArena.
  destruct (moveEntity_shape W H e vx vy dt) as (e2 & Hw & Hh & ->).
  simpl. rewrite Hw, Hh.
  pose proof (clamp_bounds (x e2) 0 (W - w e)) as Hx.
  pose proof (clamp_bounds (y e2) 0 (H - h e)) as Hy.
  lra.
Qed.

(** C4. For an entity that fits in the arena, whatever the velocity and the
    time step, the rectangle [moveEntity] leaves satisfies [0 <= x],
    [x + w <= W], [0 <= y] and [y + h <= H], its size unchanged; hence after
    any sequence of motion updates the rectangle is inside the arena (after
    at least one update, or from the start if it began inside). *)
Theorem moveEntity_within_arena (W H : Q) (e : Rect) :
  w e <= W -> h e <= H ->
  (forall vx vy dt,
     let e' := moveEntity W H e vx vy dt in
     0 <= x e' /\ x e' + w e' <= W /\ 0 <= y e' /\ y e' + h e' <= H /\
     w e' = w e /\ h e' = h e) /\
  (forall moves,
     moves <> [] \/ insideArena W H e ->
     insideArena W H (moveAll W H e moves)).
Proof.
  intros HW HH. split.
  - intros vx vy dt e'. subst e'.
    destruct (moveEntity_inside W H e vx vy dt HW HH) as (H1 & H2 & H3 & H4).
    destruct (moveEntity_size W H e vx vy dt) as [Hw Hh].
    repeat split; assumption.
  - intros moves. revert e HW HH.
    induction moves as [| [[vx vy] dt] moves IH]; intros e HW HH Hstart.
    + simpl. destruct Hstart as [Hne | Hin]; [congruence | exact Hin].
    + unfold moveAll. cbn [fold_left fst snd]. apply IH.
      * destruct (moveEntity_size W H e vx vy dt) as [Hw _]. rewrite Hw. exact HW.
      * destruct (moveEntity_size W H e vx vy dt) as [_ Hh]. rewrite Hh. exact HH.
      * right. apply moveEntity_inside; assumption.
Qed.

Lemma moveEntity_within_arena_witness :
  let e := body player0 in
  (w e <= 900 /\ h e <= 560) /\
  insideArena 900 560 (moveAll 900 560 e [(210, 0, 33 # 1000); (0, -210, 33 # 1000)]).
Proof.
  split; [split; unfold Qle; simpl; lia |].
  assert (HW : w (body player0) <= 900) by (unfold Qle; simpl; lia).
  assert (HH : h (body player0) <= 560) by (unfold Qle; simpl; lia).
  destruct (moveEntity_within_arena 900 560 (body player0) HW HH) as [_ Hseq].
  apply Hseq. left. discriminate.
Defined.

(** ** The shield *)

Lemma shieldIsUp_true now s :
  shieldIsUp now s = true <->
  active s = true /\ brokenUntil s <= now /\ 0 < durability s.
Proof.
  unfold shieldIsUp, Qgtb. destruct (active s); simpl.
  - destruct (Qltb now (brokenUntil s)) eqn:E.
    + apply Qltb_lt in E. split; [discriminate |]. intros (_ & Hle & _). lra.
    + apply Qltb_ge in E. rewrite Qltb_lt. tauto.
  - split; [discriminate |]. intros (Habs & _). discriminate.
Qed.

(** While the break cooldown runs the shield is down, whatever the key. *)
Lemma shieldIsUp_broken now s :
  now < brokenUntil s -> shieldIsUp now s = false.
Proof.
  intros Hlt. apply not_true_iff_false. rewrite shieldIsUp_true.
  intros (_ & Hle & _). lra.
Qed.

Lemma regenShield_idle dt now s :
  now < brokenUntil s \/ shieldIsUp now s = true -> regenShield dt now s = s.
Proof.
  intros Hcase. unfold regenShield.
  destruct Hcase as [Hlt | Hup].
  - apply Qgeb_lt in Hlt. rewrite Hlt. reflexivity.
  - rewrite Hup. rewrite andb_false_r. reflexivity.
Qed.

(** The shield [updatePlayer] leaves: the key sets the flag, then the
    regeneration statement runs; motion and stamina do not touch it. *)
Lemma updatePlayer_shield M W H ks dt now p :
  exists p',
    updatePlayer M W H ks dt now p = Some p' /\
    shield p' = regenShield dt now (with_active (shield p) (has ks " ")).
Proof.
  unfold updatePlayer.
  set (dx := if has ks "arrowright" || has ks "d" then _ else _).
  set (dy := if has ks "arrowdown" || has ks "s" then _ else _).
  destruct (negb (Qeq_bool dx 0) || negb (Qeq_bool dy 0)) eqn:Emov.
  - destruct (norm_total M dx dy) as (n & Hn & _). rewrite Hn. cbn [mbind option_bind].
    eexists. split; [reflexivity |].
    destruct (true && (has ks "shift" && _)); reflexivity.
  - eexists. split; [reflexivity |]. reflexivity.
Qed.

Lemma updatePlayer_idle M W H ks dt now p :
  now < brokenUntil (shield p) \/
  shieldIsUp now (with_active (shield p) (has ks " ")) = true ->
  exists p',
    updatePlayer M W H ks dt now p = Some p' /\
    durability (shield p') = durability (shield p) /\
    brokenUntil (shield p') = brokenUntil (shield p).
Proof.
  intros Hcase.
  destruct (updatePlayer_shield M W H ks dt now p) as (p' & Hp' & Hsh).
  exists p'. split; [exact Hp' |]. rewrite Hsh, regenShield_idle.
  - split; reflexivity.
  - exact Hcase.
Qed.

Lemma playerTicks_cooldown M W H inputs : forall p,
  Forall (fun i => snd i < brokenUntil (shield p)) inputs ->
  exists p',
    playerTicks M W H inputs p = Some p' /\
    durability (shield p') = durability (shield p) /\
    brokenUntil (shield p') = brokenUntil (shield p).
Proof.
  induction inputs as [| [[ks' dt'] now'] inputs IH]; intros p Hall.
  - exists p. simpl. auto.
  - inversion Hall as [| ? ? Hhd Htl]; subst. simpl in Hhd.
    destruct (updatePlayer_idle M W H ks' dt' now' p (or_introl Hhd))
      as (p1 & Hp1 & Hd1 & Hb1).
    simpl. rewrite Hp1. cbn [mbind option_bind].
    destruct (IH p1) as (p2 & Hp2 & Hd2 & Hb2).
    { rewrite Hb1. exact Htl. }
    exists p2. split; [exact Hp2 |]. rewrite Hd2, Hb2. auto.
Qed.

(** C10. [updatePlayer] leaves the shield durability (and the cooldown
    deadline) as they were whenever the clock is before [brokenUntil] or the
    shield is up with the key state of this tick: regeneration runs only at
    or after [brokenUntil] with the shield down.  Hence over any run of
    ticks inside the break-cooldown window the durability keeps the value
    the break left. *)
Theorem updatePlayer_no_regen (M : MathLib) (W H : Q) (ks : gset string)
        (dt now : Q) (p : Player) :
  now < brokenUntil (shield p) \/
  shieldIsUp now (with_active (shield p) (has ks " ")) = true ->
  (exists p',
     updatePlayer M W H ks dt now p = Some p' /\
     durability (shield p') = durability (shield p) /\
     brokenUntil (shield p') = brokenUntil (shield p)) /\
  (forall inputs,
     Forall (fun i => snd i < brokenUntil (shield p)) inputs ->
     exists p',
       playerTicks M W H inputs p = Some p' /\
       durability (shield p') = durability (shield p) /\
       brokenUntil (shield p') = brokenUntil (shield p)).
Proof.
  intros Hcase. split.
  - apply updatePlayer_idle. exact Hcase.
  - intros inputs. apply playerTicks_cooldown.
Qed.

Lemma updatePlayer_no_regen_witness :
  let p := with_shield player0 (mkShield false 0 100 26 14 5000 2400) in
  3000 < brokenUntil (shield p) /\
  exists p',
    updatePlayer sampleMath 900 560 ∅ (33 # 1000) 3000 p = Some p' /\
    durability (shield p') = durability (shield p) /\
    brokenUntil (shield p') = brokenUntil (shield p).
Proof.
  split; [reflexivity |].
  apply (updatePlayer_no_regen sampleMath 900 560 ∅ (33 # 1000) 3000
           (with_shield player0 (mkShield false 0 100 26 14 5000 2400))).
  left. reflexivity.
Defined.

(** One absorbed hit: the durability drops by [hitCost], clamped; nothing
    else in the game changes but the cooldown deadline. *)
Lemma flameHit_up now g :
  shieldIsUp now (shield (player g)) = true ->
  let s := shield (player g) in
  let s' := shield (player (flameHit now g)) in
  durability s' = clamp (durability s - hitCost s) 0 (shield_max s) /\
  hitCost s' = hitCost s /\ shield_max s' = shield_max s /\
  breakCooldownMs s' = breakCooldownMs s /\ active s' = active s /\
  brokenUntil s' =
    (if Qle_bool (durability s') (1 # 1000)
     then now + breakCooldownMs s else brokenUntil s) /\
  state (flameHit now g) = state g /\ status (flameHit now g) = status g.
Proof.
  intros Hup. unfold flameHit. rewrite Hup. cbv zeta.
  destruct (Qle_bool (durability (with_durability (shield (player g)) _)) _)
    eqn:E; simpl in *; rewrite E; repeat split; reflexivity.
Qed.

(** An unshielded hit ends the round. *)
Lemma flameHit_down now g :
  shieldIsUp now (shield (player g)) = false ->
  flameHit now g = with_state g lost "burned (press R)".
Proof. intros Hdown. unfold flameHit. rewrite Hdown. reflexivity. Qed.

Lemma applyHits_snoc nows t g :
  applyHits (nows ++ [t]) g = flameHit t (applyHits nows g).
Proof. unfold applyHits. rewrite fold_left_app. reflexivity. Qed.

Lemma raisedForAll_snoc nows t : forall g,
  raisedForAll (nows ++ [t]) g <->
  raisedForAll nows g /\ shieldIsUp t (shield (player (applyHits nows g))) = true.
Proof.
  induction nows as [| now nows IH]; intros g; simpl.
  - tauto.
  - rewrite IH. unfold applyHits. simpl. tauto.
Qed.

(** One more absorbed hit on a shield that is still up, in the closed form
    of the durability. *)
Lemma clamp_step d0 n c M d :
  0 <= d0 <= M -> 0 <= n -> 0 < d ->
  d == clamp (Math_max 0 (d0 - n * c)) 0 M ->
  clamp (d - c) 0 M == clamp (Math_max 0 (d0 - (n + 1) * c)) 0 M.
Proof.
  intros Hd0 Hn Hd Hdur. revert Hdur. unfold clamp, Math_max, Math_min.
  intros Hdur.
  assert (Hsign : 0 <= c \/ c < 0) by (destruct (Qlt_le_dec c 0); auto).
  destruct Hsign as [Hc | Hc].
  - assert (0 <= n * c) by nra. qcases; lra.
  - assert (n * c <= 0) by nra. qcases; lra.
Qed.

Lemma inject_nat_nonneg n : 0 <= inject_Z (Z.of_nat n).
Proof.
  change 0 with (inject_Z 0). rewrite <- Zle_Qle. apply Nat2Z.is_nonneg.
Qed.

(** The state of the shield after a run of absorbed hits. *)
Lemma applyHits_durability nows : forall g,
  let s := shield (player g) in
  0 <= durability s <= shield_max s ->
  raisedForAll nows g ->
  let s' := shield (player (applyHits nows g)) in
  durability s' ==
    clamp (Math_max 0 (durability s
                       - inject_Z (Z.of_nat (length nows)) * hitCost s))
          0 (shield_max s) /\
  0 <= durability s' <= shield_max s /\
  hitCost s' = hitCost s /\ shield_max s' = shield_max s /\
  breakCooldownMs s' = breakCooldownMs s /\
  state (applyHits nows g) = state g /\ status (applyHits nows g) = status g.
Proof.
  induction nows as [| t nows IH] using rev_ind; intros g s Hd Hraised s'.
  - subst s s'. simpl. unfold clamp, Math_max, Math_min.
    change (inject_Z (Z.of_nat 0)) with 0.
    split; [qcases; lra |]. repeat split; try reflexivity; lra.
  - apply raisedForAll_snoc in Hraised. destruct Hraised as [Hpre Hup].
    specialize (IH g Hd Hpre). cbv zeta in IH.
    destruct IH as (Hdur & Hrange & Hcost & Hmax & Hcool & Hst & Hmsg).
    subst s'. rewrite applyHits_snoc.
    pose proof (flameHit_up t (applyHits nows g) Hup) as Hhit. cbv zeta in Hhit.
    destruct Hhit as (Hd' & Hc' & Hm' & Hb' & _ & _ & Hst' & Hmsg').
    apply shieldIsUp_true in Hup. destruct Hup as (_ & _ & Hpos).
    rewrite Hd', Hc', Hm', Hb', Hst', Hmsg', Hcost, Hmax, Hcool, Hst, Hmsg.
    fold s. fold s in Hdur, Hrange, Hcost, Hmax.
    rewrite length_app, Nat2Z.inj_add, inject_Z_plus. simpl length.
    change (inject_Z (Z.of_nat 1)) with 1.
    pose proof (inject_nat_nonneg (length nows)) as Hn.
    set (d := durability (shield (player (applyHits nows g)))) in *.
    set (n := inject_Z (Z.of_nat (length nows))) in *.
    split.
    + apply clamp_step; assumption.
    + assert (Hmax0 : 0 <= shield_max s) by lra.
      pose proof (clamp_bounds (d - hitCost s) 0 (shield_max s) Hmax0) as Hcl.
      repeat split; try reflexivity; lra.
Qed.

(** C2. Starting from a durability [d0] within [[0, max]], if the shield is
    raised at each of [N] flame hits and nothing regenerates it in between,
    the durability afterwards is [max(0, d0 - N * hitCost)] clamped to
    [[0, max]] (the clamp being idle for a hit cost that is not negative),
    and the round goes on.  When the last hit empties the shield the
    cooldown deadline is that hit's time plus [breakCooldownMs]; before
    [brokenUntil] [shieldIsUp] is false whatever the key, and it stays so,
    with the durability unchanged, through every player update of the
    cooldown window. *)
Theorem shield_conservation (M : MathLib) (W H : Q) (nows : list Q) (g : Game) :
  let s := shield (player g) in
  let N := inject_Z (Z.of_nat (length nows)) in
  0 <= durability s <= shield_max s ->
  raisedForAll nows g ->
  let g' := applyHits nows g in
  let s' := shield (player g') in
  durability s' ==
    clamp (Math_max 0 (durability s - N * hitCost s)) 0 (shield_max s) /\
  (0 <= hitCost s ->
   durability s' == Math_max 0 (durability s - N * hitCost s)) /\
  0 <= durability s' <= shield_max s /\
  state g' = state g /\
  (forall pre t, nows = pre ++ [t] -> durability s' <= 0 ->
     brokenUntil s' = t + breakCooldownMs s) /\
  (forall now' a, now' < brokenUntil s' ->
     shieldIsUp now' (with_active s' a) = false) /\
  (forall inputs,
     Forall (fun i => snd i < brokenUntil s') inputs ->
     exists p',
       playerTicks M W H inputs (player g') = Some p' /\
       durability (shield p') = durability s' /\
       forall now', now' < brokenUntil s' -> shieldIsUp now' (shield p') = false).
Proof.
  intros s N Hd Hraised g' s'.
  destruct (applyHits_durability nows g Hd Hraised)
    as (Hdur & Hrange & Hcost & Hmax & Hcool & Hst & _).
  fold s in Hdur, Hrange, Hcost, Hmax, Hcool. fold g' in Hdur, Hrange, Hst.
  fold s' in Hdur, Hrange. fold N in Hdur.
  split; [exact Hdur |].
  split.
  { intros Hc. rewrite Hdur.
    pose proof (inject_nat_nonneg (length nows)) as HN. fold N in HN.
    assert (HNc : 0 <= N * hitCost s) by nra.
    unfold clamp, Math_max, Math_min. qcases; lra. }
  split; [exact Hrange |]. split; [exact Hst |].
  split; [| split].
  - intros pre t -> Hzero.
    apply raisedForAll_snoc in Hraised. destruct Hraised as [Hpre Hup].
    destruct (applyHits_durability pre g Hd Hpre)
      as (_ & _ & _ & _ & Hcool' & _).
    pose proof (flameHit_up t (applyHits pre g) Hup) as Hhit. cbv zeta in Hhit.
    destruct Hhit as (_ & _ & _ & _ & _ & Hbroken & _).
    subst s' g'. rewrite applyHits_snoc in *. rewrite Hbroken.
    replace (Qle_bool _ (1 # 1000)) with true.
    + rewrite Hcool'. reflexivity.
    + symmetry. apply Qle_bool_iff. lra.
  - intros now' a Hlt. apply shieldIsUp_broken. exact Hlt.
  - intros inputs Hall.
    destruct (playerTicks_cooldown M W H inputs (player g') Hall)
      as (p' & Hp' & Hd' & Hb').
    exists p'. split; [exact Hp' |]. split; [exact Hd' |].
    intros now' Hlt. apply shieldIsUp_broken. rewrite Hb'. exact Hlt.
Qed.

Lemma shield_conservation_witness :
  let g := with_player (game0 sampleMath 900 560)
             (with_shield player0 (mkShield true 100 100 26 14 0 2400)) in
  let nows := [1000; 1033; 1066; 1100] in
  raisedForAll nows g /\
  durability (shield (player (applyHits nows g))) == 0 /\
  brokenUntil (shield (player (applyHits nows g))) = 1100 + 2400.
Proof.
  set (g := with_player (game0 sampleMath 900 560)
              (with_shield player0 (mkShield true 100 100 26 14 0 2400))).
  set (nows := [1000; 1033; 1066; 1100]).
  assert (Hraised : raisedForAll nows g) by (vm_compute; tauto).
  assert (Hd : 0 <= durability (shield (player g)) <= shield_max (shield (player g)))
    by (split; vm_compute; discriminate).
  destruct (shield_conservation sampleMath 900 560 nows g Hd Hraised)
    as (Hdur & _ & _ & _ & Hbroken & _).
  split; [exact Hraised |]. split.
  - rewrite Hdur. reflexivity.
  - apply (Hbroken [1000; 1033; 1066] 1100); [reflexivity |].
    rewrite Hdur. vm_compute. discriminate.
Defined.

(** ** Contact with the dragon *)

Lemma pickWanderLoop_sameRound M W H n now : forall g,
  sameRound g (pickWanderLoop M W H n now g).
Proof.
  induction n as [| n IH]; intros g; cbn [pickWanderLoop].
  - repeat split.
  - destruct (forallb _ (walls W H)).
    + repeat split.
    + destruct (IH (with_rng g (S (S (rng g))))) as (Hp & Hs & Hm & He).
      repeat split; assumption.
Qed.

Lemma pickWanderTarget_sameRound M W H now g :
  sameRound g (pickWanderTarget M W H now g).
Proof. unfold pickWanderTarget. apply pickWanderLoop_sameRound. Qed.

Lemma sameRound_refl g : sameRound g g.
Proof. repeat split. Qed.

Lemma sameRound_trans g1 g2 g3 :
  sameRound g1 g2 -> sameRound g2 g3 -> sameRound g1 g3.
Proof.
  intros (Hp & Hs & Hm & He) (Hp' & Hs' & Hm' & He').
  repeat split; congruence.
Qed.

Lemma with_monster_sameRound g m : sameRound g (with_monster g m).
Proof. repeat split. Qed.

Lemma emitConeFlames_sameRound M fx fy dx dy now g :
  sameRound g (emitConeFlames M fx fy dx dy now g).
Proof. repeat split. Qed.

(** The dragon's move always yields a game, and touches neither the player
    nor the outcome of the round. *)
Lemma monsterAct_sameRound M W H dt now g :
  exists g', monsterAct M W H dt now g = Some g' /\ sameRound g g'.
Proof.
  unfold monsterAct.
  destruct (hasLineOfSight_total W H
              (x (mbody (monster g)) + w (mbody (monster g)) / 2)
              (y (mbody (monster g)) + h (mbody (monster g)) / 2)
              (x (body (player g)) + w (body (player g)) / 2)
              (y (body (player g)) + h (body (player g)) / 2)) as [sees Hsees].
  cbv zeta. rewrite Hsees. cbn [mbind option_bind]. destruct sees.
  - match goal with |- context [norm M ?a ?b] =>
      destruct (norm_total M a b) as (toP & HtoP & _); rewrite HtoP end.
    cbn [mbind option_bind].
    match goal with |- context [if Qltb now ?u then _ else _] =>
      destruct (Qltb now u) end;
      (eexists; split; [reflexivity |]).
    + eapply sameRound_trans;
        [apply with_monster_sameRound | apply emitConeFlames_sameRound].
    + apply with_monster_sameRound.
  - pose proof (pickWanderTarget_sameRound M W H now g) as Hpick.
    assert (H1 : sameRound g (if Qgtb now (wander_until (wander (monster g)))
                              then pickWanderTarget M W H now g else g)).
    { destruct (Qgtb now _); [exact Hpick | apply sameRound_refl]. }
    revert H1.
    generalize (if Qgtb now (wander_until (wander (monster g)))
                then pickWanderTarget M W H now g else g).
    intros g1 H1.
    match goal with |- context [norm M ?a ?b] =>
      destruct (norm_total M a b) as (v & Hv & _); rewrite Hv end.
    cbn [mbind option_bind].
    eexists; split; [reflexivity |].
    eapply sameRound_trans; [exact H1 | apply with_monster_sameRound].
Qed.

Lemma afterFlames_refl g : afterFlames g g.
Proof. unfold afterFlames. tauto. Qed.

Lemma afterFlames_trans g1 g2 g3 :
  afterFlames g1 g2 -> afterFlames g2 g3 -> afterFlames g1 g3.
Proof.
  unfold afterFlames.
  intros (He & Hb & Hm & Hl & Hs & Hc) (He' & Hb' & Hm' & Hl' & Hs' & Hc').
  repeat split; try congruence.
  - intros Hlost. auto.
  - destruct Hs' as [E | E]; [| right; exact E].
    destruct Hs as [E0 | E0]; [left; congruence | right; auto].
  - destruct Hc' as [E | [E El]]; [| right; auto].
    destruct Hc as [E0 | [E0 El0]]; [left; congruence |].
    right. split; [congruence | auto].
Qed.

Lemma flameHit_afterFlames now g : afterFlames g (flameHit now g).
Proof.
  unfold flameHit, afterFlames.
  destruct (shieldIsUp now (shield (player g))).
  - cbv zeta. destruct (Qle_bool _ (1 # 1000)); simpl; tauto.
  - simpl. tauto.
Qed.

Lemma flameStep_cases W H dt now f g :
  fst (flameStep W H dt now f g) = g \/
  fst (flameStep W H dt now f g) = flameHit now g.
Proof.
  unfold flameStep. cbv zeta.
  destruct (Qgtb _ _); [left; reflexivity |].
  destruct (existsb _ (walls W H)); [left; reflexivity |].
  destruct (pointInRect _ _ _ || intersectsAABB _ _);
    [right | left]; reflexivity.
Qed.

Lemma with_flames_afterFlames g fs : afterFlames g (with_flames g fs).
Proof. unfold afterFlames. simpl. tauto. Qed.

(** Whatever one hit and the rewriting of the particle list preserve, the
    projectile update preserves. *)
Lemma updateFlames_preserves (P : Game -> Prop) W H dt now g :
  P g ->
  (forall g', P g' -> P (flameHit now g')) ->
  (forall g' fs, P g' -> P (with_flames g' fs)) ->
  P (updateFlames W H dt now g).
Proof.
  intros Hg Hhit Hfl. unfold updateFlames.
  generalize (flames g) as fs. intros fs.
  assert (Hfold : P (fst (fold_right
               (fun f '(acc, kept) =>
                  match flameStep W H dt now f acc with
                  | (acc', Some f') => (acc', f' :: kept)
                  | (acc', None) => (acc', kept)
                  end) (g, []) fs))).
  { induction fs as [| f fs IH]; [exact Hg |].
    cbn [fold_right].
    destruct (fold_right _ (g, []) fs) as [acc kept]. cbn [fst] in IH.
    pose proof (flameStep_cases W H dt now f acc) as Hstep.
    destruct (flameStep W H dt now f acc) as [acc' [f' |]]; cbn [fst] in *;
      destruct Hstep as [-> | ->]; auto. }
  destruct (fold_right _ (g, []) fs) as [g' kept]. cbn [fst] in Hfold.
  apply Hfl. exact Hfold.
Qed.

(** The projectile update keeps the clock and the rectangles, never turns a
    lost round back, and can only replace the cause by the burn. *)
Lemma updateFlames_afterFlames W H dt now g :
  afterFlames g (updateFlames W H dt now g).
Proof.
  apply (updateFlames_preserves (afterFlames g)).
  - apply afterFlames_refl.
  - intros g' Hg'. eapply afterFlames_trans;
      [exact Hg' | apply flameHit_afterFlames].
  - intros g' fs Hg'. eapply afterFlames_trans;
      [exact Hg' | apply with_flames_afterFlames].
Qed.

Lemma contactCheck_touching g :
  intersectsAABB (body (player g)) (mbody (monster g)) = true ->
  contactCheck g = with_state g lost "mauled (press R)".
Proof. intros Hhit. unfold contactCheck. rewrite Hhit. reflexivity. Qed.

(** ** The shield across whole ticks *)

Lemma flameStep_reaches W H dt now f g :
  reachesPlayer W H dt now (body (player g)) f = true ->
  flameStep W H dt now f g = (flameHit now g, None).
Proof.
  unfold reachesPlayer, flameStep. cbv zeta. cbn [fl_x fl_y fl_r bornAt ttlMs].
  rewrite !andb_true_iff, !negb_true_iff. intros [[Hage Hwall] Hhit].
  rewrite Hage, Hwall.
  replace (pointInRect _ _ (rect _ _ _ _) || intersectsAABB _ (rect _ _ _ _))
    with true by (symmetry; exact Hhit).
  reflexivity.
Qed.

Lemma flameHit_body now g :
  body (player (flameHit now g)) = body (player g).
Proof. destruct (flameHit_afterFlames now g) as (_ & Hb & _). exact Hb. Qed.

Lemma applyHits_body nows : forall g,
  body (player (applyHits nows g)) = body (player g).
Proof.
  induction nows as [| t nows IH]; intros g; [reflexivity |].
  unfold applyHits in *. simpl. rewrite IH. apply flameHit_body.
Qed.

Lemma repeat_snoc {A} (a : A) n : repeat a (S n) = repeat a n ++ [a].
Proof. induction n as [| n IH]; simpl in *; [reflexivity | rewrite <- IH; reflexivity]. Qed.

(** When every particle of the list reaches the player in this update, the
    update is that many hits, nothing else, and the list ends empty. *)
Lemma updateFlames_hits W H dt now g :
  Forall (fun f => reachesPlayer W H dt now (body (player g)) f = true)
         (flames g) ->
  updateFlames W H dt now g
  = with_flames (applyHits (repeat now (length (flames g))) g) [].
Proof.
  unfold updateFlames. generalize (flames g) as fs. intros fs Hall.
  assert (Hfold :
    fold_right
      (fun f '(acc, kept) =>
         match flameStep W H dt now f acc with
         | (acc', Some f') => (acc', f' :: kept)
         | (acc', None) => (acc', kept)
         end) (g, []) fs
    = (applyHits (repeat now (length fs)) g, [])).
  { induction fs as [| f fs IH]; [reflexivity |].
    inversion Hall as [| ? ? Hf Hfs]; subst.
    cbn [fold_right length]. rewrite (IH Hfs).
    rewrite flameStep_reaches by (rewrite applyHits_body; exact Hf).
    rewrite repeat_snoc, applyHits_snoc. reflexivity. }
  rewrite Hfold. reflexivity.
Qed.

Lemma regenShield_range dt now s :
  shieldInRange s ->
  shieldInRange (regenShield dt now s) /\
  shield_max (regenShield dt now s) = shield_max s /\
  hitCost (regenShield dt now s) = hitCost s.
Proof.
  unfold shieldInRange, regenShield. intros Hs.
  destruct (Qgeb now (brokenUntil s) && negb (shieldIsUp now s));
    [| auto].
  cbn [durability shield_max hitCost with_durability].
  assert (Hmax : 0 <= shield_max s) by lra.
  pose proof (clamp_bounds (durability s + regenPerSec s * dt) 0 (shield_max s)
                Hmax).
  repeat split; try reflexivity; lra.
Qed.

Lemma flameHit_range now g :
  shieldInRange (shield (player g)) ->
  shieldInRange (shield (player (flameHit now g))) /\
  shield_max (shield (player (flameHit now g))) = shield_max (shield (player g)) /\
  hitCost (shield (player (flameHit now g))) = hitCost (shield (player g)).
Proof.
  unfold shieldInRange. intros Hs.
  destruct (shieldIsUp now (shield (player g))) eqn:Hup.
  - destruct (flameHit_up now g Hup) as (Hd & Hc & Hm & _). cbv zeta in *.
    rewrite Hd, Hc, Hm.
    assert (Hmax : 0 <= shield_max (shield (player g))) by lra.
    pose proof (clamp_bounds (durability (shield (player g)) -
                              hitCost (shield (player g))) 0
                             (shield_max (shield (player g))) Hmax).
    repeat split; try reflexivity; lra.
  - rewrite (flameHit_down now g Hup). cbn [player with_state]. auto.
Qed.

(** The durability is in [[0, max]] after [reset] and stays there over every
    tick; [max] and [hitCost] never change. *)
Lemma shield_range_invariant M W H ks ts g :
  (0 <= shield_max (shield (player g)) ->
   shieldInRange (shield (player (reset W H g)))) /\
  (shieldInRange (shield (player g)) ->
   exists g',
     tick M W H ks ts g = Some g' /\
     shieldInRange (shield (player g')) /\
     shield_max (shield (player g')) = shield_max (shield (player g)) /\
     hitCost (shield (player g')) = hitCost (shield (player g))).
Proof.
  split.
  { intros Hmax. unfold shieldInRange, reset. simpl. lra. }
  intros Hs.
  set (P := fun g' : Game =>
    shieldInRange (shield (player g')) /\
    shield_max (shield (player g')) = shield_max (shield (player g)) /\
    hitCost (shield (player g')) = hitCost (shield (player g))).
  change (exists g', tick M W H ks ts g = Some g' /\ P g').
  unfold tick. cbv zeta.
  change (state (with_clock g (frameStart ts g) ts (elapsed g))) with (state g).
  assert (Hidle : P (with_clock g (frameStart ts g) ts (elapsed g))).
  { unfold P. cbn [player with_clock]. auto. }
  destruct (state g);
    [| eexists; split; [reflexivity | exact Hidle]
     | eexists; split; [reflexivity | exact Hidle]].
  change (player (with_clock (with_clock g (frameStart ts g) ts (elapsed g))
                    (frameStart ts g) ts ((ts - frameStart ts g) / 1000)))
    with (player g).
  destruct (updatePlayer_shield M W H ks (frameDt ts g) ts (player g))
    as (p & Hp & Hsh).
  rewrite Hp. cbn [mbind option_bind].
  match goal with |- context [updateMonster M W H ?dt ?now ?g0] =>
    destruct (monsterAct_sameRound M W H dt now g0) as (gm & Hgm & (Hpl & _));
    unfold updateMonster; rewrite Hgm end.
  cbn [mbind option_bind].
  assert (Hgm_ok : P (contactCheck gm)).
  { assert (Hpc : player (contactCheck gm) = p).
    { unfold contactCheck. destruct (intersectsAABB _ _); exact Hpl. }
    unfold P. rewrite Hpc, Hsh.
    apply (regenShield_range (frameDt ts g) ts
             (with_active (shield (player g)) (has ks " "))).
    exact Hs. }
  pose proof (updateFlames_preserves P W H (frameDt ts g) ts (contactCheck gm)
                Hgm_ok) as Hfl.
  assert (Hafter : P (updateFlames W H (frameDt ts g) ts (contactCheck gm))).
  { apply Hfl.
    - intros g' (Hr & Hm & Hc).
      destruct (flameHit_range ts g' Hr) as (Hr' & Hm' & Hc').
      unfold P. rewrite Hm', Hc'. auto.
    - intros g' fs Hg'. exact Hg'. }
  destruct (Qgeb _ GOAL_SECONDS); eexists; (split; [reflexivity | exact Hafter]).
Qed.

(** ** Grid navigation *)

Module NavFacts.

Import Nav.
Local Open Scope Z_scope.

Lemma get_set_cases {A} (a : list A) (i k : Z) (v u : A) :
  get (set a i v) k = Some u -> (k = i /\ u = v) \/ get a k = Some u.
Proof.
  unfold get, set.
  destruct (k <? 0) eqn:Ek; [discriminate |].
  destruct (i <? 0) eqn:Ei; [auto |].
  apply Z.ltb_ge in Ek, Ei.
  intros Hl. apply list_lookup_insert_Some in Hl.
  destruct Hl as [(Heq & Hv & _) | (_ & Hl)]; [left | right; exact Hl].
  split; [lia | congruence].
Qed.

Lemma get_replicate {A} (n : nat) (v u : A) (i : Z) :
  get (replicate n v) i = Some u -> u = v.
Proof.
  unfold get. destruct (i <? 0); [discriminate |].
  intros Hl. apply lookup_replicate in Hl. destruct Hl as [-> _]. reflexivity.
Qed.

Section Facts.

Variables W H : Q.
Variable navBlocked : list Z.

Lemma inBounds_true c r :
  inBounds W H c r = true <->
  0 <= c < NAV_COLS W /\ 0 <= r < NAV_ROWS H.
Proof.
  unfold inBounds.
  rewrite !andb_true_iff, !Z.leb_le, !Z.ltb_lt. lia.
Qed.

Lemma isBlocked_free_inBounds c r :
  isBlocked W H navBlocked c r = false -> inBounds W H c r = true.
Proof.
  unfold isBlocked. destruct (inBounds W H c r); [reflexivity | discriminate].
Qed.

Lemma isBlocked_outside c r :
  inBounds W H c r = false -> isBlocked W H navBlocked c r = true.
Proof. intros Hout. unfold isBlocked. rewrite Hout. reflexivity. Qed.

(** Inside the grid the index determines the cell. *)
Lemma cellOf_navIdx c r :
  inBounds W H c r = true -> cellOf W (navIdx W c r) = (c, r).
Proof.
  rewrite inBounds_true. intros [Hc Hr]. unfold cellOf, navIdx.
  assert (Hdiv : (r * NAV_COLS W + c) / NAV_COLS W = r).
  { rewrite Z.div_add_l by lia. rewrite Z.div_small by lia. lia. }
  rewrite Hdiv. f_equal. lia.
Qed.

Lemma navIdx_nonneg c r :
  inBounds W H c r = true -> 0 <= navIdx W c r.
Proof. rewrite inBounds_true. unfold navIdx. nia. Qed.

Lemma dirs_unit d : d ∈ dirs -> Z.abs (fst d) + Z.abs (snd d) = 1.
Proof.
  unfold dirs. rewrite !elem_of_cons, elem_of_nil.
  intros [-> | [-> | [-> | [-> | []]]]]; reflexivity.
Qed.

(** Relaxing one neighbour keeps every recorded link sound. *)
Lemma relax_linked goal cur s d :
  d ∈ dirs ->
  linked W H navBlocked (cameFrom s) ->
  linked W H navBlocked (cameFrom (relax W H navBlocked goal cur s d)).
Proof.
  intros Hd Hs. unfold relax.
  destruct (cellOf W cur) as [cc cr] eqn:Ecell.
  destruct (negb (inBounds W H (cc + fst d) (cr + snd d))) eqn:Ein;
    [exact Hs |].
  destruct (isBlocked W H navBlocked (cc + fst d) (cr + snd d)) eqn:Ebl;
    [exact Hs |].
  destruct (default false (get (inClosed s) _)); [exact Hs |].
  destruct (lt_opt _ _); [| exact Hs].
  assert (Hnew : linked W H navBlocked
            (set (cameFrom s) (navIdx W (cc + fst d) (cr + snd d)) cur)).
  { intros i j Hget Hj.
    apply get_set_cases in Hget. destruct Hget as [[-> ->] | Hget].
    - exists d. rewrite Ecell. simpl fst. simpl snd.
      apply negb_false_iff in Ein. auto.
    - apply (Hs i j Hget Hj). }
  cbv zeta. destruct (negb (default false (get _ _))); exact Hnew.
Qed.

Lemma fold_relax_linked goal cur ds : forall s,
  (forall d, d ∈ ds -> d ∈ dirs) ->
  linked W H navBlocked (cameFrom s) ->
  linked W H navBlocked
    (cameFrom (fold_left (relax W H navBlocked goal cur) ds s)).
Proof.
  induction ds as [| d ds IH]; intros s Hds Hs; simpl; [exact Hs |].
  apply IH.
  - intros d' Hd'. apply Hds. right. exact Hd'.
  - apply relax_linked; [apply Hds; left | exact Hs].
Qed.

Lemma initSearch_linked start goal :
  linked W H navBlocked (cameFrom (initSearch W H start goal)).
Proof.
  intros i j Hget Hj. simpl in Hget. apply get_replicate in Hget. contradiction.
Qed.

Lemma stepwise_snoc l a b :
  stepwise (l ++ [a]) -> adjacent a b -> stepwise (l ++ [a; b]).
Proof.
  intros Hl Hab i u v Hu Hv.
  destruct (decide (S i < length (l ++ [a]))%nat) as [Hlt | Hge].
  - apply (Hl i u v).
    + replace (l ++ [a; b]) with ((l ++ [a]) ++ [b]) in Hu
        by (rewrite <- app_assoc; reflexivity).
      rewrite lookup_app_l in Hu by lia. exact Hu.
    + replace (l ++ [a; b]) with ((l ++ [a]) ++ [b]) in Hv
        by (rewrite <- app_assoc; reflexivity).
      rewrite lookup_app_l in Hv by lia. exact Hv.
  - rewrite length_app in Hge. simpl in Hge.
    assert (Hi : i = length l).
    { apply lookup_lt_Some in Hv. rewrite length_app in Hv. simpl in Hv. lia. }
    subst i.
    rewrite lookup_app_r in Hu by lia. rewrite Nat.sub_diag in Hu.
    rewrite lookup_app_r in Hv by lia.
    replace (S (length l) - length l)%nat with 1%nat in Hv by lia.
    simpl in Hu, Hv. congruence.
Qed.

Lemma stepwise_tail l : stepwise l -> stepwise (tail l).
Proof.
  intros Hl i u v Hu Hv. destruct l as [| c l]; [discriminate |].
  simpl in Hu, Hv. apply (Hl (S i) u v); assumption.
Qed.

(** Walking [cameFrom] back from [cur] yields the cells of a chain: each
    one 4-adjacent to the next, all but the first free, the last the cell of
    [cur]. *)
Lemma reconstruct_chain cF :
  linked W H navBlocked cF ->
  forall fuel cur acc p,
    cur <> -1 ->
    reconstruct W fuel cF cur acc = Some p ->
    exists pre,
      p = pre ++ cellOf W cur :: acc /\
      stepwise (pre ++ [cellOf W cur]) /\
      Forall (free W H navBlocked) (tail (pre ++ [cellOf W cur])).
Proof.
  intros Hlink. induction fuel as [| fuel IH]; intros cur acc p Hcur Hrec.
  - simpl in Hrec. destruct (cur =? -1) eqn:E; [lia | discriminate].
  - simpl in Hrec. destruct (cur =? -1) eqn:E; [lia |].
    destruct (get cF cur) as [prev |] eqn:Hget; [| discriminate].
    destruct (decide (prev = -1)) as [-> | Hprev].
    + destruct fuel; simpl in Hrec; injection Hrec as <-;
        (exists []; split; [reflexivity |]; split;
         [intros i u v Hu Hv; destruct i; discriminate | constructor]).
    + destruct (IH prev (cellOf W cur :: acc) p Hprev Hrec)
        as (pre & -> & Hstep & Hfree).
      destruct (Hlink cur prev Hget Hprev) as (d & Hd & Hin & Hbl & Hidx).
      assert (Hcell : cellOf W cur =
                (fst (cellOf W prev) + fst d, snd (cellOf W prev) + snd d)).
      { rewrite Hidx at 1. apply cellOf_navIdx. exact Hin. }
      exists (pre ++ [cellOf W prev]).
      split; [rewrite <- app_assoc; reflexivity |].
      rewrite <- app_assoc. simpl app. split.
      * apply stepwise_snoc; [exact Hstep |].
        rewrite Hcell. unfold adjacent. simpl.
        pose proof (dirs_unit d Hd). lia.
      * replace (pre ++ [cellOf W prev; cellOf W cur])
          with ((pre ++ [cellOf W prev]) ++ [cellOf W cur])
          by (rewrite <- app_assoc; reflexivity).
        destruct (pre ++ [cellOf W prev]) as [| c0 l] eqn:El.
        { destruct pre; discriminate. }
        simpl in *. apply Forall_app. split; [exact Hfree |].
        constructor; [| constructor].
        unfold free. rewrite Hcell. exact Hbl.
Qed.

(** Whatever the fuel, a path returned by the main loop is a chain that
    ends at the goal. *)
Lemma searchLoop_path goal :
  inBounds W H (fst goal) (snd goal) = true ->
  forall fuel s p,
    linked W H navBlocked (cameFrom s) ->
    searchLoop W H navBlocked fuel goal s = Some (Some p) ->
    exists pre,
      p = pre ++ [(fst goal, snd goal)] /\
      stepwise p /\ Forall (free W H navBlocked) (tail p).
Proof.
  intros Hgoal. induction fuel as [| fuel IH]; intros s p Hs Hrun;
    [discriminate |].
  cbn [searchLoop] in Hrun.
  destruct (openList s) as [| o rest] eqn:Eopen; [discriminate |].
  destruct ((o :: rest) !! bestIndex (fScore s) (o :: rest)) as [cur |];
    [| discriminate].
  destruct (cur =? navIdx W (fst goal) (snd goal)) eqn:Ecur.
  - apply Z.eqb_eq in Ecur. cbn [cameFrom] in Hrun.
    destruct (reconstruct W fuel (cameFrom s) cur []) as [q |] eqn:Hrec;
      [| discriminate].
    injection Hrun as <-.
    assert (Hne : cur <> -1).
    { pose proof (navIdx_nonneg _ _ Hgoal). lia. }
    destruct (reconstruct_chain (cameFrom s) Hs fuel cur [] q Hne Hrec)
      as (pre & -> & Hstep & Hfree).
    rewrite Ecur, (cellOf_navIdx _ _ Hgoal) in *.
    exists pre. auto.
  - refine (IH _ p _ Hrun).
    apply fold_relax_linked; [auto | exact Hs].
Qed.

(** The centre of a cell of the grid lies in that cell. *)
Lemma pointToCell_cellCenter c r :
  inBounds W H c r = true ->
  pointToCell W H (vx_ (cellCenter c r)) (vy_ (cellCenter c r))
  = mkTCell c r (cellKey c r).
Proof.
  rewrite inBounds_true. intros [Hc Hr].
  assert (Hfloor : forall n : Z,
    Qfloor ((inject_Z (n * NAV_CELL) + inject_Z NAV_CELL / 2)
            / inject_Z NAV_CELL) = n).
  { intros n.
    set (q := ((inject_Z (n * NAV_CELL) + inject_Z NAV_CELL / 2)
               / inject_Z NAV_CELL)%Q).
    assert (Hq : (q == inject_Z n + (1 # 2))%Q).
    { subst q. unfold NAV_CELL. rewrite inject_Z_mult. field. }
    clearbody q.
    pose proof (Qfloor_le q) as Hlo. pose proof (Qlt_floor q) as Hhi.
    assert (H1 : (inject_Z (Qfloor q) < inject_Z (n + 1))%Q).
    { rewrite inject_Z_plus. change (inject_Z 1) with 1%Q. lra. }
    assert (H2 : (inject_Z n < inject_Z (Qfloor q + 1))%Q) by lra.
    rewrite <- Zlt_Qlt in H1, H2. lia. }
  unfold pointToCell, cellCenter. cbn [vx_ vy_].
  rewrite !Hfloor. unfold clampZ.
  replace (Z.max 0 (Z.min (NAV_COLS W - 1) c)) with c by lia.
  replace (Z.max 0 (Z.min (NAV_ROWS H - 1) r)) with r by lia.
  reflexivity.
Qed.

(** A successful plan installs the centres of a chain of free cells that
    ends at the target cell. *)
Lemma planTo_valid fuel mc tc m m' :
  planTo W H navBlocked fuel mc tc m = Some (true, m') ->
  exists cells,
    path m' = map (λ p, cellCenter (fst p) (snd p)) cells /\
    cells <> [] /\
    Forall (free W H navBlocked) cells /\
    stepwise cells /\
    last cells = Some (col tc, row tc) /\
    pathIdx m' = 0 /\ lastTargetKey m' = Some (key tc) /\ base m' = base m.
Proof.
  unfold planTo.
  destruct (isBlocked W H navBlocked (col mc) (row mc)); [discriminate |].
  destruct (isBlocked W H navBlocked (col tc) (row tc)) eqn:Egoal;
    [discriminate |].
  cbv zeta. simpl orb. cbv iota.
  destruct (aStar W H navBlocked fuel (col mc, row mc) (col tc, row tc))
    as [[cells |] |] eqn:Hsearch; [| discriminate | discriminate].
  destruct (length cells <? 2)%nat eqn:Elen; [discriminate |].
  intros [= <-]. apply Nat.ltb_ge in Elen.
  unfold aStar in Hsearch.
  apply searchLoop_path in Hsearch;
    [| apply isBlocked_free_inBounds; exact Egoal | apply initSearch_linked].
  destruct Hsearch as (pre & Hcells & Hstep & Hfree).
  cbn [fst snd] in Hcells.
  exists (tail cells). cbn [path pathIdx lastTargetKey base].
  split; [reflexivity |].
  destruct cells as [| c0 [| c1 rest]]; simpl in Elen; try lia.
  split; [cbn [tail]; congruence |]. split; [exact Hfree |].
  split; [apply (stepwise_tail _ Hstep) |].
  split; [| auto].
  cbn [tail]. destruct pre as [| p0 pre]; simpl in Hcells; [congruence |].
  injection Hcells as _ Hrest. rewrite Hrest. apply last_snoc.
Qed.

(** *** Termination of the search *)

Lemma get_Some_range {A} (a : list A) i v :
  get a i = Some v -> 0 <= i < Z.of_nat (length a).
Proof.
  unfold get. destruct (i <? 0) eqn:E; [discriminate |].
  apply Z.ltb_ge in E. intros Hl. apply lookup_lt_Some in Hl. lia.
Qed.

Lemma get_in_range {A} (a : list A) i :
  0 <= i < Z.of_nat (length a) -> exists v, get a i = Some v.
Proof.
  intros Hi. unfold get. destruct (i <? 0) eqn:E; [apply Z.ltb_lt in E; lia |].
  destruct (lookup_lt_is_Some_2 a (Z.to_nat i)) as [v Hv]; [lia |]. eauto.
Qed.

Lemma get_set_eq {A} (a : list A) i v :
  0 <= i < Z.of_nat (length a) -> get (set a i v) i = Some v.
Proof.
  intros Hi. unfold get, set.
  destruct (i <? 0) eqn:E; [apply Z.ltb_lt in E; lia |].
  apply list_lookup_insert_eq. lia.
Qed.

Lemma get_set_ne {A} (a : list A) i k v :
  i <> k -> get (set a i v) k = get a k.
Proof.
  intros Hne. unfold get, set.
  destruct (k <? 0) eqn:Ek; [reflexivity |].
  destruct (i <? 0) eqn:Ei; [reflexivity |].
  apply Z.ltb_ge in Ek, Ei. apply list_lookup_insert_ne. lia.
Qed.

Lemma length_set {A} (a : list A) i v : length (set a i v) = length a.
Proof. unfold set. destruct (i <? 0); [reflexivity | apply length_insert]. Qed.

Lemma count_false_close (l : list bool) : forall i : nat,
  l !! i = Some false ->
  S (count_occ Bool.bool_dec (<[i:=true]> l) false)
  = count_occ Bool.bool_dec l false.
Proof.
  induction l as [| b l IH]; intros i Hi; [destruct i; discriminate |].
  destruct i as [| i].
  - simpl in Hi. injection Hi as ->. simpl.
    destruct (Bool.bool_dec true false); [discriminate |].
    destruct (Bool.bool_dec false false); [reflexivity | congruence].
  - simpl in Hi. cbn [insert list_insert]. simpl.
    destruct (Bool.bool_dec b false); rewrite <- (IH i Hi); reflexivity.
Qed.

Lemma count_false_replicate n :
  count_occ Bool.bool_dec (replicate n false) false = n.
Proof.
  induction n as [| n IH]; simpl; [reflexivity |].
  destruct (Bool.bool_dec false false); [rewrite IH; reflexivity | congruence].
Qed.

Lemma unclosed_close s cur :
  get (inClosed s) cur = Some false ->
  S (count_occ Bool.bool_dec (set (inClosed s) cur true) false) = unclosed s.
Proof.
  unfold get, set, unclosed. destruct (cur <? 0); [discriminate |].
  apply count_false_close.
Qed.

Lemma inBounds_idx_range c r :
  inBounds W H c r = true -> 0 <= navIdx W c r < Z.of_nat (slots W H).
Proof.
  rewrite inBounds_true. unfold navIdx, slots. intros [Hc Hr].
  rewrite Z2Nat.id by nia. nia.
Qed.

Lemma scanBest_lt fS open rest : forall i bestI,
  (bestI < i)%nat ->
  (scanBest fS open rest i bestI < i + length rest)%nat.
Proof.
  induction rest as [| o rest IH]; intros i bestI Hb; simpl; [lia |].
  destruct (lt_opt _ _).
  - specialize (IH (S i) i). lia.
  - specialize (IH (S i) bestI). lia.
Qed.

Lemma bestIndex_lt fS o rest :
  (bestIndex fS (o :: rest) < length (o :: rest))%nat.
Proof.
  unfold bestIndex. simpl.
  pose proof (scanBest_lt fS (o :: rest) rest 1 0). lia.
Qed.

(** Taking the best cell out of the open list and closing it. *)
Lemma pop_searching s bestI cur :
  searching W H s ->
  openList s !! bestI = Some cur ->
  let s1 := mkSearch (gScore s) (fScore s) (cameFrom s)
                     (set (inOpen s) cur false) (set (inClosed s) cur true)
                     (delete bestI (openList s)) in
  searching W H s1 /\
  get (inClosed s1) cur = Some true /\
  S (unclosed s1) = unclosed s.
Proof.
  intros [Hsz Hopen Hnd Hclosed Hlinks] Hcur s1.
  destruct Hsz as (Lc & Lo & Lg & Lf).
  assert (Hin : cur ∈ openList s) by (eapply list_elem_of_lookup_2; exact Hcur).
  destruct (Hopen cur Hin) as (Hc & Ho & g & Hg & Hgr).
  pose proof (get_Some_range _ _ _ Hc) as Hrange.
  pose proof (unclosed_close s cur Hc) as Hcount.
  assert (Hperm : NoDup (cur :: delete bestI (openList s))).
  { rewrite <- (delete_Permutation _ _ _ Hcur). exact Hnd. }
  apply NoDup_cons in Hperm. destruct Hperm as [Hfresh Hnd'].
  assert (HK : closedN W H s1 = closedN W H s + 1).
  { unfold closedN, unclosed in *. subst s1. cbn [inClosed]. lia. }
  split; [| split].
  - constructor.
    + subst s1. cbn [inClosed inOpen gScore cameFrom].
      rewrite !length_set. auto.
    + intros i Hi. rewrite HK. subst s1.
      cbn [openList inClosed inOpen gScore] in *.
      assert (Hne : cur <> i) by (intros ->; contradiction).
      rewrite !get_set_ne by exact Hne.
      apply list_elem_of_delete_inv in Hi.
      destruct (Hopen i Hi) as (Hc' & Ho' & g' & Hg' & Hgr').
      split; [exact Hc' |]. split; [exact Ho' |].
      exists g'. split; [exact Hg' |]. lia.
    + exact Hnd'.
    + intros i Hi. rewrite HK. subst s1. cbn [inClosed gScore] in *.
      destruct (decide (cur = i)) as [<- | Hne].
      * exists g. split; [exact Hg |]. lia.
      * rewrite get_set_ne in Hi by exact Hne.
        destruct (Hclosed i Hi) as (g' & Hg' & Hgr').
        exists g'. split; [exact Hg' |]. lia.
    + intros i j Hij Hj. subst s1. cbn [inClosed gScore cameFrom] in *.
      destruct (Hlinks i j Hij Hj) as (Hcj & Hsc). split; [| exact Hsc].
      destruct (decide (cur = j)) as [<- | Hne].
      * apply get_set_eq. exact Hrange.
      * rewrite get_set_ne by exact Hne. exact Hcj.
  - subst s1. cbn [inClosed]. apply get_set_eq. exact Hrange.
  - subst s1. unfold unclosed at 1. cbn [inClosed]. exact Hcount.
Qed.

(** Relaxing a neighbour of a closed cell keeps the invariant and closes
    nothing. *)
Lemma relax_searching goal cur s d :
  searching W H s ->
  get (inClosed s) cur = Some true ->
  searching W H (relax W H navBlocked goal cur s d) /\
  inClosed (relax W H navBlocked goal cur s d) = inClosed s.
Proof.
  intros Hs Hcur. unfold relax.
  destruct (cellOf W cur) as [cc cr].
  destruct (negb (inBounds W H (cc + fst d) (cr + snd d))) eqn:Ein; [auto |].
  apply negb_false_iff in Ein.
  destruct (isBlocked W H navBlocked (cc + fst d) (cr + snd d)); [auto |].
  set (ni := navIdx W (cc + fst d) (cr + snd d)).
  pose proof (inBounds_idx_range _ _ Ein) as Hni. fold ni in Hni.
  destruct Hs as [Hsz Hopen Hnd Hclosed Hlinks].
  destruct Hsz as (Lc & Lo & Lg & Lf).
  destruct (get_in_range (inClosed s) ni) as [b Hb]; [lia |].
  rewrite Hb. cbn [default from_option id].
  destruct b; [split; [constructor; auto | reflexivity] |].
  destruct (Hclosed cur Hcur) as (gc & Hgc & Hgcr).
  rewrite Hgc. cbn [fmap option_fmap option_map].
  destruct (lt_opt (Some (gc + 1)) (get (gScore s) ni));
    [| split; [constructor; auto | reflexivity]].
  cbv zeta. cbn [default from_option id inOpen gScore fScore cameFrom inClosed
                 openList].
  assert (Hne : ni <> cur) by (intros E; rewrite E in Hb; congruence).
  (* the parts of the invariant that do not look at the open list *)
  assert (Hclosed' : ∀ i, get (inClosed s) i = Some true →
            ∃ g, get (set (gScore s) ni (gc + 1)) i = Some g ∧
                 0 <= g < closedN W H s).
  { intros i Hi. rewrite get_set_ne by (intros E; rewrite E in Hb; congruence).
    apply Hclosed. exact Hi. }
  assert (Hlinks' : ∀ i j, get (set (cameFrom s) ni cur) i = Some j → j ≠ -1 →
            get (inClosed s) j = Some true ∧
            ∃ gi gj, get (set (gScore s) ni (gc + 1)) i = Some gi ∧
                     get (set (gScore s) ni (gc + 1)) j = Some gj ∧ gj < gi).
  { intros i j Hij Hj. destruct (decide (ni = i)) as [<- | Hi].
    - rewrite get_set_eq in Hij by lia. injection Hij as <-.
      split; [exact Hcur |]. exists (gc + 1), gc.
      rewrite get_set_eq by lia. rewrite get_set_ne by exact Hne.
      split; [reflexivity |]. split; [exact Hgc | lia].
    - rewrite get_set_ne in Hij by exact Hi.
      destruct (Hlinks i j Hij Hj) as (Hcj & gi & gj & Hgi & Hgj & Hlt).
      split; [exact Hcj |]. exists gi, gj.
      rewrite get_set_ne by exact Hi.
      rewrite get_set_ne by (intros E; rewrite E in Hb; congruence).
      auto. }
  assert (Hscore : ∀ i, i ∈ openList s ∨ i = ni →
            get (inClosed s) i = Some false →
            (get (inOpen s) i = Some true ∨ i = ni) →
            ∃ g, get (set (gScore s) ni (gc + 1)) i = Some g ∧
                 0 <= g <= closedN W H s).
  { intros i Hi _ _. destruct (decide (ni = i)) as [<- | Hni'].
    - exists (gc + 1). rewrite get_set_eq by lia. split; [reflexivity | lia].
    - rewrite get_set_ne by exact Hni'.
      destruct Hi as [Hi | ->]; [| congruence].
      destruct (Hopen i Hi) as (_ & _ & g & Hg & Hgr). eauto. }
  destruct (get_in_range (inOpen s) ni) as [o Ho]; [lia |].
  rewrite Ho. cbn [default from_option id negb].
  destruct o; cbn [negb]; (split; [| reflexivity]).
  - constructor; cbn [inOpen gScore fScore cameFrom inClosed openList].
    + rewrite !length_set. auto.
    + intros i Hi. destruct (Hopen i Hi) as (Hc' & Ho' & _).
      split; [exact Hc' |]. split; [exact Ho' |].
      apply Hscore; auto.
    + exact Hnd.
    + exact Hclosed'.
    + exact Hlinks'.
  - constructor; cbn [inOpen gScore fScore cameFrom inClosed openList].
    + rewrite !length_set. auto.
    + intros i Hi. apply elem_of_app in Hi.
      destruct Hi as [Hi | Hi].
      * destruct (Hopen i Hi) as (Hc' & Ho' & _).
        assert (Hne' : ni <> i) by (intros E; rewrite E in Ho; congruence).
        split; [exact Hc' |]. rewrite get_set_ne by exact Hne'.
        split; [exact Ho' |]. apply Hscore; auto.
      * apply list_elem_of_singleton in Hi. subst i.
        split; [exact Hb |]. rewrite get_set_eq by lia.
        split; [reflexivity |]. apply Hscore; auto.
    + apply NoDup_app. split; [exact Hnd |]. split; [| apply NoDup_singleton].
      intros i Hi Hin. apply list_elem_of_singleton in Hin. subst i.
      destruct (Hopen ni Hi) as (_ & Ho' & _). congruence.
    + exact Hclosed'.
    + exact Hlinks'.
Qed.

Lemma fold_relax_searching goal cur ds : forall s,
  searching W H s ->
  get (inClosed s) cur = Some true ->
  searching W H (fold_left (relax W H navBlocked goal cur) ds s) /\
  inClosed (fold_left (relax W H navBlocked goal cur) ds s) = inClosed s.
Proof.
  induction ds as [| d ds IH]; intros s Hs Hcur; simpl; [auto |].
  destruct (relax_searching goal cur s d Hs Hcur) as [Hs' Hc'].
  destruct (IH _ Hs') as [Hs'' Hc'']; [rewrite Hc'; exact Hcur |].
  split; [exact Hs'' | congruence].
Qed.

(** Under the invariant the walk back from a scored cell ends within as
    many steps as its score, plus one. *)
Lemma reconstruct_total s :
  searching W H s ->
  forall fuel cur g acc,
    get (gScore s) cur = Some g -> 0 <= g -> (Z.to_nat g < fuel)%nat ->
    exists p, reconstruct W fuel (cameFrom s) cur acc = Some p.
Proof.
  intros [Hsz Hopen Hnd Hclosed Hlinks]. destruct Hsz as (Lc & Lo & Lg & Lf).
  induction fuel as [| fuel IH]; intros cur g acc Hg Hpos Hfuel; [lia |].
  simpl. destruct (cur =? -1); [eauto |].
  pose proof (get_Some_range _ _ _ Hg) as Hrange.
  destruct (get_in_range (cameFrom s) cur) as [prev Hprev]; [lia |].
  rewrite Hprev. destruct (decide (prev = -1)) as [-> | Hne].
  - destruct fuel; simpl; eauto.
  - destruct (Hlinks cur prev Hprev Hne) as (Hcl & gi & gj & Hgi & Hgj & Hlt).
    destruct (Hclosed prev Hcl) as (gj' & Hgj' & Hgjr).
    assert (gi = g) by congruence. assert (gj' = gj) by congruence. subst.
    apply (IH prev gj); [exact Hgj | lia | lia].
Qed.

(** With more fuel than cells still to close plus cells in the grid, the
    main loop returns. *)
Lemma searchLoop_total goal : forall fuel s,
  searching W H s ->
  (unclosed s + slots W H < fuel)%nat ->
  exists r, searchLoop W H navBlocked fuel goal s = Some r.
Proof.
  induction fuel as [| fuel IH]; intros s Hs Hfuel; [lia |].
  cbn [searchLoop].
  destruct (openList s) as [| o rest] eqn:Eopen; [eauto |].
  destruct (lookup_lt_is_Some_2 (o :: rest) (bestIndex (fScore s) (o :: rest))
              (bestIndex_lt (fScore s) o rest)) as [cur Hcur].
  rewrite Hcur.
  assert (Hcur' : openList s !! bestIndex (fScore s) (o :: rest) = Some cur)
    by (rewrite Eopen; exact Hcur).
  destruct (pop_searching s _ cur Hs Hcur') as (Hs1 & Hclosed1 & Hcount).
  rewrite Eopen in Hs1, Hclosed1, Hcount.
  set (s1 := mkSearch (gScore s) (fScore s) (cameFrom s)
                      (set (inOpen s) cur false) (set (inClosed s) cur true)
                      (delete (bestIndex (fScore s) (o :: rest)) (o :: rest)))
    in *.
  destruct (cur =? navIdx W (fst goal) (snd goal)).
  - destruct (closed_ok _ _ _ Hs1 cur Hclosed1) as (g & Hg & Hgr).
    assert (Hsteps : (Z.to_nat g < fuel)%nat).
    { unfold closedN in Hgr. lia. }
    destruct (reconstruct_total s1 Hs1 fuel cur g [] Hg (proj1 Hgr) Hsteps)
      as [p Hp].
    rewrite Hp. eauto.
  - destruct (fold_relax_searching goal cur dirs s1 Hs1 Hclosed1)
      as [Hs2 Hc2].
    apply IH; [exact Hs2 |].
    unfold unclosed in *. rewrite Hc2. lia.
Qed.

Lemma initSearch_searching start goal :
  inBounds W H (fst start) (snd start) = true ->
  searching W H (initSearch W H start goal) /\
  unclosed (initSearch W H start goal) = slots W H.
Proof.
  intros Hstart. pose proof (inBounds_idx_range _ _ Hstart) as Hidx.
  unfold initSearch. fold (slots W H).
  set (si := navIdx W (fst start) (snd start)) in *.
  assert (Hcount : count_occ Bool.bool_dec (replicate (slots W H) false) false
                   = slots W H) by apply count_false_replicate.
  split; [| exact Hcount].
  constructor; cbn [inOpen gScore fScore cameFrom inClosed openList].
  - rewrite !length_set, !length_replicate. auto.
  - intros i Hi. apply list_elem_of_singleton in Hi. subst i.
    split; [| split].
    + unfold get. destruct (si <? 0) eqn:E; [apply Z.ltb_lt in E; lia |].
      apply lookup_replicate_2. lia.
    + apply get_set_eq. rewrite length_replicate. lia.
    + exists 0. split; [apply get_set_eq; rewrite length_replicate; lia |].
      unfold closedN, unclosed. cbn [inClosed]. lia.
  - apply NoDup_singleton.
  - intros i Hi. apply get_replicate in Hi. discriminate.
  - intros i j Hij Hj. apply get_replicate in Hij. contradiction.
Qed.

(** [aStar] returns, a path or [null], as soon as the fuel exceeds twice
    the number of cells. *)
Lemma aStar_total fuel start goal :
  inBounds W H (fst start) (snd start) = true ->
  (2 * slots W H < fuel)%nat ->
  exists r, aStar W H navBlocked fuel start goal = Some r.
Proof.
  intros Hstart Hfuel. unfold aStar.
  destruct (initSearch_searching start goal Hstart) as [Hs Hn].
  apply searchLoop_total; [exact Hs | lia].
Qed.

(** Every request gets its answer. *)
Lemma buildPathTo_total fuel targetX targetY m :
  (2 * slots W H < fuel)%nat ->
  exists r, buildPathTo W H navBlocked fuel targetX targetY m = Some r.
Proof.
  intros Hfuel. unfold buildPathTo, planTo. cbv zeta.
  set (tc := retarget W H navBlocked (pointToCell W H targetX targetY)).
  destruct (isBlocked W H navBlocked (col (monsterCell W H m))
                      (row (monsterCell W H m))) eqn:Estart; [simpl; eauto |].
  destruct (isBlocked W H navBlocked (col tc) (row tc)) eqn:Egoal;
    [simpl; eauto |].
  simpl orb. cbv iota.
  apply isBlocked_free_inBounds in Estart.
  match goal with |- context [aStar W H navBlocked fuel ?a ?b] =>
    destruct (aStar_total fuel a b Estart Hfuel) as [[cells |] Hr]; rewrite Hr
  end; [| eauto].
  destruct (length cells <? 2)%nat; eauto.
Qed.

(** C1. Whenever [buildPathTo] succeeds, the way points it installs are the
    centres of free cells of the grid (each centre lying in its own cell),
    consecutive way points come from 4-adjacent cells, and the cell of the
    last way point is the goal of the request: the cell of the target, or,
    when that cell is blocked, the free cell the ring search put in its
    place. *)
Theorem buildPathTo_path_valid (fuel : nat) (targetX targetY : Q)
        (m m' : NavMonster) :
  buildPathTo W H navBlocked fuel targetX targetY m = Some (true, m') ->
  let tc := pointToCell W H targetX targetY in
  let goal := retarget W H navBlocked tc in
  exists cells,
    path m' = map (λ p, cellCenter (fst p) (snd p)) cells /\
    cells <> [] /\
    Forall (λ p, isBlocked W H navBlocked (fst p) (snd p) = false /\
                 pointToCell W H (vx_ (cellCenter (fst p) (snd p)))
                                 (vy_ (cellCenter (fst p) (snd p)))
                 = mkTCell (fst p) (snd p) (cellKey (fst p) (snd p))) cells /\
    stepwise cells /\
    last cells = Some (col goal, row goal) /\
    (isBlocked W H navBlocked (col tc) (row tc) = false /\ goal = tc \/
     isBlocked W H navBlocked (col tc) (row tc) = true /\
     ringSearch W H navBlocked (col tc) (row tc) [1; 2; 3; 4]
     = Some (col goal, row goal)) /\
    pathIdx m' = 0 /\ lastTargetKey m' = Some (key goal).
Proof.
  intros Hok tc goal. unfold buildPathTo in Hok. fold tc in Hok. fold goal in Hok.
  pose proof Hok as Hplan.
  apply planTo_valid in Hplan.
  destruct Hplan as (cells & Hpath & Hne & Hfree & Hstep & Hlast & Hidx & Hkey & _).
  exists cells. split; [exact Hpath |]. split; [exact Hne |].
  split; [| split; [exact Hstep | split; [exact Hlast | split; [| auto]]]].
  - eapply Forall_impl; [exact Hfree |]. intros [c r] Hf. unfold free in Hf.
    split; [exact Hf |]. apply pointToCell_cellCenter.
    apply isBlocked_free_inBounds in Hf. exact Hf.
  - assert (Hgoalfree : isBlocked W H navBlocked (col goal) (row goal) = false).
    { unfold planTo in Hok.
      destruct (isBlocked W H navBlocked (col (monsterCell W H m))
                          (row (monsterCell W H m))); [discriminate |].
      destruct (isBlocked W H navBlocked (col goal) (row goal));
        [discriminate | reflexivity]. }
    subst goal. unfold retarget in *.
    destruct (isBlocked W H navBlocked (col tc) (row tc)) eqn:Etc;
      [right | left; auto].
    split; [reflexivity |].
    destruct (ringSearch W H navBlocked (col tc) (row tc) [1; 2; 3; 4])
      as [[c r] |]; [reflexivity |].
    congruence.
Qed.

(** *** The ring search *)

Lemma elem_of_ringOffsets rad dc dr :
  (dc, dr) ∈ ringOffsets rad <-> - rad <= dc <= rad /\ - rad <= dr <= rad.
Proof.
  unfold ringOffsets. rewrite list_elem_of_bind. split.
  - intros (dr' & Hin & Hdr). apply list_elem_of_bind in Hin.
    destruct Hin as (dc' & Hin & Hdc).
    apply list_elem_of_singleton in Hin. injection Hin as -> ->.
    apply elem_of_seqZ in Hdr, Hdc. lia.
  - intros [Hdc Hdr]. exists dr. split.
    + apply list_elem_of_bind. exists dc. split.
      * apply list_elem_of_singleton. reflexivity.
      * apply elem_of_seqZ. lia.
    + apply elem_of_seqZ. lia.
Qed.

Lemma ringFind_Some c0 r0 rad p :
  ringFind W H navBlocked c0 r0 rad = Some p ->
  isBlocked W H navBlocked (fst p) (snd p) = false /\ ringOf c0 r0 p <= rad.
Proof.
  unfold ringFind. intros Hfind. apply find_some in Hfind.
  destruct Hfind as [Hin Hok]. apply andb_true_iff in Hok.
  destruct Hok as [_ Hfree]. apply negb_true_iff in Hfree.
  split; [exact Hfree |].
  apply in_map_iff in Hin. destruct Hin as ([dc dr] & <- & Hin).
  apply list_elem_of_In, elem_of_ringOffsets in Hin.
  unfold ringOf. simpl. lia.
Qed.

Lemma ringFind_None c0 r0 rad p :
  ringFind W H navBlocked c0 r0 rad = None ->
  ringOf c0 r0 p <= rad ->
  isBlocked W H navBlocked (fst p) (snd p) = true.
Proof.
  unfold ringFind, ringOf. intros Hfind Hring.
  destruct (inBounds W H (fst p) (snd p)) eqn:Hin;
    [| apply isBlocked_outside; exact Hin].
  assert (Hmem : In p (map (λ d, (c0 + fst d, r0 + snd d)) (ringOffsets rad))).
  { apply in_map_iff. exists (fst p - c0, snd p - r0). split.
    - destruct p as [c r]. simpl. f_equal; lia.
    - apply list_elem_of_In, elem_of_ringOffsets. lia. }
  pose proof (find_none _ _ Hfind p Hmem) as Hno. simpl in Hno.
  rewrite Hin in Hno. simpl in Hno. apply negb_false_iff in Hno. exact Hno.
Qed.

(** Around a blocked cell: if everything nearer than ring [k] is blocked,
    a cell found on ring [k] is a nearest free cell. *)
Lemma ring_found c0 r0 k f :
  (forall p, ringOf c0 r0 p <= k - 1 ->
             isBlocked W H navBlocked (fst p) (snd p) = true) ->
  ringFind W H navBlocked c0 r0 k = Some f ->
  isBlocked W H navBlocked (fst f) (snd f) = false /\
  ringOf c0 r0 f = k /\
  forall p, isBlocked W H navBlocked (fst p) (snd p) = false ->
            ringOf c0 r0 f <= ringOf c0 r0 p.
Proof.
  intros Hnear Hfind. apply ringFind_Some in Hfind. destruct Hfind as [Hf Hk].
  assert (Hfar : forall p, isBlocked W H navBlocked (fst p) (snd p) = false ->
                           k <= ringOf c0 r0 p).
  { intros p Hp. destruct (Z_le_gt_dec k (ringOf c0 r0 p)) as [? | Hlt];
      [assumption |].
    rewrite Hnear in Hp by lia. discriminate. }
  pose proof (Hfar f Hf). split; [exact Hf |]. split; [lia |].
  intros p Hp. specialize (Hfar p Hp). lia.
Qed.

Lemma ring_empty c0 r0 k :
  (forall p, ringOf c0 r0 p <= k - 1 ->
             isBlocked W H navBlocked (fst p) (snd p) = true) ->
  ringFind W H navBlocked c0 r0 k = None ->
  forall p, ringOf c0 r0 p <= k ->
            isBlocked W H navBlocked (fst p) (snd p) = true.
Proof. intros _ Hfind p Hp. apply (ringFind_None c0 r0 k p Hfind Hp). Qed.

Lemma ring_zero c0 r0 :
  isBlocked W H navBlocked c0 r0 = true ->
  forall p, ringOf c0 r0 p <= 1 - 1 ->
            isBlocked W H navBlocked (fst p) (snd p) = true.
Proof.
  intros Hb [c r]. unfold ringOf. simpl. intros Hp.
  replace c with c0 by lia. replace r with r0 by lia. exact Hb.
Qed.

(** The result of the expanding ring search around a blocked cell: a
    nearest free cell, on a ring of radius 1 to 4, or nothing when the whole
    square of radius 4 is blocked. *)
Lemma ringSearch_spec c0 r0 :
  isBlocked W H navBlocked c0 r0 = true ->
  match ringSearch W H navBlocked c0 r0 [1; 2; 3; 4] with
  | Some f =>
      isBlocked W H navBlocked (fst f) (snd f) = false /\
      1 <= ringOf c0 r0 f <= 4 /\
      forall p, isBlocked W H navBlocked (fst p) (snd p) = false ->
                ringOf c0 r0 f <= ringOf c0 r0 p
  | None =>
      forall p, ringOf c0 r0 p <= 4 ->
                isBlocked W H navBlocked (fst p) (snd p) = true
  end.
Proof.
  intros Hb. pose proof (ring_zero c0 r0 Hb) as H0.
  cbn [ringSearch].
  destruct (ringFind W H navBlocked c0 r0 1) as [f |] eqn:E1.
  { destruct (ring_found c0 r0 1 f H0 E1) as (? & ? & ?).
    split; [assumption |]. split; [lia | assumption]. }
  pose proof (ring_empty c0 r0 1 H0 E1) as H1.
  destruct (ringFind W H navBlocked c0 r0 2) as [f |] eqn:E2.
  { destruct (ring_found c0 r0 2 f H1 E2) as (? & ? & ?).
    split; [assumption |]. split; [lia | assumption]. }
  pose proof (ring_empty c0 r0 2 H1 E2) as H2.
  destruct (ringFind W H navBlocked c0 r0 3) as [f |] eqn:E3.
  { destruct (ring_found c0 r0 3 f H2 E3) as (? & ? & ?).
    split; [assumption |]. split; [lia | assumption]. }
  pose proof (ring_empty c0 r0 3 H2 E3) as H3.
  destruct (ringFind W H navBlocked c0 r0 4) as [f |] eqn:E4.
  { destruct (ring_found c0 r0 4 f H3 E4) as (? & ? & ?).
    split; [assumption |]. split; [lia | assumption]. }
  exact (ring_empty c0 r0 4 H3 E4).
Qed.

(** A refused request leaves the monster as it was. *)
Lemma planTo_refused fuel mc tc m m' :
  planTo W H navBlocked fuel mc tc m = Some (false, m') -> m' = m.
Proof.
  unfold planTo. cbv zeta.
  destruct (isBlocked W H navBlocked (col mc) (row mc) || _);
    [intros [= <-]; reflexivity |].
  destruct (aStar W H navBlocked fuel _ _) as [[cells |] |];
    [| intros [= <-]; reflexivity | discriminate].
  destruct (length cells <? 2)%nat; [intros [= <-]; reflexivity | discriminate].
Qed.

Lemma planTo_blocked fuel mc tc m :
  isBlocked W H navBlocked (col mc) (row mc) = true \/
  isBlocked W H navBlocked (col tc) (row tc) = true ->
  planTo W H navBlocked fuel mc tc m = Some (false, m).
Proof.
  intros Hb. unfold planTo. cbv zeta.
  replace (isBlocked W H navBlocked (col mc) (row mc)
           || isBlocked W H navBlocked (col tc) (row tc)) with true;
    [reflexivity |].
  symmetry. apply orb_true_iff. exact Hb.
Qed.

(** C6. When the cell of the target is blocked, [buildPathTo] looks through
    the rings of radius 1 to 4 around it: a cell it finds is free, lies on
    one of these rings, no free cell lies on a nearer ring, and the request
    goes on as a request for that cell; when it finds none, every cell of
    the square of radius 4 is blocked and the request returns [false]
    without searching; the same when the monster's own cell is blocked.  A
    request that returns [false] leaves the monster, its path included, as
    it was; and every request returns its boolean once the search is given
    more steps than twice the number of cells. *)
Theorem buildPathTo_blocked_target (fuel : nat) (targetX targetY : Q)
        (m : NavMonster) :
  let tc := pointToCell W H targetX targetY in
  isBlocked W H navBlocked (col tc) (row tc) = true ->
  (forall f,
     ringSearch W H navBlocked (col tc) (row tc) [1; 2; 3; 4] = Some f ->
     isBlocked W H navBlocked (fst f) (snd f) = false /\
     1 <= ringOf (col tc) (row tc) f <= 4 /\
     (forall p, isBlocked W H navBlocked (fst p) (snd p) = false ->
                ringOf (col tc) (row tc) f <= ringOf (col tc) (row tc) p) /\
     buildPathTo W H navBlocked fuel targetX targetY m
     = planTo W H navBlocked fuel (monsterCell W H m)
              (mkTCell (fst f) (snd f) (cellKey (fst f) (snd f))) m) /\
  (ringSearch W H navBlocked (col tc) (row tc) [1; 2; 3; 4] = None ->
     (forall p, ringOf (col tc) (row tc) p <= 4 ->
                isBlocked W H navBlocked (fst p) (snd p) = true) /\
     buildPathTo W H navBlocked fuel targetX targetY m = Some (false, m)) /\
  (isBlocked W H navBlocked (col (monsterCell W H m)) (row (monsterCell W H m))
   = true ->
   buildPathTo W H navBlocked fuel targetX targetY m = Some (false, m)) /\
  (forall m',
     buildPathTo W H navBlocked fuel targetX targetY m = Some (false, m') ->
     m' = m) /\
  ((2 * slots W H < fuel)%nat ->
   exists r, buildPathTo W H navBlocked fuel targetX targetY m = Some r).
Proof.
  intros tc Hb.
  pose proof (ringSearch_spec (col tc) (row tc) Hb) as Hring.
  pose proof (buildPathTo_total fuel targetX targetY m) as Htotal.
  unfold buildPathTo in *. fold tc in Htotal |- *. unfold retarget in *.
  rewrite Hb in *.
  split; [| split; [| split; [| split; [| exact Htotal]]]].
  - intros [c r] Hf. rewrite Hf in *. destruct Hring as (H1 & H2 & H3).
    repeat split; try assumption; lia.
  - intros Hnone. rewrite Hnone in *. split; [exact Hring |].
    apply planTo_blocked. right. exact Hb.
  - intros Hstart. apply planTo_blocked. left. exact Hstart.
  - intros m'. apply planTo_refused.
Qed.

End Facts.

Lemma buildPathTo_path_valid_witness :
  exists m',
    buildPathTo 110 110 sampleGrid 100 55 55 sampleNavMonster = Some (true, m') /\
    exists cells,
      path m' = map (λ p, cellCenter (fst p) (snd p)) cells /\
      cells <> [] /\ stepwise cells /\ last cells = Some (2, 2).
Proof.
  eexists. split; [vm_compute; reflexivity |].
  edestruct (buildPathTo_path_valid 110 110 sampleGrid 100 55 55 sampleNavMonster)
    as (cells & Hpath & Hne & _ & Hstep & Hlast & _);
    [vm_compute; reflexivity |].
  exists cells. split; [exact Hpath |]. split; [exact Hne |].
  split; [exact Hstep |]. exact Hlast.
Defined.

Lemma buildPathTo_blocked_target_witness :
  isBlocked 110 110 sampleGrid (col (pointToCell 110 110 30 30))
            (row (pointToCell 110 110 30 30)) = true /\
  forall f,
    ringSearch 110 110 sampleGrid (col (pointToCell 110 110 30 30))
               (row (pointToCell 110 110 30 30)) [1; 2; 3; 4] = Some f ->
    isBlocked 110 110 sampleGrid (fst f) (snd f) = false.
Proof.
  assert (Hb : isBlocked 110 110 sampleGrid (col (pointToCell 110 110 30 30))
                 (row (pointToCell 110 110 30 30)) = true)
    by (vm_compute; reflexivity).
  split; [exact Hb |]. intros f Hf.
  destruct (buildPathTo_blocked_target 110 110 sampleGrid 100 30 30
              sampleNavMonster Hb) as [Hfound _].
  destruct (Hfound f Hf) as [Hfree _]. exact Hfree.
Defined.

End NavFacts.

(** * Further properties of the code *)

(** ** Geometry *)

(** X3. The intersection test and the overlap extents. The test is symmetric
    in its two rectangles, and for rectangles of positive size it holds
    exactly when both extents computed by [resolveStaticCollision] are
    positive. *)
Theorem intersectsAABB_overlap (a b : Rect) :
  0 < w a -> 0 < h a -> 0 < w b -> 0 < h b ->
  intersectsAABB a b = intersectsAABB b a /\
  (intersectsAABB a b = true <-> 0 < overlapX a b /\ 0 < overlapY a b).
Proof.
  intros Hwa Hha Hwb Hhb. split.
  - apply eq_true_iff_eq. rewrite !intersectsAABB_true. tauto.
  - split; [| intros [Hx Hy]; apply overlap_positive_intersects; assumption].
    rewrite intersectsAABB_true. intros (H1 & H2 & H3 & H4).
    unfold overlapX, overlapY.
    destruct (Math_min_spec (x a + w a) (x b + w b)) as [[? ->] | [? ->]],
      (Math_max_spec (x a) (x b)) as [[? ->] | [? ->]],
      (Math_min_spec (y a + h a) (y b + h b)) as [[? ->] | [? ->]],
      (Math_max_spec (y a) (y b)) as [[? ->] | [? ->]]; split; lra.
Qed.

Lemma intersectsAABB_overlap_witness :
  let a := rect 0 0 10 10 in
  let b := rect 8 4 10 10 in
  (0 < w a /\ 0 < h a /\ 0 < w b /\ 0 < h b) /\
  intersectsAABB a b = intersectsAABB b a.
Proof.
  split; [repeat split |].
  destruct (intersectsAABB_overlap (rect 0 0 10 10) (rect 8 4 10 10))
    as [Hsym _]; [reflexivity | reflexivity | reflexivity | reflexivity |].
  exact Hsym.
Defined.

(** ** Motion in free space *)

Lemma fold_resolve_clear ws : forall e,
  Forall (fun wl => intersectsAABB e wl = false) ws ->
  fold_left resolveStaticCollision ws e = e.
Proof.
  induction ws as [| wl ws IH]; intros e Hclear; [reflexivity |].
  inversion Hclear as [| ? ? Hwl Hws]; subst. cbn [fold_left].
  assert (Hid : resolveStaticCollision e wl = e).
  { unfold resolveStaticCollision. rewrite Hwl. reflexivity. }
  rewrite Hid. apply IH. exact Hws.
Qed.

(** X4. Away from the walls and inside the arena [moveEntity] is plain
    integration. When the rectangle displaced by [v * dt] meets no wall and
    lies inside the arena, it is the rectangle the entity ends on. *)
Theorem moveEntity_free (W H : Q) (e : Rect) (vx vy dt : Q) :
  let e1 := rect (x e + vx * dt) (y e + vy * dt) (w e) (h e) in
  Forall (fun wl => intersectsAABB e1 wl = false) (walls W H) ->
  insideArena W H e1 ->
  let e' := moveEntity W H e vx vy dt in
  x e' == x e + vx * dt /\ y e' == y e + vy * dt /\
  w e' = w e /\ h e' = h e.
Proof.
  intros e1 Hclear Hin e'. subst e'. unfold moveEntity.
  fold e1. rewrite (fold_resolve_clear (walls W H) e1 Hclear).
  unfold insideArena in Hin. subst e1. cbn [x y w h set_x set_y] in *.
  split; [apply clamp_id; lra |]. split; [apply clamp_id; lra |].
  split; reflexivity.
Qed.

Lemma moveEntity_free_witness :
  x (moveEntity 900 560 (body player0) 210 0 (2 # 100)) == 60 + 210 * (2 # 100).
Proof.
  assert (Hclear : Forall (fun wl =>
            intersectsAABB (rect (60 + 210 * (2 # 100)) (60 + 0 * (2 # 100)) 18 26)
                           wl = false) (walls 900 560))
    by (repeat constructor).
  assert (Hin : insideArena 900 560
                  (rect (60 + 210 * (2 # 100)) (60 + 0 * (2 # 100)) 18 26))
    by (unfold insideArena; simpl; lra).
  destruct (moveEntity_free 900 560 (body player0) 210 0 (2 # 100) Hclear Hin)
    as [Hx _].
  exact Hx.
Defined.

(** ** The player update *)

(** The fields of the player that [updatePlayer] sets before it moves the
    rectangle, and the ones it never writes. *)
Lemma updatePlayer_fields M W H ks dt now p :
  exists p',
    updatePlayer M W H ks dt now p = Some p' /\
    (stamina p' =
       clamp (stamina p - staminaDrainPerSec p * dt) 0 (staminaMax p) \/
     stamina p' =
       clamp (stamina p + staminaRegenPerSec p * dt) 0 (staminaMax p)) /\
    staminaMax p' = staminaMax p /\ speed p' = speed p /\
    sprintMult p' = sprintMult p /\
    staminaDrainPerSec p' = staminaDrainPerSec p /\
    staminaRegenPerSec p' = staminaRegenPerSec p /\
    w (body p') = w (body p) /\ h (body p') = h (body p).
Proof.
  unfold updatePlayer.
  set (dx := if has ks "arrowright" || has ks "d" then _ else _).
  set (dy := if has ks "arrowdown" || has ks "s" then _ else _).
  destruct (negb (Qeq_bool dx 0) || negb (Qeq_bool dy 0)) eqn:Emov.
  - destruct (norm_total M dx dy) as (n & Hn & _). rewrite Hn.
    cbn [mbind option_bind].
    eexists. split; [reflexivity |].
    destruct (true && (has ks "shift" && _));
      cbn [stamina staminaMax speed sprintMult staminaDrainPerSec
           staminaRegenPerSec body with_body with_shield with_stamina];
      (split; [auto |]); repeat (split; [reflexivity |]);
      apply moveEntity_size.
  - eexists. split; [reflexivity |].
    cbn [andb stamina staminaMax speed sprintMult staminaDrainPerSec
         staminaRegenPerSec body with_body with_shield with_stamina].
    split; [auto |]. repeat split; reflexivity.
Qed.

(** X5. Stamina keeps its range. After [updatePlayer] the stamina lies in
    [[0, staminaMax]] whatever it was before, and the update changes none of
    the player's constants nor the size of its rectangle. *)
Theorem updatePlayer_stamina_range (M : MathLib) (W H : Q) (ks : gset string)
        (dt now : Q) (p : Player) :
  0 <= staminaMax p ->
  exists p',
    updatePlayer M W H ks dt now p = Some p' /\
    0 <= stamina p' <= staminaMax p /\
    staminaMax p' = staminaMax p /\ speed p' = speed p /\
    sprintMult p' = sprintMult p /\
    w (body p') = w (body p) /\ h (body p') = h (body p).
Proof.
  intros Hmax.
  destruct (updatePlayer_fields M W H ks dt now p)
    as (p' & Hp' & Hst & Hm & Hs & Hsm & _ & _ & Hw & Hh).
  exists p'. split; [exact Hp' |].
  split; [| auto].
  destruct Hst as [-> | ->]; apply clamp_bounds; exact Hmax.
Qed.

Lemma updatePlayer_stamina_range_witness :
  exists p',
    updatePlayer sampleMath 900 560 {["shift"%string; "d"%string]}
                 (33 # 1000) 1000 player0 = Some p' /\
    0 <= stamina p' <= staminaMax player0.
Proof.
  destruct (updatePlayer_stamina_range sampleMath 900 560
              {["shift"%string; "d"%string]} (33 # 1000) 1000 player0)
    as (p' & Hp' & Hr & _); [vm_compute; discriminate |].
  exists p'. split; [exact Hp' | exact Hr].
Defined.

(** X6. Opposite keys cancel. When the left and right keys cancel each other
    (both held or neither) and so do up and down, [updatePlayer] leaves the
    rectangle of the player where it was and, even with the sprint key
    held, regenerates stamina instead of draining it. *)
Theorem updatePlayer_standing (M : MathLib) (W H : Q) (ks : gset string)
        (dt now : Q) (p : Player) :
  (has ks "arrowleft" || has ks "a") = (has ks "arrowright" || has ks "d") ->
  (has ks "arrowup" || has ks "w") = (has ks "arrowdown" || has ks "s") ->
  exists p',
    updatePlayer M W H ks dt now p = Some p' /\
    body p' = body p /\
    stamina p' =
      clamp (stamina p + staminaRegenPerSec p * dt) 0 (staminaMax p).
Proof.
  intros Hh Hv. unfold updatePlayer. rewrite Hh, Hv. cbv zeta.
  destruct (has ks "arrowright" || has ks "d"),
    (has ks "arrowdown" || has ks "s");
    cbv iota;
    change (Qeq_bool (0 - 1 + 1) 0) with true;
    change (Qeq_bool 0 0) with true;
    cbn [negb orb andb];
    (eexists; split; [reflexivity | split; reflexivity]).
Qed.

Lemma updatePlayer_standing_witness :
  exists p',
    updatePlayer sampleMath 900 560
                 {["shift"%string; "a"%string; "d"%string]}
                 (33 # 1000) 1000 player0 = Some p' /\
    body p' = body player0.
Proof.
  destruct (updatePlayer_standing sampleMath 900 560
              {["shift"%string; "a"%string; "d"%string]}
              (33 # 1000) 1000 player0)
    as (p' & Hp' & Hb & _); [vm_compute; reflexivity | vm_compute; reflexivity |].
  exists p'. split; [exact Hp' | exact Hb].
Defined.

(** ** The dragon and the round *)

(** X7. What [updateMonster] may touch. It always goes through, never
    changes the player nor the elapsed time, and ends in one of two ways:
    the rectangles intersect after the move and the round is lost with the
    cause "mauled", or they do not and the outcome of the round is as it
    was. *)
Theorem updateMonster_outcome (M : MathLib) (W H dt now : Q) (g : Game) :
  exists g',
    updateMonster M W H dt now g = Some g' /\
    player g' = player g /\ elapsed g' = elapsed g /\
    ((intersectsAABB (body (player g')) (mbody (monster g')) = true /\
      state g' = lost /\ status g' = "mauled (press R)"%string) \/
     (intersectsAABB (body (player g')) (mbody (monster g')) = false /\
      state g' = state g /\ status g' = status g)).
Proof.
  destruct (monsterAct_sameRound M W H dt now g)
    as (gm & Hgm & Hp & Hs & Hm & He).
  unfold updateMonster. rewrite Hgm. cbn [mbind option_bind].
  exists (contactCheck gm). split; [reflexivity |].
  unfold contactCheck.
  destruct (intersectsAABB (body (player gm)) (mbody (monster gm))) eqn:Hhit.
  - cbn [player elapsed state status monster with_state].
    split; [exact Hp |]. split; [exact He |]. left. auto.
  - split; [exact Hp |]. split; [exact He |]. right. auto.
Qed.

(** The clock fields through the dragon's move and the projectile update. *)
Lemma pickWanderLoop_clock M W H n now : forall g,
  startTs (pickWanderLoop M W H n now g) = startTs g /\
  lastTs (pickWanderLoop M W H n now g) = lastTs g.
Proof.
  induction n as [| n IH]; intros g; cbn [pickWanderLoop].
  - split; reflexivity.
  - destruct (forallb _ (walls W H)); [split; reflexivity |].
    destruct (IH (with_rng g (S (S (rng g))))) as [Hs Hl].
    rewrite Hs, Hl. split; reflexivity.
Qed.

Lemma monsterAct_clock M W H dt now g g' :
  monsterAct M W H dt now g = Some g' ->
  startTs g' = startTs g /\ lastTs g' = lastTs g.
Proof.
  unfold monsterAct. cbv zeta.
  destruct (hasLineOfSight W H _ _ _ _) as [[|] |]; cbn [mbind option_bind];
    [| | discriminate].
  - destruct (norm M _ _) as [toP |]; cbn [mbind option_bind]; [| discriminate].
    destruct (Qltb now _); intros [= <-]; split; reflexivity.
  - assert (H1 : startTs (if Qgtb now (wander_until (wander (monster g)))
                          then pickWanderTarget M W H now g else g) = startTs g /\
                 lastTs (if Qgtb now (wander_until (wander (monster g)))
                         then pickWanderTarget M W H now g else g) = lastTs g).
    { destruct (Qgtb now _); [| split; reflexivity].
      unfold pickWanderTarget. apply pickWanderLoop_clock. }
    revert H1.
    generalize (if Qgtb now (wander_until (wander (monster g)))
                then pickWanderTarget M W H now g else g).
    intros g1 [Hs Hl].
    destruct (norm M _ _) as [v |]; cbn [mbind option_bind]; [| discriminate].
    intros [= <-]. cbn [startTs lastTs with_monster]. auto.
Qed.

(** A tick of a running round, step by step. *)
Lemma tick_running M W H ks ts g :
  state g = running ->
  exists gf,
    tick M W H ks ts g
    = Some (if Qgeb (elapsed gf) GOAL_SECONDS
            then with_state gf won "won (press R)" else gf) /\
    elapsed gf = (ts - frameStart ts g) / 1000 /\
    startTs gf = frameStart ts g /\ lastTs gf = ts /\
    (state gf = running \/ state gf = lost).
Proof.
  intros Hrun.
  destruct (updatePlayer_shield M W H ks (frameDt ts g) ts (player g))
    as (p & Hp & _).
  set (gc := with_player
         (with_clock g (frameStart ts g) ts ((ts - frameStart ts g) / 1000)) p).
  destruct (monsterAct_sameRound M W H (frameDt ts g) ts gc)
    as (gm & Hgm & (_ & Hst & _ & Hel)).
  destruct (monsterAct_clock M W H (frameDt ts g) ts gc gm Hgm) as [Hs0 Hl0].
  set (P := fun g' : Game =>
    elapsed g' = (ts - frameStart ts g) / 1000 /\
    startTs g' = frameStart ts g /\ lastTs g' = ts /\
    (state g' = running \/ state g' = lost)).
  assert (Hcheck : P (contactCheck gm)).
  { unfold P, contactCheck.
    destruct (intersectsAABB _ _);
      cbn [elapsed startTs lastTs state with_state];
      rewrite Hel, Hs0, Hl0; subst gc;
      cbn [elapsed startTs lastTs state with_player with_clock];
      repeat split; auto.
    left. rewrite Hst. cbn [state with_player with_clock]. exact Hrun. }
  assert (Hflames : P (updateFlames W H (frameDt ts g) ts (contactCheck gm))).
  { apply updateFlames_preserves; [exact Hcheck | |].
    - intros g' (He & Hs & Hl & Hstate).
      destruct (flameHit_afterFlames ts g') as (He' & _ & _ & _ & Hst' & _).
      unfold P. rewrite He'. split; [exact He |].
      assert (Hclock : startTs (flameHit ts g') = startTs g' /\
                       lastTs (flameHit ts g') = lastTs g').
      { unfold flameHit. destruct (shieldIsUp ts _);
          [cbv zeta; destruct (Qle_bool _ _) |]; split; reflexivity. }
      destruct Hclock as [-> ->]. split; [exact Hs |]. split; [exact Hl |].
      destruct Hst' as [-> | ->]; auto.
    - intros g' fs Hg'. exact Hg'. }
  exists (updateFlames W H (frameDt ts g) ts (contactCheck gm)).
  split; [| exact Hflames].
  unfold tick. cbv zeta.
  change (state (with_clock g (frameStart ts g) ts (elapsed g))) with (state g).
  rewrite Hrun.
  change (player (with_clock (with_clock g (frameStart ts g) ts (elapsed g))
                    (frameStart ts g) ts ((ts - frameStart ts g) / 1000)))
    with (player g).
  rewrite Hp. cbn [mbind option_bind].
  change (with_player
            (with_clock (with_clock g (frameStart ts g) ts (elapsed g))
               (frameStart ts g) ts ((ts - frameStart ts g) / 1000)) p)
    with gc.
  unfold updateMonster. rewrite Hgm. cbn [mbind option_bind].
  destruct (Qgeb _ GOAL_SECONDS); reflexivity.
Qed.

(** X8. When a round is won. A tick that starts in the running state ends
    with the round won, cause "won", as soon as the elapsed time of the
    tick has reached [GOAL_SECONDS], whatever else happened in the tick; and
    before that it never ends won. *)
Theorem tick_won_at_goal (M : MathLib) (W H : Q) (ks : gset string) (ts : Q)
        (g : Game) :
  state g = running ->
  exists g',
    tick M W H ks ts g = Some g' /\
    elapsed g' = (ts - frameStart ts g) / 1000 /\
    (GOAL_SECONDS <= elapsed g' ->
     state g' = won /\ status g' = "won (press R)"%string) /\
    (elapsed g' < GOAL_SECONDS -> state g' = running \/ state g' = lost).
Proof.
  intros Hrun.
  destruct (tick_running M W H ks ts g Hrun)
    as (gf & Htick & Hel & _ & _ & Hstate).
  rewrite Htick.
  destruct (Qgeb (elapsed gf) GOAL_SECONDS) eqn:Egoal;
    [apply Qgeb_le in Egoal | apply Qgeb_lt in Egoal];
    eexists; (split; [reflexivity |]);
    cbn [elapsed state status with_state]; (split; [exact Hel |]); split.
  - auto.
  - intros Hlt. lra.
  - intros Hge. lra.
  - intros _. exact Hstate.
Qed.

Lemma tick_won_at_goal_witness :
  state closingIn = running /\
  exists g',
    tick sampleMath 900 560 ∅ 31010 closingIn = Some g' /\ state g' = won.
Proof.
  split; [reflexivity |].
  destruct (tick_won_at_goal sampleMath 900 560 ∅ 31010 closingIn eq_refl)
    as (g' & Htick & Hel & Hwon & _).
  exists g'. split; [exact Htick |].
  apply Hwon. rewrite Hel. vm_compute. discriminate.
Defined.

(** X9. The clock of a tick. Every tick returns; it records [ts] in [lastTs],
    keeps [startTs] once it is set (and sets it to [ts] when it is zero),
    and works with a time step of at most 33 ms, which is not negative when
    the time stamps do not go back. A round that is over is frozen: the
    tick changes nothing but these two clock fields. *)
Theorem tick_clock (M : MathLib) (W H : Q) (ks : gset string) (ts : Q)
        (g : Game) :
  exists g',
    tick M W H ks ts g = Some g' /\
    lastTs g' = ts /\ startTs g' = frameStart ts g /\
    frameDt ts g <= 33 # 1000 /\
    (lastTs g <= ts -> 0 <= ts -> 0 <= frameDt ts g) /\
    (state g <> running ->
     g' = with_clock g (frameStart ts g) ts (elapsed g)).
Proof.
  assert (Hdt : frameDt ts g <= 33 # 1000 /\
                (lastTs g <= ts -> 0 <= ts -> 0 <= frameDt ts g)).
  { unfold frameDt. cbv zeta.
    assert (Hlast : lastTs g <= ts ->
                    (if Qeq_bool (lastTs g) 0 then ts else lastTs g) <= ts)
      by (destruct (Qeq_bool (lastTs g) 0); lra).
    revert Hlast.
    generalize (if Qeq_bool (lastTs g) 0 then ts else lastTs g).
    intros last Hlast.
    destruct (Math_min_spec (33 # 1000) ((ts - last) / 1000))
      as [[Hm ->] | [Hm ->]]; split; intros; try lra.
    specialize (Hlast ltac:(assumption)).
    unfold Qdiv. change (/ 1000) with (1 # 1000). lra. }
  destruct Hdt as [Hcap Hpos].
  destruct (state g) eqn:Hstate.
  - destruct (tick_running M W H ks ts g Hstate)
      as (gf & Htick & _ & Hs & Hl & _).
    rewrite Htick.
    destruct (Qgeb (elapsed gf) GOAL_SECONDS); eexists;
      (split; [reflexivity |]); cbn [lastTs startTs with_state];
      repeat split; auto; congruence.
  - unfold tick. cbv zeta.
    change (state (with_clock g (frameStart ts g) ts (elapsed g)))
      with (state g).
    rewrite Hstate. eexists. split; [reflexivity |]. repeat split; auto.
  - unfold tick. cbv zeta.
    change (state (with_clock g (frameStart ts g) ts (elapsed g)))
      with (state g).
    rewrite Hstate. eexists. split; [reflexivity |]. repeat split; auto.
Qed.

(** ** The flame particles *)

(** The three ways out of the loop body of [updateFlames]. *)
Lemma flameStep_split W H dt now f g :
  flameStep W H dt now f g =
  if reachesPlayer W H dt now (body (player g)) f then (flameHit now g, None)
  else if staysAloft W H dt now (body (player g)) f
       then (g, Some (advanceFlame dt f))
       else (g, None).
Proof.
  unfold flameStep, reachesPlayer, staysAloft, advanceFlame, flameBox.
  cbv zeta. cbn [fl_x fl_y fl_r bornAt ttlMs fl_vx fl_vy].
  remember (body (player g)) as b eqn:Hb. destruct b as [bx bY bw bh].
  cbn [x y w h].
  destruct (Qgtb _ _); [reflexivity |].
  destruct (existsb _ (walls W H)); [reflexivity |].
  destruct (pointInRect _ _ _ || intersectsAABB _ _); reflexivity.
Qed.

Lemma flames_fold W H dt now g fs :
  fold_right
    (fun f '(acc, kept) =>
       match flameStep W H dt now f acc with
       | (acc', Some f') => (acc', f' :: kept)
       | (acc', None) => (acc', kept)
       end) (g, []) fs
  = (applyHits
       (repeat now
          (length (List.filter
                     (reachesPlayer W H dt now (body (player g))) fs))) g,
     map (advanceFlame dt)
         (List.filter (staysAloft W H dt now (body (player g))) fs)).
Proof.
  induction fs as [| f fs IH]; [reflexivity |].
  cbn [fold_right List.filter]. rewrite IH.
  rewrite flameStep_split, applyHits_body.
  assert (Hexcl : reachesPlayer W H dt now (body (player g)) f = true ->
                  staysAloft W H dt now (body (player g)) f = false).
  { unfold reachesPlayer, staysAloft, advanceFlame, flameBox. cbv zeta.
    cbn [fl_x fl_y fl_r bornAt ttlMs].
    rewrite !andb_true_iff. intros [_ ->]. apply andb_false_r. }
  destruct (reachesPlayer W H dt now (body (player g)) f).
  - rewrite (Hexcl eq_refl). cbn [length].
    rewrite repeat_snoc, applyHits_snoc. reflexivity.
  - destruct (staysAloft W H dt now (body (player g)) f); reflexivity.
Qed.

(** X10. The projectile update, exactly. [updateFlames] amounts to one hit on
    the player for each particle that, once advanced, is alive, clear of the
    walls and touching the player; the particles left in [flames] are the
    advanced ones that are alive, clear of the walls and not touching, in
    their old order; every other particle is dropped without effect. *)
Theorem updateFlames_exact (W H dt now : Q) (g : Game) :
  let pr := body (player g) in
  updateFlames W H dt now g
  = with_flames
      (applyHits
         (repeat now
            (length (List.filter (reachesPlayer W H dt now pr) (flames g))))
         g)
      (map (advanceFlame dt)
           (List.filter (staysAloft W H dt now pr) (flames g))).
Proof.
  intros pr. subst pr. unfold updateFlames.
  rewrite flames_fold. reflexivity.
Qed.

Lemma with_state_twice g s msg :
  with_state (with_state g s msg) s msg = with_state g s msg.
Proof. reflexivity. Qed.

Lemma applyHits_unshielded now g :
  shieldIsUp now (shield (player g)) = false ->
  forall k, applyHits (repeat now (S k)) g
            = with_state g lost "burned (press R)".
Proof.
  intros Hdown.
  assert (Hone : flameHit now g = with_state g lost "burned (press R)")
    by (unfold flameHit; cbv zeta; rewrite Hdown; reflexivity).
  induction k as [| k IH]; [exact Hone |].
  rewrite repeat_snoc, applyHits_snoc, IH.
  unfold flameHit. cbv zeta.
  change (shield (player (with_state g lost "burned (press R)")))
    with (shield (player g)).
  rewrite Hdown. apply with_state_twice.
Qed.

(** X11. Burnt without a shield. When the shield is not up at [now] and at
    least one particle, once advanced, is alive, clear of the walls and
    touching the player, [updateFlames] ends the round: the state is lost,
    the cause is "burned", and neither the player (shield included) nor the
    dragon nor the clock is changed. *)
Theorem updateFlames_burns (W H dt now : Q) (g : Game) :
  shieldIsUp now (shield (player g)) = false ->
  Exists (fun f => reachesPlayer W H dt now (body (player g)) f = true)
         (flames g) ->
  let g' := updateFlames W H dt now g in
  state g' = lost /\ status g' = "burned (press R)"%string /\
  player g' = player g /\ monster g' = monster g /\ elapsed g' = elapsed g.
Proof.
  intros Hdown Hsome g'. subst g'. unfold updateFlames.
  rewrite flames_fold.
  assert (Hk : exists k,
             length (List.filter
                       (reachesPlayer W H dt now (body (player g)))
                       (flames g)) = S k).
  { induction Hsome as [f fs Hf | f fs _ [k IH]]; cbn [List.filter].
    - rewrite Hf. cbn [length]. eauto.
    - destruct (reachesPlayer _ _ _ _ _ f); cbn [length]; eauto. }
  destruct Hk as [k ->].
  rewrite (applyHits_unshielded now g Hdown k).
  repeat split; reflexivity.
Qed.

Lemma updateFlames_burns_witness :
  let g' := updateFlames 900 560 (33 # 1000) 5033 touchingInFlames in
  state g' = lost /\ status g' = "burned (press R)"%string.
Proof.
  destruct (updateFlames_burns 900 560 (33 # 1000) 5033 touchingInFlames)
    as (Hs & Hm & _).
  - vm_compute. reflexivity.
  - apply Exists_cons_hd. vm_compute. reflexivity.
  - split; [exact Hs | exact Hm].
Defined.

(** X12. What the dragon breathes out. With [Math.random()] in [[0, 1)],
    [emitConeFlames] appends nine particles to [flames], born at [now], each
    with a lifetime of 520 to 780 ms and a radius of 4.5 to 7, both ends
    included (rounding can reach the upper ones); it draws 45 random numbers
    and touches nothing else. *)
Theorem emitConeFlames_particles (M : MathLib) (fromX fromY dirX dirY now : Q)
        (g : Game) :
  unitRandom M ->
  let g' := emitConeFlames M fromX fromY dirX dirY now g in
  exists new,
    flames g' = flames g ++ new /\ length new = 9%nat /\
    Forall (fun f => bornAt f = now /\ 520 <= ttlMs f <= 780 /\
                     45 # 10 <= fl_r f <= 7) new /\
    rng g' = (rng g + 45)%nat /\
    player g' = player g /\ monster g' = monster g /\
    state g' = state g /\ status g' = status g /\ elapsed g' = elapsed g.
Proof.
  intros Hrand g'. subst g'. unfold emitConeFlames. cbv zeta.
  eexists. split; [reflexivity |]. split; [reflexivity |].
  split; [| repeat split; reflexivity].
  apply Forall_map, Forall_forall. intros i _.
  unfold coneFlame. cbv zeta. cbn [bornAt ttlMs fl_r].
  pose proof (Hrand (rng g + 5 * i + 3)%nat) as H3.
  pose proof (Hrand (rng g + 5 * i + 4)%nat) as H4.
  split; [reflexivity |]. split; lra.
Qed.

Lemma sampleMath_unitRandom : unitRandom sampleMath.
Proof. intros n. cbn. lra. Qed.

Lemma emitConeFlames_particles_witness :
  unitRandom sampleMath /\
  exists new,
    flames (emitConeFlames sampleMath 100 100 1 0 5000 touching)
    = flames touching ++ new /\ length new = 9%nat.
Proof.
  split; [exact sampleMath_unitRandom |].
  destruct (emitConeFlames_particles sampleMath 100 100 1 0 5000 touching
              sampleMath_unitRandom) as (new & Hfl & Hlen & _).
  exists new. split; [exact Hfl | exact Hlen].
Defined.

Lemma emitConeFlames_shape M fromX fromY dirX dirY now g :
  unitRandom M ->
  exists new,
    emitConeFlames M fromX fromY dirX dirY now g
    = with_rng (with_flames g (flames g ++ new)) (rng g + 45) /\
    Forall (fun f => bornAt f = now /\ ttlMs f <= 780) new.
Proof.
  intros Hrand. unfold emitConeFlames. cbv zeta.
  eexists. split; [reflexivity |].
  apply Forall_map, Forall_forall. intros i _.
  unfold coneFlame. cbv zeta. cbn [bornAt ttlMs].
  pose proof (Hrand (rng g + 5 * i + 4)%nat) as H4.
  split; [reflexivity | lra].
Qed.

Lemma filter_none {A} (f : A -> bool) l :
  Forall (fun a => f a = false) l -> List.filter f l = [].
Proof.
  induction 1 as [| a l Ha _ IH]; [reflexivity |].
  cbn [List.filter]. rewrite Ha. exact IH.
Qed.

Lemma flameHit_relabel now g fl r :
  flameHit now (with_rng (with_flames g fl) r)
  = with_rng (with_flames (flameHit now g) fl) r.
Proof.
  unfold flameHit. cbv zeta.
  change (shield (player (with_rng (with_flames g fl) r)))
    with (shield (player g)).
  destruct (shieldIsUp now (shield (player g))); reflexivity.
Qed.

Lemma applyHits_relabel fl r nows : forall g,
  applyHits nows (with_rng (with_flames g fl) r)
  = with_rng (with_flames (applyHits nows g) fl) r.
Proof.
  induction nows as [| t nows IH]; intros g; [reflexivity |].
  unfold applyHits in *. cbn [fold_left].
  rewrite flameHit_relabel. apply IH.
Qed.

(** X13. Flames burn out. With [Math.random()] in [[0, 1)], the particles of
    an [emitConeFlames] at [now] are all gone after any [updateFlames] at a
    time [now'] for which the age [now' - now] that the update computes
    exceeds 780 ms, and they have had no effect in it: the update gives what
    it gives without them, but for the 45 random numbers drawn. *)
Theorem emitted_flames_expire (M : MathLib) (W H : Q)
        (fromX fromY dirX dirY now dt now' : Q) (g : Game) :
  unitRandom M ->
  780 < now' - now ->
  updateFlames W H dt now' (emitConeFlames M fromX fromY dirX dirY now g)
  = with_rng (updateFlames W H dt now' g) (rng g + 45).
Proof.
  intros Hrand Hlate.
  destruct (emitConeFlames_shape M fromX fromY dirX dirY now g Hrand)
    as (new & Hemit & Hnew).
  rewrite Hemit. unfold updateFlames.
  rewrite !flames_fold.
  change (flames (with_rng (with_flames g (flames g ++ new)) (rng g + 45)))
    with (flames g ++ new).
  change (body (player (with_rng (with_flames g (flames g ++ new))
                          (rng g + 45))))
    with (body (player g)).
  assert (Hexp : forall pr,
    Forall (fun f => reachesPlayer W H dt now' pr f = false) new /\
    Forall (fun f => staysAloft W H dt now' pr f = false) new).
  { intros pr. split; eapply Forall_impl; try exact Hnew;
      intros f [Hb Httl];
      unfold reachesPlayer, staysAloft, advanceFlame; cbv zeta;
      cbn [bornAt ttlMs];
      (replace (Qgtb (now' - bornAt f) (ttlMs f)) with true;
       [reflexivity |]);
      symmetry; unfold Qgtb; apply Qltb_lt; rewrite Hb; lra. }
  destruct (Hexp (body (player g))) as [Hr Hs].
  rewrite !List.filter_app, (filter_none _ _ Hr), (filter_none _ _ Hs),
    !app_nil_r.
  rewrite applyHits_relabel. reflexivity.
Qed.

Lemma emitted_flames_expire_witness :
  updateFlames 900 560 (33 # 1000) 5781
               (emitConeFlames sampleMath 100 100 1 0 5000 touching)
  = with_rng (updateFlames 900 560 (33 # 1000) 5781 touching)
             (rng touching + 45).
Proof.
  apply (emitted_flames_expire sampleMath 900 560 100 100 1 0 5000
           (33 # 1000) 5781 touching sampleMath_unitRandom).
  vm_compute. reflexivity.
Defined.

(** ** The patrol target *)

(** X14. Where the dragon wanders. With [Math.random()] in [[0, 1)] on a
    canvas of at least 80 x 80, [pickWanderTarget] leaves one of two
    targets: a point between [40] and [40 + (W - 80)] across and between
    [40] and [40 + (H - 80)] down whose 12 x 12 probe touches no wall, to be
    kept until a time between [now + 1100] and [now + 1100 + 1300], ends
    included; or, when forty draws all failed, the centre of the canvas,
    kept for one second. Only the target and the count of random draws
    change. *)
Theorem pickWanderTarget_target (M : MathLib) (W H now : Q) (g : Game) :
  unitRandom M -> 80 <= W -> 80 <= H ->
  let g' := pickWanderTarget M W H now g in
  let wd := wander (monster g') in
  ((Forall (fun wl =>
              intersectsAABB
                (rect (wander_x wd - 6) (wander_y wd - 6) 12 12) wl = false)
           (walls W H) /\
    40 <= wander_x wd <= 40 + (W - 80) /\
    40 <= wander_y wd <= 40 + (H - 80) /\
    now + 1100 <= wander_until wd <= now + 1100 + 1300) \/
   (wander_x wd == W / 2 /\ wander_y wd == H / 2 /\
    wander_until wd = now + 1000)) /\
  mbody (monster g') = mbody (monster g) /\ player g' = player g /\
  flames g' = flames g /\ state g' = state g /\ status g' = status g.
Proof.
  intros Hrand HW HH. unfold pickWanderTarget. cbv zeta.
  generalize 40%nat. intros n. revert g.
  induction n as [| n IH]; intros g; cbn [pickWanderLoop].
  - cbn. split; [right; repeat split; reflexivity | repeat split].
  - cbv zeta.
    destruct (forallb _ (walls W H)) eqn:Hclear.
    + cbn [wander monster with_rng with_monster with_wander wander_x wander_y
             wander_until mbody player flames state status].
      split; [left | repeat split].
      pose proof (Hrand (rng g)) as H0.
      pose proof (Hrand (S (rng g))) as H1.
      pose proof (Hrand (S (S (rng g)))) as H2.
      split; [| repeat split; try lra; nra].
      apply Forall_forall. intros wl Hin.
      rewrite forallb_forall in Hclear.
      apply negb_true_iff, Hclear, list_elem_of_In. exact Hin.
    + destruct (IH (with_rng g (S (S (rng g))))) as (Ht & Hb & Hp & Hf & Hs & Hm).
      split; [exact Ht |]. repeat split; assumption.
Qed.

Lemma pickWanderTarget_target_witness :
  let wd := wander (monster (pickWanderTarget sampleMath 900 560 1000
                               (game0 sampleMath 900 560))) in
  1000 + 1000 <= wander_until wd.
Proof.
  intros wd. subst wd.
  destruct (pickWanderTarget_target sampleMath 900 560 1000
              (game0 sampleMath 900 560) sampleMath_unitRandom)
    as ([(_ & _ & _ & Hu) | (_ & _ & Hu)] & _); try lra.
  rewrite Hu. lra.
Defined.

(** ** Starting over *)

Lemma regenShield_setup dt now s :
  shield_max (regenShield dt now s) = shield_max s /\
  hitCost (regenShield dt now s) = hitCost s /\
  regenPerSec (regenShield dt now s) = regenPerSec s /\
  breakCooldownMs (regenShield dt now s) = breakCooldownMs s.
Proof.
  unfold regenShield.
  destruct (Qgeb now (brokenUntil s) && negb (shieldIsUp now s));
    repeat split; reflexivity.
Qed.

Lemma updatePlayer_setup M W H ks dt now p p' :
  updatePlayer M W H ks dt now p = Some p' ->
  playerSetup p' = playerSetup p.
Proof.
  intros Hp'.
  destruct (updatePlayer_fields M W H ks dt now p)
    as (p1 & Hp1 & _ & Hmax & Hsp & Hmul & Hdr & Hrg & Hw & Hh).
  destruct (updatePlayer_shield M W H ks dt now p) as (p2 & Hp2 & Hsh).
  rewrite Hp' in Hp1, Hp2.
  injection Hp1 as <-. injection Hp2 as <-.
  destruct (regenShield_setup dt now (with_active (shield p) (has ks " ")))
    as (Hm & Hc & Hr & Hb).
  unfold playerSetup.
  rewrite Hmax, Hsp, Hmul, Hdr, Hrg, Hw, Hh, Hsh, Hm, Hc, Hr, Hb.
  reflexivity.
Qed.

Lemma with_mbody_setup W H m vx vy dt :
  monsterSetup (with_mbody m (moveEntity W H (mbody m) vx vy dt))
  = monsterSetup m.
Proof.
  destruct (moveEntity_size W H (mbody m) vx vy dt) as [Hw Hh].
  unfold monsterSetup. cbn [mbody with_mbody speedChase speedPatrol
                              breathCooldownMs breathDurationMs coneAngle].
  rewrite Hw, Hh. reflexivity.
Qed.

Lemma chaseMove_setup W H dt toP dist m :
  monsterSetup (chaseMove W H dt toP dist m) = monsterSetup m.
Proof.
  unfold chaseMove.
  destruct (Qgtb dist 110); [apply with_mbody_setup |].
  destruct (Qltb dist 75); [apply with_mbody_setup | reflexivity].
Qed.

Lemma breathGate_setup now m :
  monsterSetup (breathGate now m) = monsterSetup m.
Proof. unfold breathGate. destruct (Qgeb _ _); reflexivity. Qed.

Lemma pickWanderLoop_setup M W H n now : forall g,
  monsterSetup (monster (pickWanderLoop M W H n now g))
  = monsterSetup (monster g).
Proof.
  induction n as [| n IH]; intros g; cbn [pickWanderLoop].
  - reflexivity.
  - destruct (forallb _ (walls W H)); [reflexivity |].
    rewrite IH. reflexivity.
Qed.

Lemma monsterAct_setup M W H dt now g g' :
  monsterAct M W H dt now g = Some g' ->
  monsterSetup (monster g') = monsterSetup (monster g).
Proof.
  unfold monsterAct. cbv zeta.
  destruct (hasLineOfSight W H _ _ _ _) as [[|] |]; cbn [mbind option_bind];
    [| | discriminate].
  - destruct (norm M _ _) as [toP |]; cbn [mbind option_bind]; [| discriminate].
    destruct (Qltb now _); intros [= <-];
      unfold emitConeFlames;
      cbn [monster with_rng with_flames with_monster];
      rewrite breathGate_setup; apply chaseMove_setup.
  - assert (H1 : monsterSetup
                   (monster (if Qgtb now (wander_until (wander (monster g)))
                             then pickWanderTarget M W H now g else g))
                 = monsterSetup (monster g)).
    { destruct (Qgtb now _); [| reflexivity].
      unfold pickWanderTarget. apply pickWanderLoop_setup. }
    revert H1.
    generalize (if Qgtb now (wander_until (wander (monster g)))
                then pickWanderTarget M W H now g else g).
    intros g1 H1.
    destruct (norm M _ _) as [v |]; cbn [mbind option_bind]; [| discriminate].
    intros [= <-]. cbn [monster with_monster]. unfold patrolMove.
    rewrite with_mbody_setup. exact H1.
Qed.

Lemma flameHit_setup now g : setup (flameHit now g) = setup g.
Proof.
  unfold flameHit. cbv zeta.
  destruct (shieldIsUp now (shield (player g))); [| reflexivity].
  destruct (Qle_bool _ _); reflexivity.
Qed.

Lemma reset_setup W H g g' :
  setup g' = setup g ->
  reset W H g' = with_rng (reset W H g) (rng g').
Proof.
  destruct g as [[[? ? ? ?] ? ? ? ? ? ? [? ? ? ? ? ? ?]]
                 [[? ? ? ?] ? ? ? ? ? ? ? ?] ? ? ? ? ? ? ?].
  destruct g' as [[[? ? ? ?] ? ? ? ? ? ? [? ? ? ? ? ? ?]]
                  [[? ? ? ?] ? ? ? ? ? ? ? ?] ? ? ? ? ? ? ?].
  unfold setup, playerSetup, monsterSetup. cbn.
  intros Heq. injection Heq as -> -> -> -> -> -> -> -> -> -> -> -> -> -> ->
                              -> -> ->.
  reflexivity.
Qed.

(** A tick of a running round as the sequence of its updates. *)
Lemma tick_steps M W H ks ts g :
  state g = running ->
  exists p gm,
    updatePlayer M W H ks (frameDt ts g) ts (player g) = Some p /\
    monsterAct M W H (frameDt ts g) ts
      (with_player
         (with_clock g (frameStart ts g) ts ((ts - frameStart ts g) / 1000))
         p) = Some gm /\
    tick M W H ks ts g
    = Some (if Qgeb (elapsed (updateFlames W H (frameDt ts g) ts
                                (contactCheck gm))) GOAL_SECONDS
            then with_state (updateFlames W H (frameDt ts g) ts
                               (contactCheck gm)) won "won (press R)"
            else updateFlames W H (frameDt ts g) ts (contactCheck gm)).
Proof.
  intros Hrun.
  destruct (updatePlayer_shield M W H ks (frameDt ts g) ts (player g))
    as (p & Hp & _).
  set (gc := with_player
         (with_clock g (frameStart ts g) ts ((ts - frameStart ts g) / 1000)) p).
  destruct (monsterAct_sameRound M W H (frameDt ts g) ts gc)
    as (gm & Hgm & _).
  exists p, gm. split; [exact Hp |]. split; [exact Hgm |].
  unfold tick. cbv zeta.
  change (state (with_clock g (frameStart ts g) ts (elapsed g))) with (state g).
  rewrite Hrun.
  change (player (with_clock (with_clock g (frameStart ts g) ts (elapsed g))
                    (frameStart ts g) ts ((ts - frameStart ts g) / 1000)))
    with (player g).
  rewrite Hp. cbn [mbind option_bind].
  change (with_player
            (with_clock (with_clock g (frameStart ts g) ts (elapsed g))
               (frameStart ts g) ts ((ts - frameStart ts g) / 1000)) p)
    with gc.
  unfold updateMonster. rewrite Hgm. cbn [mbind option_bind].
  destruct (Qgeb _ GOAL_SECONDS); reflexivity.
Qed.

(** X15. Starting over. No tick changes the sizes, speeds and rates of the
    player, of its shield and of the dragon, so that [reset] after a tick
    gives the very game that [reset] gave before it, up to the count of
    random draws; and [reset] on the initial values gives them back. Hence
    R always restarts from the initial configuration. *)
Theorem reset_after_tick (M : MathLib) (W H : Q) (ks : gset string) (ts : Q)
        (g : Game) :
  reset W H (game0 M W H) = game0 M W H /\
  exists g',
    tick M W H ks ts g = Some g' /\
    setup g' = setup g /\
    reset W H g' = with_rng (reset W H g) (rng g').
Proof.
  split; [reflexivity |].
  assert (Hsetup : exists g', tick M W H ks ts g = Some g' /\
                              setup g' = setup g).
  { destruct (state g) eqn:Hstate.
    - destruct (tick_steps M W H ks ts g Hstate) as (p & gm & Hp & Hgm & ->).
      destruct (monsterAct_sameRound M W H (frameDt ts g) ts
                  (with_player
                     (with_clock g (frameStart ts g) ts
                        ((ts - frameStart ts g) / 1000)) p))
        as (gm' & Hgm' & Hpl & _).
      rewrite Hgm in Hgm'. injection Hgm' as <-.
      set (gf := updateFlames W H (frameDt ts g) ts (contactCheck gm)).
      assert (Hgf : setup gf = setup g).
      { apply (updateFlames_preserves (fun g' => setup g' = setup g)).
        - unfold contactCheck. destruct (intersectsAABB _ _);
            unfold setup; cbn [player monster with_state];
            rewrite Hpl, (monsterAct_setup _ _ _ _ _ _ _ Hgm);
            cbn [player monster with_player with_clock];
            rewrite (updatePlayer_setup _ _ _ _ _ _ _ _ Hp); reflexivity.
        - intros g' Hg'. rewrite flameHit_setup. exact Hg'.
        - intros g' fs Hg'. exact Hg'. }
      destruct (Qgeb (elapsed gf) GOAL_SECONDS); eexists;
        (split; [reflexivity | exact Hgf]).
    - unfold tick. cbv zeta.
      change (state (with_clock g (frameStart ts g) ts (elapsed g)))
        with (state g).
      rewrite Hstate. eexists. split; reflexivity.
    - unfold tick. cbv zeta.
      change (state (with_clock g (frameStart ts g) ts (elapsed g)))
        with (state g).
      rewrite Hstate. eexists. split; reflexivity. }
  destruct Hsetup as (g' & Htick & Hs).
  exists g'. split; [exact Htick |]. split; [exact Hs |].
  apply reset_setup. exact Hs.
Qed.

(** ** Contact with the dragon *)

Lemma raisedForAll_dec nows : forall g,
  raisedForAll nows g \/ ~ raisedForAll nows g.
Proof.
  induction nows as [| t nows IH]; intros g; cbn [raisedForAll]; [auto |].
  destruct (shieldIsUp t (shield (player g)));
    [| right; intros [E _]; discriminate].
  destruct (IH (flameHit t g)) as [Hr | Hn]; [auto | right; tauto].
Qed.

(** A run of hits leaves the outcome of the round alone when the shield
    takes every one of them, and ends the round with the cause "burned" as
    soon as one of them finds the shield down. *)
Lemma applyHits_outcome nows : forall g,
  (raisedForAll nows g ->
   state (applyHits nows g) = state g /\
   status (applyHits nows g) = status g) /\
  (~ raisedForAll nows g ->
   state (applyHits nows g) = lost /\
   status (applyHits nows g) = "burned (press R)"%string).
Proof.
  induction nows as [| t nows IH]; intros g; cbn [raisedForAll].
  - split; [auto | tauto].
  - change (applyHits (t :: nows) g) with (applyHits nows (flameHit t g)).
    destruct (IH (flameHit t g)) as [Hup Hdown].
    destruct (shieldIsUp t (shield (player g))) eqn:Et.
    + destruct (flameHit_up t g Et) as (_ & _ & _ & _ & _ & _ & Hs & Hm).
      split.
      * intros [_ Hr]. destruct (Hup Hr) as [-> ->]. auto.
      * intros Hn. apply Hdown. tauto.
    + rewrite (flameHit_down t g Et) in *.
      split; [intros [E _]; discriminate |]. intros _.
      destruct (raisedForAll_dec nows (with_state g lost "burned (press R)"))
        as [Hr | Hn]; [apply Hup in Hr | apply Hdown in Hn]; tauto.
Qed.

(** C5, as the code has it. In a tick that starts in the running state the
    player update and the dragon's move always go through; if the two
    rectangles intersect when the contact test of [updateMonster] runs, that
    is after the motion of this tick, [updateMonster] ends with the round
    lost and the cause "mauled", whichever branch the dragon took; and when
    the elapsed time of the tick is below [GOAL_SECONDS] the tick ends lost.
    The cause is then "mauled" when the shield was up for every flame
    particle that reached the player in this tick, none reaching it
    included, and "burned" when one of them found the shield down. *)
Theorem contact_is_loss (M : MathLib) (W H : Q) (ks : gset string) (ts : Q)
        (g : Game) :
  state g = running ->
  exists p gm g',
    updatePlayer M W H ks (frameDt ts g) ts (player g) = Some p /\
    monsterAct M W H (frameDt ts g) ts
      (with_player
         (with_clock g (frameStart ts g) ts ((ts - frameStart ts g) / 1000)) p)
      = Some gm /\
    tick M W H ks ts g = Some g' /\
    (intersectsAABB (body (player gm)) (mbody (monster gm)) = true ->
     updateMonster M W H (frameDt ts g) ts
       (with_player
          (with_clock g (frameStart ts g) ts ((ts - frameStart ts g) / 1000)) p)
       = Some (with_state gm lost "mauled (press R)") /\
     ((ts - frameStart ts g) / 1000 < GOAL_SECONDS ->
      let hits :=
        repeat ts
          (length (List.filter
                     (reachesPlayer W H (frameDt ts g) ts (body (player gm)))
                     (flames gm))) in
      state g' = lost /\
      (raisedForAll hits (with_state gm lost "mauled (press R)") ->
       status g' = "mauled (press R)"%string) /\
      (~ raisedForAll hits (with_state gm lost "mauled (press R)") ->
       status g' = "burned (press R)"%string))).
Proof.
  intros Hrun.
  destruct (tick_steps M W H ks ts g Hrun) as (p & gm & Hp & Hgm & Htick).
  destruct (monsterAct_sameRound M W H (frameDt ts g) ts
              (with_player
                 (with_clock g (frameStart ts g) ts
                    ((ts - frameStart ts g) / 1000)) p))
    as (gm' & Hgm' & (_ & _ & _ & Hel)).
  rewrite Hgm in Hgm'. injection Hgm' as <-.
  eexists p, gm, _. split; [exact Hp |]. split; [exact Hgm |].
  split; [exact Htick |].
  intros Hhit. split.
  - unfold updateMonster. rewrite Hgm. cbn [mbind option_bind].
    rewrite (contactCheck_touching gm Hhit). reflexivity.
  - intros Hearly hits.
    rewrite (contactCheck_touching gm Hhit).
    set (gc := with_state gm lost "mauled (press R)").
    assert (Hfl : updateFlames W H (frameDt ts g) ts gc
                  = with_flames (applyHits hits gc)
                      (map (advanceFlame (frameDt ts g))
                           (List.filter
                              (staysAloft W H (frameDt ts g) ts
                                          (body (player gc)))
                              (flames gc)))).
    { unfold updateFlames. rewrite flames_fold. reflexivity. }
    rewrite Hfl.
    assert (Helapsed : elapsed (applyHits hits gc)
                       = (ts - frameStart ts g) / 1000).
    { destruct (updateFlames_afterFlames W H (frameDt ts g) ts gc) as [He _].
      rewrite Hfl in He. cbn [elapsed with_flames] in He. rewrite He.
      subst gc. cbn [elapsed with_state]. rewrite Hel. reflexivity. }
    cbn [elapsed with_flames]. rewrite Helapsed.
    apply Qgeb_lt in Hearly. rewrite Hearly.
    cbn [state status with_flames].
    destruct (applyHits_outcome hits gc) as [Hup Hdown].
    split; [| split].
    + destruct (raisedForAll_dec hits gc) as [Hr | Hn];
        [apply Hup in Hr | apply Hdown in Hn]; tauto.
    + intros Hr. apply Hup in Hr. tauto.
    + intros Hn. apply Hdown in Hn. tauto.
Qed.

Lemma contact_is_loss_witness :
  state touching = running /\
  exists g',
    tick sampleMath 900 560 ∅ 5020 touching = Some g' /\
    state g' = lost /\ status g' = "mauled (press R)"%string.
Proof.
  split; [reflexivity |].
  destruct (contact_is_loss sampleMath 900 560 ∅ 5020 touching eq_refl)
    as (p & gm & g' & Hp & Hgm & Htick & Hloss).
  exists g'. split; [exact Htick |].
  vm_compute in Hp. injection Hp as <-.
  vm_compute in Hgm. injection Hgm as <-.
  destruct Hloss as [_ Hend]; [vm_compute; reflexivity |].
  destruct Hend as (Hlost & Hmauled & _); [vm_compute; reflexivity |].
  split; [exact Hlost |]. apply Hmauled. exact I.
Defined.

(** The player walks right into the dragon during the frame that crosses
    thirty seconds: the contact test of [updateMonster] fires (round lost,
    cause "mauled"), and the tick nevertheless ends with the round won.  And
    four seconds in, with a flame on the unshielded player, the tick in
    which the rectangles intersect ends lost with the cause "burned". *)
Lemma contact_tick_not_lost_mauled :
  (intersectsAABB (body (player closingIn)) (mbody (monster closingIn)) = false /\
   (p ← updatePlayer sampleMath 900 560 {["d"%string]}
          (frameDt 31010 closingIn) 31010 (player closingIn);
    gm ← updateMonster sampleMath 900 560 (frameDt 31010 closingIn) 31010
          (with_player
             (with_clock closingIn (frameStart 31010 closingIn) 31010
                ((31010 - frameStart 31010 closingIn) / 1000)) p);
    Some (intersectsAABB (body (player gm)) (mbody (monster gm)),
          state gm, status gm))
   = Some (true, lost, "mauled (press R)"%string) /\
   (λ g, (state g, status g))
     <$> tick sampleMath 900 560 {["d"%string]} 31010 closingIn
   = Some (won, "won (press R)"%string)) /\
  (intersectsAABB (body (player touchingInFlames))
                  (mbody (monster touchingInFlames)) = true /\
   (λ g, (intersectsAABB (body (player g)) (mbody (monster g)),
          state g, status g))
     <$> tick sampleMath 900 560 ∅ 5020 touchingInFlames
   = Some (true, lost, "burned (press R)"%string)).
Proof. vm_compute. repeat split. Qed.

(** ** The navigation grid *)

Module NavMoreFacts.

Import Nav.
Import NavFacts.
Import NavMore.
Local Open Scope Z_scope.

Lemma bind_singleton {A B} (g : A -> B) (l : list A) :
  l ≫= (λ a, [g a]) = g <$> l.
Proof. induction l as [| a l IH]; [reflexivity |]. cbn. rewrite <- IH. reflexivity. Qed.

(** Looking up in a table laid out row by row. *)
Lemma lookup_bind_uniform {A B} (g : A -> list B) (n : nat) (l : list A) :
  (forall a, length (g a) = n) ->
  forall i j, (j < n)%nat ->
    (l ≫= g) !! (i * n + j)%nat = l !! i ≫= (λ a, g a !! j).
Proof.
  intros Hlen. induction l as [| a l IH]; intros i j Hj.
  - rewrite !lookup_nil. reflexivity.
  - change ((a :: l) ≫= g) with (g a ++ (l ≫= g)).
    destruct i as [| i].
    + cbn [Nat.mul Nat.add lookup list_lookup mbind option_bind].
      apply lookup_app_l. rewrite Hlen. exact Hj.
    + rewrite lookup_app_r by (rewrite Hlen; lia).
      rewrite Hlen.
      replace (S i * n + j - n)%nat with (i * n + j)%nat by lia.
      rewrite IH by exact Hj. reflexivity.
Qed.

Lemma lookup_rows {B} (f : Z -> Z -> B) (C R c r : Z) :
  0 <= c < C -> 0 <= r < R ->
  (seqZ 0 R ≫= (λ r, seqZ 0 C ≫= (λ c, [f c r]))) !! Z.to_nat (r * C + c)
  = Some (f c r).
Proof.
  intros Hc Hr.
  replace (Z.to_nat (r * C + c))
    with (Z.to_nat r * Z.to_nat C + Z.to_nat c)%nat by nia.
  rewrite (lookup_bind_uniform _ (Z.to_nat C)).
  - rewrite lookup_seqZ_lt by lia. cbn [mbind option_bind].
    rewrite bind_singleton, list_lookup_fmap, lookup_seqZ_lt by lia.
    cbn [fmap option_fmap option_map]. f_equal. f_equal; lia.
  - intros a. rewrite bind_singleton, length_fmap, length_seqZ. reflexivity.
  - lia.
Qed.

Section Facts.

Variable M : MathLib.
Variables W H : Q.
Variable navBlocked : list Z.

(** X16. The grid as [rebuildNavGrid] fills it. With [navBlocked] as built by
    [rebuildNavGrid], [isBlocked(c, r)] is true exactly for the cells out
    of bounds and for the cells whose 4 x 4 probe, centred on
    [cellCenter(c, r)], meets a wall inflated by ten pixels on each side. *)
Theorem rebuildNavGrid_isBlocked (c r : Z) :
  isBlocked W H (rebuildNavGrid W H) c r
  = negb (inBounds W H c r)
    || existsb
         (intersectsAABB
            (rect (vx_ (cellCenter c r) - 2) (vy_ (cellCenter c r) - 2) 4 4))
         (map (λ wl, rect (x wl - 10) (y wl - 10) (w wl + 10 * 2)
                          (h wl + 10 * 2))%Q
              (walls W H)).
Proof.
  unfold isBlocked.
  destruct (inBounds W H c r) eqn:Hin; [| reflexivity].
  cbn [negb orb]. apply inBounds_true in Hin. destruct Hin as [Hc Hr].
  unfold get, navIdx.
  destruct (r * NAV_COLS W + c <? 0) eqn:Eneg;
    [apply Z.ltb_lt in Eneg; nia |].
  unfold rebuildNavGrid. cbv zeta.
  rewrite (lookup_rows _ (NAV_COLS W) (NAV_ROWS H) c r Hc Hr).
  unfold cellCenter. cbn [vx_ vy_].
  destruct (existsb _ _); reflexivity.
Qed.

(** X17. Indices and cells. On a grid with at least one column, an index
    [i] below [NAV_COLS * NAV_ROWS] is the index of exactly one cell in
    bounds: the cell [(i - r * NAV_COLS, r)] with [r = floor(i / NAV_COLS)]
    that [aStar] computes from it. *)
Theorem navIdx_cellOf (i : Z) :
  0 < NAV_COLS W ->
  0 <= i < NAV_COLS W * NAV_ROWS H ->
  inBounds W H (fst (cellOf W i)) (snd (cellOf W i)) = true /\
  navIdx W (fst (cellOf W i)) (snd (cellOf W i)) = i /\
  forall c r, inBounds W H c r = true -> navIdx W c r = i ->
              cellOf W i = (c, r).
Proof.
  intros Hcols Hi. unfold cellOf, navIdx. cbn [fst snd].
  pose proof (Z.div_mod i (NAV_COLS W) ltac:(lia)) as Hdm.
  pose proof (Z.mod_pos_bound i (NAV_COLS W) Hcols) as Hmod.
  assert (Hrow : 0 <= i / NAV_COLS W < NAV_ROWS H).
  { split; [apply Z.div_pos; lia |].
    apply Z.div_lt_upper_bound; lia. }
  split; [| split].
  - apply inBounds_true. split; [nia | exact Hrow].
  - lia.
  - intros c r Hin Hidx. rewrite <- Hidx.
    apply (cellOf_navIdx W H c r Hin).
Qed.

(** X18. The cell of a point. On a grid with at least one column and one
    row, [pointToCell] always gives a cell in bounds whose key is
    [`${c},${r}`]; and for a point over the grid it is the cell whose 22 x 22
    square holds the point. *)
Theorem pointToCell_in_grid (px py : Q) :
  1 <= NAV_COLS W -> 1 <= NAV_ROWS H ->
  let tc := pointToCell W H px py in
  inBounds W H (col tc) (row tc) = true /\
  key tc = cellKey (col tc) (row tc) /\
  ((0 <= px < inject_Z (NAV_COLS W * NAV_CELL))%Q ->
   (inject_Z (col tc * NAV_CELL) <= px
    < inject_Z ((col tc + 1) * NAV_CELL))%Q) /\
  ((0 <= py < inject_Z (NAV_ROWS H * NAV_CELL))%Q ->
   (inject_Z (row tc * NAV_CELL) <= py
    < inject_Z ((row tc + 1) * NAV_CELL))%Q).
Proof.
  intros Hcols Hrows tc. subst tc. unfold pointToCell. cbv zeta.
  cbn [col row key].
  assert (Hcell : forall (v : Q) (n : Z), 1 <= n ->
    0 <= clampZ (Qfloor (v / inject_Z NAV_CELL)) 0 (n - 1) < n /\
    ((0 <= v < inject_Z (n * NAV_CELL))%Q ->
     (inject_Z (clampZ (Qfloor (v / inject_Z NAV_CELL)) 0 (n - 1) * NAV_CELL)
      <= v
      < inject_Z ((clampZ (Qfloor (v / inject_Z NAV_CELL)) 0 (n - 1) + 1)
                  * NAV_CELL))%Q)).
  { intros v n Hn. unfold clampZ. split; [lia |].
    intros [Hlo Hhi].
    set (q := (v / inject_Z NAV_CELL)%Q).
    assert (Hv : (v == q * 22)%Q) by (subst q; unfold NAV_CELL; field).
    pose proof (Qfloor_le q) as Hfl. pose proof (Qlt_floor q) as Hfu.
    rewrite inject_Z_plus in Hfu. change (inject_Z 1) with 1%Q in Hfu.
    rewrite inject_Z_mult in Hhi. change (inject_Z NAV_CELL) with 22%Q in Hhi.
    assert (H1 : (inject_Z (-1) < inject_Z (Qfloor q))%Q).
    { change (inject_Z (-1)) with (-1)%Q. lra. }
    assert (H2 : (inject_Z (Qfloor q) < inject_Z n)%Q) by lra.
    rewrite <- Zlt_Qlt in H1, H2.
    replace (Z.max 0 (Z.min (n - 1) (Qfloor q))) with (Qfloor q) by lia.
    rewrite !inject_Z_mult, inject_Z_plus.
    change (inject_Z NAV_CELL) with 22%Q. change (inject_Z 1) with 1%Q.
    lra. }
  destruct (Hcell px (NAV_COLS W) Hcols) as [Hc Hcx].
  destruct (Hcell py (NAV_ROWS H) Hrows) as [Hr Hry].
  split; [apply inBounds_true; split; assumption |].
  split; [reflexivity |]. split; assumption.
Qed.

(** *** The search from the start cell *)

(** What relaxing one neighbour does to the arrays. *)
Lemma relax_cases goal cur s d :
  let nc := fst (cellOf W cur) + fst d in
  let nr := snd (cellOf W cur) + snd d in
  let ni := navIdx W nc nr in
  let tentative := (λ g, g + 1) <$> get (gScore s) cur in
  let s' := relax W H navBlocked goal cur s d in
  (s' = s /\
   (inBounds W H nc nr = false \/ isBlocked W H navBlocked nc nr = true \/
    default false (get (inClosed s) ni) = true \/
    lt_opt tentative (get (gScore s) ni) = false)) \/
  (inBounds W H nc nr = true /\ isBlocked W H navBlocked nc nr = false /\
   default false (get (inClosed s) ni) = false /\
   lt_opt tentative (get (gScore s) ni) = true /\
   gScore s' = set (gScore s) ni (default 0 tentative) /\
   cameFrom s' = set (cameFrom s) ni cur /\
   inClosed s' = inClosed s /\
   ((default false (get (inOpen s) ni) = true /\
     inOpen s' = inOpen s /\ openList s' = openList s) \/
    (default false (get (inOpen s) ni) = false /\
     inOpen s' = set (inOpen s) ni true /\
     openList s' = openList s ++ [ni]))).
Proof.
  unfold relax. destruct (cellOf W cur) as [cc cr]. cbn [fst snd]. cbv zeta.
  destruct (inBounds W H (cc + fst d) (cr + snd d)); cbn [negb]; [| auto].
  destruct (isBlocked W H navBlocked (cc + fst d) (cr + snd d)); [auto |].
  destruct (default false (get (inClosed s) _)); [auto 6 |].
  destruct (lt_opt _ _); [| auto 6].
  right. cbn [inOpen].
  destruct (default false (get (inOpen s) _)); cbn [negb];
    cbn [gScore cameFrom inClosed inOpen openList]; auto 12.
Qed.

Lemma initSearch_rooted start goal :
  rooted (navIdx W (fst start) (snd start)) (initSearch W H start goal).
Proof.
  intros i _ [Hcl | Hop]; cbn [initSearch inClosed openList] in *.
  - apply get_replicate in Hcl. discriminate.
  - apply list_elem_of_singleton in Hop. exact Hop.
Qed.

Lemma pop_rooted si s bestI cur :
  rooted si s ->
  openList s !! bestI = Some cur ->
  rooted si (mkSearch (gScore s) (fScore s) (cameFrom s)
                      (set (inOpen s) cur false) (set (inClosed s) cur true)
                      (delete bestI (openList s))).
Proof.
  intros Hroot Hcur i Hcf Hor. cbn [cameFrom inClosed openList] in *.
  apply (Hroot i Hcf).
  destruct Hor as [Hcl | Hop].
  - apply get_set_cases in Hcl. destruct Hcl as [[-> _] | Hcl]; [| auto].
    right. eapply list_elem_of_lookup_2. exact Hcur.
  - right. eapply list_elem_of_delete_inv. exact Hop.
Qed.

Lemma relax_rooted si goal cur s d :
  rooted si s -> 0 <= cur ->
  rooted si (relax W H navBlocked goal cur s d).
Proof.
  intros Hroot Hcur.
  destruct (relax_cases goal cur s d)
    as [[-> _] | (_ & _ & _ & _ & _ & Hcf & Hcl & Hopen)]; [exact Hroot |].
  intros i Hi Hor. rewrite Hcf in Hi. rewrite Hcl in Hor.
  set (ni := navIdx W (fst (cellOf W cur) + fst d)
                    (snd (cellOf W cur) + snd d)) in *.
  destruct (decide (i = ni)) as [-> | Hne].
  - pose proof (get_Some_range _ _ _ Hi) as Hrange.
    rewrite length_set in Hrange.
    rewrite get_set_eq in Hi by exact Hrange. injection Hi as Hi. lia.
  - rewrite get_set_ne in Hi by congruence.
    apply (Hroot i Hi).
    destruct Hor as [Hc | Hop]; [auto |]. right.
    destruct Hopen as [(_ & _ & Ho) | (_ & _ & Ho)]; rewrite Ho in Hop;
      [exact Hop |].
    apply elem_of_app in Hop. destruct Hop as [Hop | Hop]; [exact Hop |].
    apply list_elem_of_singleton in Hop. contradiction.
Qed.

Lemma fold_relax_rooted si goal cur ds : forall s,
  rooted si s -> 0 <= cur ->
  rooted si (fold_left (relax W H navBlocked goal cur) ds s).
Proof.
  induction ds as [| d ds IH]; intros s Hroot Hcur; [exact Hroot |].
  cbn [fold_left]. apply IH; [apply relax_rooted; assumption | exact Hcur].
Qed.

(** Walking back along [cameFrom] from a closed cell ends at the start
    cell. *)
Lemma reconstruct_rooted si s :
  searching W H s -> rooted si s ->
  forall fuel cur acc p,
    get (inClosed s) cur = Some true ->
    reconstruct W fuel (cameFrom s) cur acc = Some p ->
    exists rest, p = cellOf W si :: rest.
Proof.
  intros Hs Hroot.
  induction fuel as [| fuel IH]; intros cur acc p Hcl Hrec;
    pose proof (get_Some_range _ _ _ Hcl) as Hrange;
    cbn [reconstruct] in Hrec;
    (destruct (cur =? -1) eqn:Ecur; [apply Z.eqb_eq in Ecur; lia |]);
    [discriminate |].
  destruct (get (cameFrom s) cur) as [prev |] eqn:Hprev; [| discriminate].
  destruct (decide (prev = -1)) as [-> | Hne].
  - assert (Hp : p = cellOf W cur :: acc).
    { destruct fuel; cbn [reconstruct] in Hrec;
        change (-1 =? -1) with true in Hrec; cbv iota in Hrec; congruence. }
    rewrite (Hroot cur Hprev (or_introl Hcl)) in Hp. eauto.
  - destruct (links_ok _ _ _ Hs cur prev Hprev Hne) as [Hpc _].
    exact (IH prev _ p Hpc Hrec).
Qed.

Lemma searchLoop_rooted si goal : forall fuel s p,
  searching W H s -> rooted si s ->
  searchLoop W H navBlocked fuel goal s = Some (Some p) ->
  exists rest, p = cellOf W si :: rest.
Proof.
  induction fuel as [| fuel IH]; intros s p Hs Hroot Hrun; [discriminate |].
  cbn [searchLoop] in Hrun.
  destruct (openList s) as [| o rest] eqn:Eopen; [discriminate |].
  destruct ((o :: rest) !! bestIndex (fScore s) (o :: rest)) as [cur |] eqn:Hcur;
    [| discriminate].
  rewrite <- Eopen in Hcur.
  destruct (pop_searching W H s _ cur Hs Hcur) as (Hs1 & Hclosed1 & _).
  pose proof (pop_rooted si s _ cur Hroot Hcur) as Hroot1.
  rewrite Eopen in Hs1, Hclosed1, Hroot1.
  set (s1 := mkSearch (gScore s) (fScore s) (cameFrom s)
                      (set (inOpen s) cur false) (set (inClosed s) cur true)
                      (delete (bestIndex (fScore s) (o :: rest)) (o :: rest)))
    in *.
  pose proof (get_Some_range _ _ _ Hclosed1) as Hrange.
  destruct (cur =? navIdx W (fst goal) (snd goal)).
  - destruct (reconstruct W fuel (cameFrom s1) cur []) as [q |] eqn:Hrec;
      [| discriminate].
    injection Hrun as <-.
    exact (reconstruct_rooted si s1 Hs1 Hroot1 fuel cur [] q Hclosed1 Hrec).
  - destruct (fold_relax_searching W H navBlocked goal cur dirs s1 Hs1 Hclosed1)
      as [Hs2 _].
    refine (IH _ p Hs2 _ Hrun).
    apply fold_relax_rooted; [exact Hroot1 | lia].
Qed.

(** *** Completeness of the search *)

Lemma elem_of_delete_ne {A} (l : list A) k c i :
  l !! k = Some c -> i ∈ l -> i <> c -> i ∈ delete k l.
Proof.
  intros Hk Hin Hne. rewrite (delete_Permutation _ _ _ Hk) in Hin.
  apply elem_of_cons in Hin. destruct Hin as [-> | Hin]; [contradiction |].
  exact Hin.
Qed.

Lemma initSearch_exploring start goal cur done :
  inBounds W H (fst start) (snd start) = true ->
  exploring W H navBlocked (navIdx W (fst start) (snd start))
            (navIdx W (fst goal) (snd goal)) cur done
            (initSearch W H start goal).
Proof.
  intros Hstart. pose proof (inBounds_idx_range _ _ _ _ Hstart) as Hidx.
  unfold initSearch. fold (slots W H).
  set (si := navIdx W (fst start) (snd start)) in *.
  constructor; cbn [inOpen gScore inClosed openList].
  - intros i Hi. apply get_set_cases in Hi.
    destruct Hi as [[-> _] | Hi]; [apply list_elem_of_singleton; reflexivity |].
    apply get_replicate in Hi. discriminate.
  - intros i g Hi Hg. apply get_set_cases in Hi.
    destruct Hi as [[-> _] | Hi].
    + right. apply get_set_eq. rewrite length_replicate. exact Hidx.
    + apply get_replicate in Hi. lia.
  - right. apply list_elem_of_singleton. reflexivity.
  - intros Hi. apply get_replicate in Hi. discriminate.
  - intros j d Hj. apply get_replicate in Hj. discriminate.
Qed.

Lemma pop_exploring si gi c0 s bestI cur :
  searching W H s ->
  exploring W H navBlocked si gi c0 dirs s ->
  openList s !! bestI = Some cur ->
  cur <> gi ->
  exploring W H navBlocked si gi cur []
            (mkSearch (gScore s) (fScore s) (cameFrom s)
                      (set (inOpen s) cur false) (set (inClosed s) cur true)
                      (delete bestI (openList s))).
Proof.
  intros Hs [Hfl Hre Hst Hgo Hsp] Hcur Hne.
  assert (Hin : cur ∈ openList s) by (eapply list_elem_of_lookup_2; exact Hcur).
  destruct (open_ok _ _ _ Hs cur Hin) as (Hc & Ho & _).
  pose proof (get_Some_range _ _ _ Hc) as Hrc.
  pose proof (get_Some_range _ _ _ Ho) as Hro.
  assert (Hkeep : forall i,
    get (inClosed s) i = Some true \/ i ∈ openList s ->
    get (set (inClosed s) cur true) i = Some true \/
    i ∈ delete bestI (openList s)).
  { intros i Hi. destruct (decide (i = cur)) as [-> | Hic].
    - left. apply get_set_eq. exact Hrc.
    - rewrite get_set_ne by congruence.
      destruct Hi as [Hi | Hi]; [auto |].
      right. eapply elem_of_delete_ne; eauto. }
  constructor; cbn [inOpen gScore inClosed openList].
  - intros i Hi. destruct (decide (i = cur)) as [-> | Hic].
    + rewrite get_set_eq in Hi by exact Hro. discriminate.
    + rewrite get_set_ne in Hi by congruence.
      eapply elem_of_delete_ne; eauto.
  - intros i g Hi Hg. destruct (decide (i = cur)) as [-> | Hic].
    + left. apply get_set_eq. exact Hrc.
    + rewrite !get_set_ne by congruence. eapply Hre; eauto.
  - apply Hkeep. exact Hst.
  - rewrite get_set_ne by exact Hne. exact Hgo.
  - intros j d Hj Hd [Hjc | Hnil] Hfree; [| apply elem_of_nil in Hnil; tauto].
    rewrite get_set_ne in Hj by congruence.
    apply Hkeep. apply Hsp; auto.
Qed.

Lemma relax_exploring si gi goal cur done s d :
  Z.of_nat (slots W H) < 16777216 ->
  searching W H s ->
  get (inClosed s) cur = Some true ->
  exploring W H navBlocked si gi cur done s ->
  exploring W H navBlocked si gi cur (d :: done)
            (relax W H navBlocked goal cur s d).
Proof.
  intros Hbound Hs Hcur [Hfl Hre Hst Hgo Hsp].
  destruct (closed_ok _ _ _ Hs cur Hcur) as (gc & Hgc & Hgcr).
  assert (Hgcb : gc + 1 < 1000000000) by (unfold closedN in Hgcr; lia).
  destruct (sized _ _ _ Hs) as (Lc & Lo & Lg & Lf).
  pose proof (relax_cases goal cur s d) as Hcases. cbv zeta in Hcases.
  set (nc := fst (cellOf W cur) + fst d) in *.
  set (nr := snd (cellOf W cur) + snd d) in *.
  set (ni := navIdx W nc nr) in *.
  rewrite Hgc in Hcases. cbn [fmap option_fmap option_map] in Hcases.
  (* what remains to be shown once the new state is known to keep the
     closed cells and the members of the open list *)
  assert (Hextend : forall s',
    inClosed s' = inClosed s ->
    (forall i, i ∈ openList s -> i ∈ openList s') ->
    (forall i, get (inOpen s') i = Some true -> i ∈ openList s') ->
    (forall i g, get (gScore s') i = Some g -> g < 1000000000 ->
       get (inClosed s) i = Some true \/ get (inOpen s') i = Some true) ->
    (isBlocked W H navBlocked nc nr = false ->
     get (inClosed s) ni = Some true \/ ni ∈ openList s') ->
    exploring W H navBlocked si gi cur (d :: done) s').
  { intros s' Hcl Hop Hfl' Hre' Hnew.
    constructor; rewrite ?Hcl.
    - exact Hfl'.
    - exact Hre'.
    - destruct Hst as [Hst | Hst]; auto.
    - exact Hgo.
    - intros j d' Hj Hd' Hor Hfree.
      destruct (decide (j = cur /\ d' = d)) as [[-> ->] | Hnot].
      + apply Hnew. exact Hfree.
      + assert (Hold : j <> cur \/ d' ∈ done).
        { destruct Hor as [Hjc | Hin]; [auto |].
          apply elem_of_cons in Hin. destruct Hin as [-> | Hin]; [| auto].
          left. intros ->. apply Hnot. auto. }
        destruct (Hsp j d' Hj Hd' Hold Hfree) as [Hc | Ho]; auto. }
  destruct Hcases as [[-> Hwhy] | (Hin & Hfree & Hncl & Hlt & Hg' & _ & Hcl'
                                   & Hopen)].
  - apply Hextend; auto.
    intros Hfree.
    destruct Hwhy as [Hout | [Hblk | [Hclosed | Hlt]]].
    + rewrite (isBlocked_outside _ _ _ _ _ Hout) in Hfree. discriminate.
    + congruence.
    + left. destruct (get (inClosed s) ni) as [[|] |]; cbn in Hclosed;
        congruence.
    + pose proof (isBlocked_free_inBounds _ _ _ _ _ Hfree) as Hin.
      pose proof (inBounds_idx_range _ _ _ _ Hin) as Hni. fold ni in Hni.
      destruct (get_in_range (gScore s) ni) as [gn Hgn]; [lia |].
      rewrite Hgn in Hlt. cbn [lt_opt] in Hlt. apply Z.ltb_ge in Hlt.
      destruct (Hre ni gn Hgn ltac:(lia)) as [Hc | Ho]; auto.
  - pose proof (inBounds_idx_range _ _ _ _ Hin) as Hni. fold ni in Hni.
    assert (Hscore : forall s',
      gScore s' = set (gScore s) ni (gc + 1) ->
      get (inOpen s') ni = Some true ->
      (forall i, i <> ni -> get (inOpen s) i = Some true ->
                 get (inOpen s') i = Some true) ->
      forall i g, get (gScore s') i = Some g -> g < 1000000000 ->
        get (inClosed s) i = Some true \/ get (inOpen s') i = Some true).
    { intros s' Hgs Hon Hoth i g Hi Hg. rewrite Hgs in Hi.
      destruct (decide (i = ni)) as [-> | Hne]; [auto |].
      rewrite get_set_ne in Hi by congruence.
      destruct (Hre i g Hi Hg) as [Hc | Ho]; auto. }
    cbn [default from_option id] in Hg'.
    destruct Hopen as [(Hflag & Ho' & Hl') | (Hflag & Ho' & Hl')].
    + assert (Hon : get (inOpen s) ni = Some true).
      { destruct (get (inOpen s) ni) as [[|] |]; cbn in Hflag; congruence. }
      apply Hextend; auto.
      * rewrite Hl'. auto.
      * rewrite Ho', Hl'. exact Hfl.
      * apply Hscore; [exact Hg' | rewrite Ho'; exact Hon |].
        intros i _ Hi. rewrite Ho'. exact Hi.
      * intros _. right. rewrite Hl'. apply Hfl. exact Hon.
    + assert (Hon : get (set (inOpen s) ni true) ni = Some true)
        by (apply get_set_eq; lia).
      apply Hextend; auto.
      * intros i Hi. rewrite Hl'. apply elem_of_app. auto.
      * intros i Hi. rewrite Hl'. apply elem_of_app. rewrite Ho' in Hi.
        destruct (decide (i = ni)) as [-> | Hne].
        -- right. apply list_elem_of_singleton. reflexivity.
        -- rewrite get_set_ne in Hi by congruence. left. apply Hfl. exact Hi.
      * apply Hscore; [exact Hg' | rewrite Ho'; exact Hon |].
        intros i Hne Hi. rewrite Ho', get_set_ne by congruence. exact Hi.
      * intros _. right. rewrite Hl'. apply elem_of_app. right.
        apply list_elem_of_singleton. reflexivity.
Qed.

Lemma fold_relax_exploring si gi goal cur :
  Z.of_nat (slots W H) < 16777216 ->
  forall ds done s,
    searching W H s ->
    get (inClosed s) cur = Some true ->
    exploring W H navBlocked si gi cur done s ->
    exploring W H navBlocked si gi cur (rev ds ++ done)
              (fold_left (relax W H navBlocked goal cur) ds s).
Proof.
  intros Hbound.
  induction ds as [| d ds IH]; intros done s Hs Hcur Hex; [exact Hex |].
  cbn [fold_left rev]. rewrite <- app_assoc. cbn [app].
  destruct (relax_searching W H navBlocked goal cur s d Hs Hcur) as [Hs' Hc'].
  apply IH; [exact Hs' | rewrite Hc'; exact Hcur |].
  apply relax_exploring; assumption.
Qed.

Lemma exploring_all si gi cur c' done s :
  (forall d, d ∈ dirs -> d ∈ done) ->
  exploring W H navBlocked si gi cur done s ->
  exploring W H navBlocked si gi c' dirs s.
Proof.
  intros Hall [Hfl Hre Hst Hgo Hsp].
  constructor; try assumption.
  intros j d Hj Hd _ Hfree. apply Hsp; auto.
Qed.

Lemma adjacent_dir a b :
  adjacent a b -> (fst b - fst a, snd b - snd a) ∈ dirs.
Proof.
  unfold adjacent, dirs. intros Hadj.
  assert (Hc : (fst b - fst a = 1 /\ snd b - snd a = 0) \/
               (fst b - fst a = -1 /\ snd b - snd a = 0) \/
               (fst b - fst a = 0 /\ snd b - snd a = 1) \/
               (fst b - fst a = 0 /\ snd b - snd a = -1)) by lia.
  rewrite !elem_of_cons.
  destruct Hc as [[-> ->] | [[-> ->] | [[-> ->] | [-> ->]]]]; auto.
Qed.

(** Once the open list is empty, the closed cells are all that can be
    reached from the start cell, and the goal is not among them. *)
Lemma closed_no_route start goal c s :
  exploring W H navBlocked (navIdx W (fst start) (snd start))
            (navIdx W (fst goal) (snd goal)) c dirs s ->
  openList s = [] ->
  forall p, ~ route W H navBlocked start goal p.
Proof.
  intros [Hfl Hre Hst Hgo Hsp] Hempty p (Hhead & Hlast & Hstep & Hfree).
  rewrite Hempty in *.
  assert (Hall : forall k a, p !! k = Some a ->
            get (inClosed s) (navIdx W (fst a) (snd a)) = Some true).
  { induction k as [| k IH]; intros a Hk.
    - rewrite <- head_lookup, Hhead in Hk. injection Hk as <-.
      destruct Hst as [Hst | Hst]; [exact Hst |].
      apply elem_of_nil in Hst. tauto.
    - destruct (lookup_lt_is_Some_2 p k) as [a0 Ha0].
      { apply lookup_lt_Some in Hk. lia. }
      pose proof (IH a0 Ha0) as Hc0.
      pose proof (Hstep k a0 a Ha0 Hk) as Hadj.
      rewrite Forall_lookup in Hfree.
      pose proof (Hfree k a0 Ha0) as Hf0. pose proof (Hfree (S k) a Hk) as Hf.
      unfold free in Hf0, Hf.
      pose proof (cellOf_navIdx W H _ _
                    (isBlocked_free_inBounds _ _ _ _ _ Hf0)) as Hcell.
      pose proof (Hsp _ _ Hc0 (adjacent_dir a0 a Hadj)
                    (or_intror (adjacent_dir a0 a Hadj))) as Hnext.
      rewrite Hcell in Hnext. cbn [fst snd] in Hnext.
      replace (fst a0 + (fst a - fst a0)) with (fst a) in Hnext by lia.
      replace (snd a0 + (snd a - snd a0)) with (snd a) in Hnext by lia.
      destruct (Hnext Hf) as [Hc | Ho]; [exact Hc |].
      apply elem_of_nil in Ho. tauto. }
  rewrite last_lookup in Hlast.
  apply Hgo. exact (Hall _ _ Hlast).
Qed.

Lemma searchLoop_null start goal :
  Z.of_nat (slots W H) < 16777216 ->
  forall fuel s c,
    searching W H s ->
    exploring W H navBlocked (navIdx W (fst start) (snd start))
              (navIdx W (fst goal) (snd goal)) c dirs s ->
    searchLoop W H navBlocked fuel goal s = Some None ->
    forall p, ~ route W H navBlocked start goal p.
Proof.
  intros Hbound.
  induction fuel as [| fuel IH]; intros s c Hs Hex Hrun; [discriminate |].
  cbn [searchLoop] in Hrun.
  destruct (openList s) as [| o rest] eqn:Eopen.
  { exact (closed_no_route start goal c s Hex Eopen). }
  destruct ((o :: rest) !! bestIndex (fScore s) (o :: rest)) as [cur |] eqn:Hcur;
    [| discriminate].
  rewrite <- Eopen in Hcur.
  destruct (pop_searching W H s _ cur Hs Hcur) as (Hs1 & Hclosed1 & _).
  destruct (cur =? navIdx W (fst goal) (snd goal)) eqn:Egoal.
  { destruct (reconstruct W fuel _ cur []); discriminate. }
  apply Z.eqb_neq in Egoal.
  pose proof (pop_exploring _ _ c s _ cur Hs Hex Hcur Egoal) as Hex1.
  rewrite Eopen in Hs1, Hclosed1, Hex1.
  set (s1 := mkSearch (gScore s) (fScore s) (cameFrom s)
                      (set (inOpen s) cur false) (set (inClosed s) cur true)
                      (delete (bestIndex (fScore s) (o :: rest)) (o :: rest)))
    in *.
  destruct (fold_relax_searching W H navBlocked goal cur dirs s1 Hs1 Hclosed1)
    as [Hs2 _].
  pose proof (fold_relax_exploring _ _ goal cur Hbound dirs [] s1 Hs1 Hclosed1
                Hex1) as Hex2.
  refine (IH _ cur Hs2 _ Hrun).
  apply (exploring_all _ _ cur cur (rev dirs ++ [])); [| exact Hex2].
  intros d Hd. rewrite app_nil_r.
  apply list_elem_of_In. apply -> in_rev. apply list_elem_of_In. exact Hd.
Qed.

(** X19. [aStar] finds a route exactly when there is one. On a grid of fewer
    than 2^24 cells (where the [Float32Array] scores are exact), from a free
    start cell to a goal cell in bounds and with fuel for more than twice
    the cells, [aStar] either returns a walk over free cells from the start
    to the goal, each step to a 4-neighbour, or returns [null], and then no
    such walk exists. *)
Theorem aStar_finds_route (fuel : nat) (start goal : Z * Z) :
  free W H navBlocked start ->
  inBounds W H (fst goal) (snd goal) = true ->
  Z.of_nat (slots W H) < 16777216 ->
  (2 * slots W H < fuel)%nat ->
  (exists p, aStar W H navBlocked fuel start goal = Some (Some p) /\
             route W H navBlocked start goal p) \/
  (aStar W H navBlocked fuel start goal = Some None /\
   forall p, ~ route W H navBlocked start goal p).
Proof.
  intros Hfree Hgoal Hbound Hfuel.
  pose proof (isBlocked_free_inBounds _ _ _ _ _ Hfree) as Hstart.
  destruct (aStar_total W H navBlocked fuel start goal Hstart Hfuel)
    as [[p |] Hr]; unfold aStar in *;
    destruct (initSearch_searching W H start goal Hstart) as [Hs _].
  - left. exists p. split; [exact Hr |].
    destruct (searchLoop_rooted _ goal fuel _ p Hs
                (initSearch_rooted start goal) Hr) as [rest Hhead].
    destruct (searchLoop_path W H navBlocked goal Hgoal fuel _ p
                (initSearch_linked W H navBlocked start goal) Hr)
      as (pre & Hlast & Hstep & Htail).
    rewrite (cellOf_navIdx W H _ _ Hstart) in Hhead.
    split; [| split; [| split]].
    + rewrite Hhead. destruct start. reflexivity.
    + rewrite Hlast, last_snoc. destruct goal. reflexivity.
    + exact Hstep.
    + rewrite Hhead in *. cbn [tail] in Htail.
      apply Forall_cons. split; [| exact Htail].
      destruct start. exact Hfree.
  - right. split; [exact Hr |].
    exact (searchLoop_null start goal Hbound fuel _ 0 Hs
             (initSearch_exploring start goal 0 dirs Hstart) Hr).
Qed.

(** *** Following the path *)

Lemma followPath_steps dt speed m :
  0 <= pathIdx m <= Z.of_nat (length (path m)) ->
  exists ok m',
    followPath M W H dt speed m = Some (ok, m') /\
    ok = negb (Z.of_nat (length (path m)) <=? pathIdx m) /\
    (ok = false -> m' = m) /\
    path m' = path m /\
    0 <= pathIdx m' <= Z.of_nat (length (path m')) /\
    (pathIdx m' = pathIdx m \/
     pathIdx m' = pathIdx m + 1 /\ base m' = base m) /\
    w (mbody (base m')) = w (mbody (base m)) /\
    h (mbody (base m')) = h (mbody (base m)) /\
    nextPathAt m' = nextPathAt m /\ lastTargetKey m' = lastTargetKey m.
Proof.
  intros Hidx. unfold followPath.
  destruct (Z.of_nat (length (path m)) <=? pathIdx m) eqn:Eend.
  - rewrite orb_true_r. exists false, m. repeat split; auto; lia.
  - apply Z.leb_gt in Eend.
    assert (Hlen : (length (path m) =? 0)%nat = false)
      by (apply Nat.eqb_neq; lia).
    rewrite Hlen. cbn [orb]. cbv zeta.
    destruct (get_in_range (path m) (pathIdx m)) as [wp Hwp]; [lia |].
    rewrite Hwp. cbn [mbind option_bind].
    destruct (Qltb _ 6).
    + eexists _, _. split; [reflexivity |].
      cbn [path pathIdx base nextPathAt lastTargetKey].
      repeat split; auto; try lia; discriminate.
    + match goal with |- context [norm M ?a ?b] =>
        destruct (norm_total M a b) as (v & Hv & _); rewrite Hv
      end.
      cbn [mbind option_bind].
      destruct (moveEntity_size W H (mbody (base m)) (vx_ v * speed)
                  (vy_ v * speed) dt) as [Hw Hh].
      eexists _, _. split; [reflexivity |].
      cbn [path pathIdx base nextPathAt lastTargetKey mbody with_mbody].
      repeat split; auto; try lia; discriminate.
Qed.

(** X20. The cursor of [followPath]. With [pathIdx] between zero and the
    length of [path], [followPath] returns false exactly when the path is
    used up, and then changes nothing; otherwise it returns true and either
    moves [pathIdx] one way point on, leaving the dragon where it is, or
    moves the dragon and keeps [pathIdx]. Either way [path], the size of the
    dragon and the planning fields are kept, and [pathIdx] stays between
    zero and the length of [path]. *)
Theorem followPath_cursor (dt speed : Q) (m : NavMonster) :
  0 <= pathIdx m <= Z.of_nat (length (path m)) ->
  exists ok m',
    followPath M W H dt speed m = Some (ok, m') /\
    ok = negb (Z.of_nat (length (path m)) <=? pathIdx m) /\
    (ok = false -> m' = m) /\
    path m' = path m /\
    0 <= pathIdx m' <= Z.of_nat (length (path m')) /\
    (pathIdx m' = pathIdx m \/
     pathIdx m' = pathIdx m + 1 /\ base m' = base m) /\
    w (mbody (base m')) = w (mbody (base m)) /\
    h (mbody (base m')) = h (mbody (base m)) /\
    nextPathAt m' = nextPathAt m /\ lastTargetKey m' = lastTargetKey m.
Proof.
  intros Hidx.
  destruct (followPath_steps dt speed m Hidx) as (ok & m' & Hrun & Hrest).
  exists ok, m'. split; [exact Hrun | exact Hrest].
Qed.

(** X21. A plan can be followed. When [buildPathTo] returns true, the first
    way point it installs is the centre of a free cell next to the cell of
    the dragon, and the [followPath] that comes after returns true, whatever
    the time step and the speed. *)
Theorem buildPathTo_first_step (fuel : nat) (targetX targetY : Q)
        (m m' : NavMonster) :
  buildPathTo W H navBlocked fuel targetX targetY m = Some (true, m') ->
  let mc := monsterCell W H m in
  exists c1 rest,
    path m' = cellCenter (fst c1) (snd c1) :: rest /\
    adjacent (col mc, row mc) c1 /\
    free W H navBlocked c1 /\
    forall dt speed, exists m'',
      followPath M W H dt speed m' = Some (true, m'').
Proof.
  intros Hok mc. unfold buildPathTo in Hok. fold mc in Hok.
  revert Hok.
  generalize (retarget W H navBlocked (pointToCell W H targetX targetY)).
  intros tc Hok. unfold planTo in Hok.
  destruct (isBlocked W H navBlocked (col mc) (row mc)) eqn:Estart;
    [discriminate |].
  destruct (isBlocked W H navBlocked (col tc) (row tc)) eqn:Egoal;
    [discriminate |].
  cbv zeta in Hok. cbn [orb] in Hok.
  destruct (aStar W H navBlocked fuel (col mc, row mc) (col tc, row tc))
    as [[cells |] |] eqn:Hsearch; [| discriminate | discriminate].
  destruct (length cells <? 2)%nat eqn:Elen; [discriminate |].
  injection Hok as <-. apply Nat.ltb_ge in Elen.
  unfold aStar in Hsearch.
  pose proof (isBlocked_free_inBounds _ _ _ _ _ Estart) as Hstart.
  pose proof (isBlocked_free_inBounds _ _ _ _ _ Egoal) as Hgoal.
  destruct (initSearch_searching W H (col mc, row mc) (col tc, row tc) Hstart)
    as [Hs _].
  destruct (searchLoop_rooted _ _ fuel _ cells Hs
              (initSearch_rooted (col mc, row mc) (col tc, row tc)) Hsearch)
    as [rest0 Hhead].
  destruct (searchLoop_path W H navBlocked (col tc, row tc) Hgoal fuel _ cells
              (initSearch_linked W H navBlocked _ _) Hsearch)
    as (_ & _ & Hstep & Hfree).
  cbn [fst snd] in Hhead.
  rewrite (cellOf_navIdx W H _ _ Hstart) in Hhead. subst cells.
  destruct rest0 as [| c1 rest]; [cbn in Elen; lia |].
  exists c1, (map (λ p, cellCenter (fst p) (snd p)) rest).
  cbn [path tail map].
  split; [reflexivity |].
  split; [exact (Hstep 0%nat _ _ eq_refl eq_refl) |].
  split; [apply Forall_cons in Hfree; tauto |].
  intros dt speed. unfold followPath.
  cbn [path pathIdx base length Nat.eqb orb].
  change (Z.of_nat (S (length (map (λ p, cellCenter (fst p) (snd p)) rest)))
          <=? 0) with false.
  cbv iota zeta.
  assert (Hget : forall (a : Vec) l, get (a :: l) 0 = Some a) by reflexivity.
  rewrite Hget. cbn [mbind option_bind].
  destruct (Qltb _ 6); [eauto |].
  match goal with |- context [norm M ?a ?b] =>
    destruct (norm_total M a b) as (v & Hv & _); rewrite Hv
  end.
  cbn [mbind option_bind]. eauto.
Qed.

(** *** The path found is a shortest one *)

Lemma route_single a : free W H navBlocked a -> route W H navBlocked a a [a].
Proof.
  intros Ha. repeat split.
  - intros i u v Hu Hv. destruct i; discriminate.
  - apply Forall_singleton. exact Ha.
Qed.

Lemma route_snoc a b c q :
  route W H navBlocked a b q -> adjacent b c -> free W H navBlocked c ->
  route W H navBlocked a c (q ++ [c]) /\
  length (q ++ [c]) = S (length q).
Proof.
  intros (Hhead & Hlast & Hstep & Hfree) Hadj Hc.
  split; [| rewrite length_app; cbn; lia].
  destruct (last_Some q b) as [[pre ->] _]; [exact Hlast |].
  repeat split.
  - destruct pre; exact Hhead.
  - rewrite last_snoc. reflexivity.
  - rewrite <- app_assoc. apply stepwise_snoc; assumption.
  - apply Forall_app. split; [exact Hfree | apply Forall_singleton; exact Hc].
Qed.

Lemma route_prefix a b q k v :
  route W H navBlocked a b q -> q !! k = Some v ->
  route W H navBlocked a v (take (S k) q) /\
  length (take (S k) q) = S k.
Proof.
  intros (Hhead & Hlast & Hstep & Hfree) Hk.
  pose proof (lookup_lt_Some _ _ _ Hk) as Hlt.
  split; [| rewrite length_take; lia].
  repeat split.
  - destruct q; [discriminate | exact Hhead].
  - rewrite last_lookup, length_take.
    replace (Init.Nat.pred (S k `min` length q)) with k by lia.
    rewrite lookup_take_lt by lia. exact Hk.
  - intros i u w Hu Hw.
    pose proof (lookup_lt_Some _ _ _ Hw) as Hi. rewrite length_take in Hi.
    rewrite lookup_take_lt in Hu by lia. rewrite lookup_take_lt in Hw by lia.
    exact (Hstep i u w Hu Hw).
  - apply Forall_take. exact Hfree.
Qed.

(** The Manhattan distance to the goal changes by at most one per step. *)
Lemma manhattan_walk goal q :
  stepwise q ->
  forall n k v u,
    q !! k = Some v -> q !! (k + n)%nat = Some u ->
    manhattan goal (fst v) (snd v)
    <= Z.of_nat n + manhattan goal (fst u) (snd u).
Proof.
  intros Hstep. induction n as [| n IH]; intros k v u Hv Hu.
  - rewrite Nat.add_0_r in Hu. assert (u = v) by congruence. subst. lia.
  - destruct (lookup_lt_is_Some_2 q (k + n)%nat) as [m Hm].
    { apply lookup_lt_Some in Hu. lia. }
    pose proof (IH k v m Hv Hm) as Hle.
    replace (k + S n)%nat with (S (k + n)) in Hu by lia.
    pose proof (Hstep _ _ _ Hm Hu) as Hadj.
    unfold adjacent in Hadj. unfold manhattan in *. lia.
Qed.

(** The linear scan returns a position of least [fScore]. *)
Lemma scanBest_min fS (fv : Z -> Z) open :
  (forall o, o ∈ open -> get fS o = Some (fv o)) ->
  forall rest i bestI,
    drop i open = rest -> (bestI < i)%nat ->
    (forall k o b, (k < i)%nat -> open !! k = Some o ->
                   open !! bestI = Some b -> fv b <= fv o) ->
    forall k o b, open !! k = Some o ->
                  open !! scanBest fS open rest i bestI = Some b ->
                  fv b <= fv o.
Proof.
  intros Hfv. induction rest as [| oi rest IH]; intros i bestI Hdrop Hb Hmin.
  - cbn [scanBest]. intros k o b Hk Hbest.
    apply (Hmin k o b); [| exact Hk | exact Hbest].
    apply lookup_lt_Some in Hk.
    assert (Hlen : length (drop i open) = 0%nat) by (rewrite Hdrop; reflexivity).
    rewrite length_drop in Hlen. lia.
  - cbn [scanBest].
    assert (Hoi : open !! i = Some oi).
    { pose proof (lookup_drop open i 0) as Hd.
      rewrite Hdrop, Nat.add_0_r in Hd. cbn in Hd. symmetry. exact Hd. }
    assert (Hrest : drop (S i) open = rest).
    { replace (S i) with (i + 1)%nat by lia.
      rewrite <- drop_drop, Hdrop. reflexivity. }
    destruct (lookup_lt_is_Some_2 open bestI) as [b0 Hb0].
    { apply lookup_lt_Some in Hoi. lia. }
    rewrite Hb0. cbn [mbind option_bind].
    rewrite (Hfv oi) by (eapply list_elem_of_lookup_2; exact Hoi).
    rewrite (Hfv b0) by (eapply list_elem_of_lookup_2; exact Hb0).
    cbn [lt_opt].
    destruct (fv oi <? fv b0) eqn:Elt;
      [apply Z.ltb_lt in Elt | apply Z.ltb_ge in Elt];
      apply IH; try exact Hrest; try lia.
    + intros k o b Hk Ho Hbb. assert (b = oi) by congruence. subst b.
      destruct (decide (k = i)) as [-> | Hne].
      * assert (o = oi) by congruence. subst. lia.
      * pose proof (Hmin k o b0 ltac:(lia) Ho Hb0). lia.
    + intros k o b Hk Ho Hbb. assert (b = b0) by congruence. subst b.
      destruct (decide (k = i)) as [-> | Hne].
      * assert (o = oi) by congruence. subst. lia.
      * apply (Hmin k o b0); [lia | exact Ho | exact Hb0].
Qed.

Lemma bestIndex_min fS (fv : Z -> Z) open cur :
  (forall o, o ∈ open -> get fS o = Some (fv o)) ->
  open !! bestIndex fS open = Some cur ->
  forall o, o ∈ open -> fv cur <= fv o.
Proof.
  intros Hfv Hcur o Ho.
  apply list_elem_of_lookup in Ho. destruct Ho as [k Hk].
  unfold bestIndex in Hcur.
  destruct open as [| o0 rest]; [discriminate |].
  refine (scanBest_min fS fv (o0 :: rest) Hfv (tail (o0 :: rest)) 1 0
            eq_refl ltac:(lia) _ k o cur Hk Hcur).
  intros k' o' b Hk' Ho' Hb. assert (k' = 0%nat) by lia. subst k'.
  assert (o' = b) by congruence. subst. lia.
Qed.

Lemma navIdx_of_cellOf i : navIdx W (fst (cellOf W i)) (snd (cellOf W i)) = i.
Proof. unfold navIdx, cellOf. cbn [fst snd]. lia. Qed.

Lemma cellOf_free a :
  free W H navBlocked a -> cellOf W (navIdx W (fst a) (snd a)) = a.
Proof.
  intros Ha. rewrite (cellOf_navIdx W H _ _ (isBlocked_free_inBounds _ _ _ _ _ Ha)).
  destruct a. reflexivity.
Qed.

Lemma relax_fScore goal cur s d :
  let nc := fst (cellOf W cur) + fst d in
  let nr := snd (cellOf W cur) + snd d in
  let ni := navIdx W nc nr in
  let tentative := (λ g, g + 1) <$> get (gScore s) cur in
  inBounds W H nc nr = true -> isBlocked W H navBlocked nc nr = false ->
  default false (get (inClosed s) ni) = false ->
  lt_opt tentative (get (gScore s) ni) = true ->
  fScore (relax W H navBlocked goal cur s d)
  = set (fScore s) ni (default 0 tentative + manhattan goal nc nr).
Proof.
  unfold relax. destruct (cellOf W cur) as [cc cr]. cbn [fst snd]. cbv zeta.
  intros -> -> -> ->. cbn [negb inOpen].
  destruct (default false (get (inOpen s) _)); reflexivity.
Qed.

Lemma initSearch_settled start goal cur done :
  free W H navBlocked start ->
  settled W H navBlocked start goal cur done (initSearch W H start goal).
Proof.
  intros Hfree.
  pose proof (isBlocked_free_inBounds _ _ _ _ _ Hfree) as Hstart.
  pose proof (inBounds_idx_range _ _ _ _ Hstart) as Hidx.
  pose proof (cellOf_navIdx W H _ _ Hstart) as Hcell.
  unfold initSearch. fold (slots W H).
  set (si := navIdx W (fst start) (snd start)) in *.
  constructor; cbn [gScore fScore inClosed cameFrom openList].
  - apply get_set_eq. rewrite length_replicate. exact Hidx.
  - rewrite length_set, length_replicate. reflexivity.
  - intros i Hi. apply list_elem_of_singleton in Hi. subst i.
    exists 0. rewrite !get_set_eq by (rewrite length_replicate; exact Hidx).
    rewrite Hcell. cbn [fst snd]. split; [reflexivity |]. f_equal.
  - intros j g q Hj. apply get_replicate in Hj. discriminate.
  - intros i g Hi Hg. apply get_set_cases in Hi.
    destruct Hi as [[-> ->] | Hi]; [| apply get_replicate in Hi; lia].
    exists [start]. rewrite Hcell.
    split; [| reflexivity]. destruct start. apply route_single. exact Hfree.
  - intros j d gj Hj. apply get_replicate in Hj. discriminate.
  - intros i j Hij Hj. apply get_replicate in Hij. contradiction.
Qed.

(** The cell taken out of the open list has the least score a walk to it
    allows. *)
Lemma pop_best start goal c0 s cur :
  Z.of_nat (slots W H) < 8388608 ->
  searching W H s ->
  exploring W H navBlocked (navIdx W (fst start) (snd start))
            (navIdx W (fst goal) (snd goal)) c0 dirs s ->
  settled W H navBlocked start goal c0 dirs s ->
  openList s !! bestIndex (fScore s) (openList s) = Some cur ->
  forall g q,
    get (gScore s) cur = Some g ->
    route W H navBlocked start (cellOf W cur) q ->
    g + 1 <= Z.of_nat (length q).
Proof.
  intros Hbound Hs Hex Hse Hcur gu q Hgu Hq.
  destruct Hex as [Hfl Hre Hst _ _].
  destruct Hse as [Hg0 _ Hfo Hcb _ Hed _].
  assert (Hin : cur ∈ openList s) by (eapply list_elem_of_lookup_2; exact Hcur).
  destruct (open_ok _ _ _ Hs cur Hin) as (Hnc & _).
  pose proof Hq as (Hhead & Hlast & Hstep & Hfree).
  rewrite Forall_lookup in Hfree.
  assert (Hwalk : forall k v, q !! k = Some v ->
    get (inClosed s) (navIdx W (fst v) (snd v)) = Some true \/
    exists k0 v0 g0, (k0 <= k)%nat /\ q !! k0 = Some v0 /\
      navIdx W (fst v0) (snd v0) ∈ openList s /\
      get (gScore s) (navIdx W (fst v0) (snd v0)) = Some g0 /\
      g0 <= Z.of_nat k0).
  { induction k as [| k IH]; intros v Hv.
    - rewrite <- head_lookup, Hhead in Hv. injection Hv as <-.
      destruct Hst as [Hc | Ho]; [auto |].
      right. exists 0%nat, start, 0. repeat split; auto.
      + rewrite <- head_lookup. exact Hhead.
      + lia.
    - destruct (lookup_lt_is_Some_2 q k) as [a0 Ha0].
      { apply lookup_lt_Some in Hv. lia. }
      destruct (IH a0 Ha0) as [Hc0 | (k0 & v0 & g0 & Hk0 & Hv0 & Ho0 & Hg0' & Hle)].
      + pose proof (Hfree _ _ Ha0) as Hf0. pose proof (Hfree _ _ Hv) as Hf.
        pose proof (cellOf_free a0 Hf0) as Hcell.
        destruct (closed_ok _ _ _ Hs _ Hc0) as (gj & Hgj & Hgjr).
        destruct (route_prefix start _ q k a0 Hq Ha0) as [Hpre Hlen].
        rewrite <- Hcell in Hpre.
        pose proof (Hcb _ gj _ Hc0 Hgj Hpre) as Hbest. rewrite Hlen in Hbest.
        pose proof (Hstep _ _ _ Ha0 Hv) as Hadj.
        pose proof (Hed _ _ gj Hc0 (adjacent_dir a0 v Hadj)
                      (or_intror (adjacent_dir a0 v Hadj))) as Hedge.
        rewrite Hcell in Hedge. cbn [fst snd] in Hedge.
        replace (fst a0 + (fst v - fst a0)) with (fst v) in Hedge by lia.
        replace (snd a0 + (snd v - snd a0)) with (snd v) in Hedge by lia.
        destruct (Hedge Hf Hgj) as (gn & Hgn & Hgnle).
        assert (Hsmall : gn < 1000000000)
          by (unfold closedN in Hgjr; lia).
        destruct (Hre _ gn Hgn Hsmall) as [Hc | Ho]; [auto |].
        right. exists (S k), v, gn. repeat split; auto. lia.
      + right. exists k0, v0, g0. repeat split; auto. }
  rewrite last_lookup in Hlast.
  destruct (Hwalk _ _ Hlast) as [Hc | (k0 & v0 & g0 & Hk0 & Hv0 & Ho0 & Hg0' & Hle)].
  - rewrite navIdx_of_cellOf in Hc. congruence.
  - set (fv := fun o => default 0 (get (fScore s) o)).
    assert (Hfv : forall o, o ∈ openList s -> get (fScore s) o = Some (fv o)).
    { intros o Ho. destruct (Hfo o Ho) as (g' & _ & Hf').
      unfold fv. rewrite Hf'. reflexivity. }
    pose proof (bestIndex_min (fScore s) fv (openList s) cur Hfv Hcur _ Ho0)
      as Hmin.
    destruct (Hfo cur Hin) as (gu' & Hgu' & Hfu).
    destruct (Hfo _ Ho0) as (g0' & Hg0'' & Hf0).
    assert (gu' = gu) by congruence. assert (g0' = g0) by congruence.
    subst gu' g0'. unfold fv in Hmin. rewrite Hfu, Hf0 in Hmin.
    cbn [default from_option id] in Hmin.
    rewrite (cellOf_free v0 (Hfree _ _ Hv0)) in Hmin.
    pose proof (manhattan_walk goal q Hstep
                  (Init.Nat.pred (length q) - k0) k0 v0 (cellOf W cur) Hv0)
      as Hlip.
    replace (k0 + (Init.Nat.pred (length q) - k0))%nat
      with (Init.Nat.pred (length q)) in Hlip by lia.
    specialize (Hlip Hlast).
    apply lookup_lt_Some in Hlast. lia.
Qed.

Lemma pop_settled start goal c0 s cur :
  Z.of_nat (slots W H) < 8388608 ->
  searching W H s ->
  exploring W H navBlocked (navIdx W (fst start) (snd start))
            (navIdx W (fst goal) (snd goal)) c0 dirs s ->
  settled W H navBlocked start goal c0 dirs s ->
  openList s !! bestIndex (fScore s) (openList s) = Some cur ->
  settled W H navBlocked start goal cur []
          (mkSearch (gScore s) (fScore s) (cameFrom s)
                    (set (inOpen s) cur false) (set (inClosed s) cur true)
                    (delete (bestIndex (fScore s) (openList s)) (openList s))).
Proof.
  intros Hbound Hs Hex Hse Hcur.
  pose proof (pop_best start goal c0 s cur Hbound Hs Hex Hse Hcur) as Hbest.
  destruct Hse as [Hg0 Hfl Hfo Hcb Hrz Hed Hgl].
  constructor; cbn [gScore fScore inClosed cameFrom openList]; auto.
  - intros i Hi. apply Hfo. eapply list_elem_of_delete_inv. exact Hi.
  - intros j g q Hj Hg Hq. destruct (decide (j = cur)) as [-> | Hne].
    + exact (Hbest g q Hg Hq).
    + rewrite get_set_ne in Hj by congruence. exact (Hcb j g q Hj Hg Hq).
  - intros j d gj Hj Hd [Hjc | Hnil] Hfree Hgj;
      [| apply elem_of_nil in Hnil; tauto].
    rewrite get_set_ne in Hj by congruence.
    apply (Hed j d gj); auto.
Qed.

Lemma relax_settled start goal cur done s d :
  Z.of_nat (slots W H) < 8388608 ->
  d ∈ dirs ->
  searching W H s ->
  get (inClosed s) cur = Some true ->
  settled W H navBlocked start goal cur done s ->
  settled W H navBlocked start goal cur (d :: done) (relax W H navBlocked goal cur s d).
Proof.
  intros Hbound Hd Hs Hcur [Hg0 Hfl Hfo Hcb Hrz Hed Hgl].
  destruct (closed_ok _ _ _ Hs cur Hcur) as (gc & Hgc & Hgcr).
  assert (Hgcb : gc + 1 < 1000000000) by (unfold closedN in Hgcr; lia).
  destruct (sized _ _ _ Hs) as (Lc & Lo & Lg & Lf).
  pose proof (relax_cases goal cur s d) as Hcases.
  pose proof (relax_fScore goal cur s d) as Hfs.
  cbv zeta in Hcases, Hfs.
  set (nc := fst (cellOf W cur) + fst d) in *.
  set (nr := snd (cellOf W cur) + snd d) in *.
  set (ni := navIdx W nc nr) in *.
  rewrite Hgc in Hcases, Hfs.
  cbn [fmap option_fmap option_map default from_option id] in Hcases, Hfs.
  (* a walk to the neighbour through the cell under expansion *)
  assert (Hvia : isBlocked W H navBlocked nc nr = false ->
    cellOf W ni = (nc, nr) /\
    exists q, route W H navBlocked start (nc, nr) q /\
              Z.of_nat (length q) = gc + 2).
  { intros Hfree.
    split; [apply (cellOf_navIdx W H), (isBlocked_free_inBounds _ _ _ _ _ Hfree) |].
    destruct (Hrz cur gc Hgc ltac:(lia)) as (q & Hq & Hlen).
    destruct (route_snoc start (cellOf W cur) (nc, nr) q Hq) as [Hq' Hlen'].
    - unfold adjacent. cbn [fst snd]. subst nc nr.
      pose proof (dirs_unit d Hd). lia.
    - exact Hfree.
    - exists (q ++ [(nc, nr)]). split; [exact Hq' | lia]. }
  destruct Hcases as [[-> Hwhy] | (Hin & Hfree & Hncl & Hlt & Hg' & Hcf' & Hcl'
                                   & Hopen)].
  - constructor; auto.
    intros j d' gj Hj Hd' Hor Hfree Hgj.
    destruct (decide (j = cur /\ d' = d)) as [[-> ->] | Hnot].
    + fold nc nr ni in Hfree |- *.
      assert (gj = gc) by congruence. subst gj.
      destruct (Hvia Hfree) as (Hcell & q & Hq & Hlen).
      pose proof (inBounds_idx_range _ _ _ _
                    (isBlocked_free_inBounds _ _ _ _ _ Hfree)) as Hni.
      fold ni in Hni.
      destruct (get_in_range (gScore s) ni) as [gn Hgn]; [lia |].
      exists gn. split; [exact Hgn |].
      destruct Hwhy as [Hout | [Hblk | [Hclosed | Hlt]]].
      * rewrite (isBlocked_outside _ _ _ _ _ Hout) in Hfree. discriminate.
      * congruence.
      * assert (Hc : get (inClosed s) ni = Some true).
        { destruct (get (inClosed s) ni) as [[|] |]; cbn in Hclosed;
            congruence. }
        rewrite <- Hcell in Hq. pose proof (Hcb ni gn q Hc Hgn Hq). lia.
      * rewrite Hgn in Hlt. cbn [lt_opt] in Hlt. apply Z.ltb_ge in Hlt. lia.
    + apply (Hed j d' gj); auto.
      destruct Hor as [Hjc | Hin]; [auto |].
      apply elem_of_cons in Hin. destruct Hin as [-> | Hin]; [| auto].
      left. intros ->. apply Hnot. auto.
  - specialize (Hfs Hin Hfree Hncl Hlt).
    pose proof (inBounds_idx_range _ _ _ _ Hin) as Hni. fold ni in Hni.
    destruct (Hvia Hfree) as (Hcell & qn & Hqn & Hlen).
    destruct (get_in_range (gScore s) ni) as [gn Hgn]; [lia |].
    rewrite Hgn in Hlt. cbn [lt_opt] in Hlt. apply Z.ltb_lt in Hlt.
    assert (Hnclosed : get (inClosed s) ni <> Some true).
    { intros E. rewrite E in Hncl. discriminate. }
    assert (Hother : forall j, get (inClosed s) j = Some true -> j <> ni)
      by (intros j Hj ->; contradiction).
    constructor; rewrite ?Hg', ?Hfs, ?Hcl', ?Hcf'.
    + rewrite get_set_ne; [exact Hg0 |].
      intros E. rewrite <- E in Hg0. rewrite Hg0 in Hgn.
      injection Hgn as <-. lia.
    + rewrite length_set. exact Hfl.
    + intros i Hi. destruct (decide (i = ni)) as [-> | Hne].
      * exists (gc + 1). rewrite !get_set_eq by lia.
        rewrite Hcell. cbn [fst snd]. auto.
      * rewrite !get_set_ne by congruence. apply Hfo.
        destruct Hopen as [(_ & _ & Hl) | (_ & _ & Hl)]; rewrite Hl in Hi;
          [exact Hi |].
        apply elem_of_app in Hi. destruct Hi as [Hi | Hi]; [exact Hi |].
        apply list_elem_of_singleton in Hi. contradiction.
    + intros j g q Hj Hg Hq.
      rewrite get_set_ne in Hg by (apply not_eq_sym, Hother, Hj).
      exact (Hcb j g q Hj Hg Hq).
    + intros i g Hi Hg. destruct (decide (i = ni)) as [-> | Hne].
      * rewrite get_set_eq in Hi by lia. injection Hi as <-.
        exists qn. rewrite Hcell. split; [exact Hqn | lia].
      * rewrite get_set_ne in Hi by congruence. exact (Hrz i g Hi Hg).
    + intros j d' gj Hj Hd' Hor Hfree' Hgj.
      rewrite get_set_ne in Hgj by (apply not_eq_sym, Hother, Hj).
      set (ni' := navIdx W (fst (cellOf W j) + fst d')
                         (snd (cellOf W j) + snd d')).
      destruct (decide (ni' = ni)) as [E | Hne].
      * rewrite E. exists (gc + 1). rewrite get_set_eq by lia.
        split; [reflexivity |].
        destruct (decide (j = cur)) as [-> | Hjc];
          [assert (gj = gc) by congruence; lia |].
        destruct (Hed j d' gj Hj Hd' (or_introl Hjc) Hfree' Hgj)
          as (gn' & Hgn' & Hle).
        fold ni' in Hgn'. rewrite E in Hgn'.
        assert (gn' = gn) by congruence. lia.
      * rewrite get_set_ne by congruence.
        assert (Hold : j <> cur \/ d' ∈ done).
        { destruct Hor as [Hjc | Hin']; [auto |].
          apply elem_of_cons in Hin'. destruct Hin' as [-> | Hin']; [| auto].
          left. intros ->. apply Hne. reflexivity. }
        exact (Hed j d' gj Hj Hd' Hold Hfree' Hgj).
    + intros i j Hij Hj. destruct (decide (i = ni)) as [-> | Hne].
      * rewrite get_set_eq in Hij by lia. injection Hij as <-.
        exists gc. rewrite get_set_ne by (apply not_eq_sym, Hother, Hcur).
        rewrite get_set_eq by lia. auto.
      * rewrite get_set_ne in Hij by congruence.
        destruct (Hgl i j Hij Hj) as (gj & Hgj & Hgi).
        destruct (links_ok _ _ _ Hs i j Hij Hj) as [Hjc _].
        exists gj. rewrite !get_set_ne; auto.
        apply not_eq_sym, Hother, Hjc.
Qed.

Lemma fold_relax_settled start goal cur :
  Z.of_nat (slots W H) < 8388608 ->
  forall ds done s,
    (forall d, d ∈ ds -> d ∈ dirs) ->
    searching W H s ->
    get (inClosed s) cur = Some true ->
    settled W H navBlocked start goal cur done s ->
    settled W H navBlocked start goal cur (rev ds ++ done)
            (fold_left (relax W H navBlocked goal cur) ds s).
Proof.
  intros Hbound.
  induction ds as [| d ds IH]; intros done s Hds Hs Hcur Hse; [exact Hse |].
  cbn [fold_left rev]. rewrite <- app_assoc. cbn [app].
  destruct (relax_searching W H navBlocked goal cur s d Hs Hcur) as [Hs' Hc'].
  apply IH; [| exact Hs' | rewrite Hc'; exact Hcur |].
  - intros d' Hd'. apply Hds. apply elem_of_cons. auto.
  - apply relax_settled; auto. apply Hds. apply elem_of_cons. auto.
Qed.

Lemma settled_all start goal cur c' done s :
  (forall d, d ∈ dirs -> d ∈ done) ->
  settled W H navBlocked start goal cur done s ->
  settled W H navBlocked start goal c' dirs s.
Proof.
  intros Hall [Hg0 Hfl Hfo Hcb Hrz Hed Hgl].
  constructor; try assumption.
  intros j d gj Hj Hd _ Hfree Hgj. apply (Hed j d gj); auto.
Qed.

(** The path rebuilt from a closed cell has one cell more than the score of
    that cell. *)
Lemma reconstruct_length start goal c done s :
  searching W H s ->
  rooted (navIdx W (fst start) (snd start)) s ->
  settled W H navBlocked start goal c done s ->
  forall fuel cur acc p g,
    get (inClosed s) cur = Some true ->
    get (gScore s) cur = Some g ->
    reconstruct W fuel (cameFrom s) cur acc = Some p ->
    Z.of_nat (length p) = g + 1 + Z.of_nat (length acc).
Proof.
  intros Hs Hroot Hse.
  induction fuel as [| fuel IH]; intros cur acc p g Hcl Hg Hrec;
    pose proof (get_Some_range _ _ _ Hcl) as Hrange;
    cbn [reconstruct] in Hrec;
    (destruct (cur =? -1) eqn:Ecur; [apply Z.eqb_eq in Ecur; lia |]);
    [discriminate |].
  destruct (get (cameFrom s) cur) as [prev |] eqn:Hprev; [| discriminate].
  destruct (decide (prev = -1)) as [-> | Hne].
  - assert (Hp : p = cellOf W cur :: acc).
    { destruct fuel; cbn [reconstruct] in Hrec;
        change (-1 =? -1) with true in Hrec; cbv iota in Hrec; congruence. }
    pose proof (Hroot cur Hprev (or_introl Hcl)) as Hcur. subst cur.
    rewrite (g_start _ _ _ _ _ _ _ _ Hse) in Hg. injection Hg as <-.
    subst p. cbn [length]. lia.
  - destruct (links_ok _ _ _ Hs cur prev Hprev Hne) as [Hpc _].
    destruct (glink _ _ _ _ _ _ _ _ Hse cur prev Hprev Hne) as (gj & Hgj & Hgi).
    assert (g = gj + 1) by congruence. subst g.
    rewrite (IH prev _ p gj Hpc Hgj Hrec). cbn [length]. lia.
Qed.

Lemma searchLoop_shortest start goal :
  Z.of_nat (slots W H) < 8388608 ->
  inBounds W H (fst goal) (snd goal) = true ->
  forall fuel s c p,
    searching W H s ->
    rooted (navIdx W (fst start) (snd start)) s ->
    exploring W H navBlocked (navIdx W (fst start) (snd start))
              (navIdx W (fst goal) (snd goal)) c dirs s ->
    settled W H navBlocked start goal c dirs s ->
    searchLoop W H navBlocked fuel goal s = Some (Some p) ->
    forall q, route W H navBlocked start goal q ->
              (length p <= length q)%nat.
Proof.
  intros Hbound Hgoal.
  assert (Hbound' : Z.of_nat (slots W H) < 16777216) by lia.
  assert (Hrev : forall d, d ∈ dirs -> d ∈ rev dirs ++ []).
  { intros d Hd. rewrite app_nil_r.
    apply list_elem_of_In. apply -> in_rev. apply list_elem_of_In. exact Hd. }
  induction fuel as [| fuel IH]; intros s c p Hs Hroot Hex Hse Hrun q Hq;
    [discriminate |].
  cbn [searchLoop] in Hrun.
  destruct (openList s) as [| o rest] eqn:Eopen; [discriminate |].
  destruct ((o :: rest) !! bestIndex (fScore s) (o :: rest)) as [cur |] eqn:Hcur;
    [| discriminate].
  rewrite <- Eopen in Hcur.
  destruct (pop_searching W H s _ cur Hs Hcur) as (Hs1 & Hclosed1 & _).
  pose proof (pop_rooted _ s _ cur Hroot Hcur) as Hroot1.
  pose proof (pop_settled start goal c s cur Hbound Hs Hex Hse Hcur) as Hse1.
  destruct (cur =? navIdx W (fst goal) (snd goal)) eqn:Egoal.
  - apply Z.eqb_eq in Egoal.
    rewrite Eopen in Hs1, Hclosed1, Hroot1, Hse1.
    set (s1 := mkSearch (gScore s) (fScore s) (cameFrom s)
                        (set (inOpen s) cur false) (set (inClosed s) cur true)
                        (delete (bestIndex (fScore s) (o :: rest)) (o :: rest)))
      in *.
    destruct (reconstruct W fuel (cameFrom s1) cur []) as [p' |] eqn:Hrec;
      [| discriminate].
    injection Hrun as <-.
    destruct (closed_ok _ _ _ Hs1 cur Hclosed1) as (g & Hg & _).
    pose proof (reconstruct_length start goal cur [] s1 Hs1 Hroot1 Hse1
                  fuel cur [] p' g Hclosed1 Hg Hrec) as Hlen.
    assert (Hq' : route W H navBlocked start (cellOf W cur) q).
    { rewrite Egoal, (cellOf_navIdx W H _ _ Hgoal). destruct goal. exact Hq. }
    pose proof (closed_best _ _ _ _ _ _ _ _ Hse1 cur g q Hclosed1 Hg Hq').
    cbn [length] in Hlen. lia.
  - apply Z.eqb_neq in Egoal.
    pose proof (pop_exploring _ _ c s _ cur Hs Hex Hcur Egoal)
      as Hex1.
    rewrite Eopen in Hs1, Hclosed1, Hroot1, Hse1, Hex1.
    set (s1 := mkSearch (gScore s) (fScore s) (cameFrom s)
                        (set (inOpen s) cur false) (set (inClosed s) cur true)
                        (delete (bestIndex (fScore s) (o :: rest)) (o :: rest)))
      in *.
    destruct (fold_relax_searching W H navBlocked goal cur dirs s1 Hs1 Hclosed1)
      as [Hs2 _].
    pose proof (get_Some_range _ _ _ Hclosed1) as Hrange.
    refine (IH _ cur p Hs2 _ _ _ Hrun q Hq).
    + apply fold_relax_rooted; [exact Hroot1 | lia].
    + apply (exploring_all _ _ cur cur (rev dirs ++ []) _ Hrev).
      apply fold_relax_exploring; assumption.
    + apply (settled_all start goal cur cur (rev dirs ++ []) _ Hrev).
      apply fold_relax_settled; auto.
Qed.

(** X22. The path of [aStar] is a shortest one. On a grid of fewer than 2^23
    cells (where every [Float32Array] score is exact), from a free start
    cell to a goal cell in bounds, no walk over free cells from the start to
    the goal, stepping between 4-neighbours, has fewer cells than the path
    that [aStar] returns. *)
Theorem aStar_shortest (fuel : nat) (start goal : Z * Z) (p : list (Z * Z)) :
  free W H navBlocked start ->
  inBounds W H (fst goal) (snd goal) = true ->
  Z.of_nat (slots W H) < 8388608 ->
  aStar W H navBlocked fuel start goal = Some (Some p) ->
  forall q, route W H navBlocked start goal q -> (length p <= length q)%nat.
Proof.
  intros Hfree Hgoal Hbound Hrun.
  pose proof (isBlocked_free_inBounds _ _ _ _ _ Hfree) as Hstart.
  destruct (initSearch_searching W H start goal Hstart) as [Hs _].
  unfold aStar in Hrun.
  exact (searchLoop_shortest start goal Hbound Hgoal fuel _ 0 p Hs
           (initSearch_rooted start goal)
           (initSearch_exploring start goal 0 dirs Hstart)
           (initSearch_settled start goal 0 dirs Hfree) Hrun).
Qed.

(** *** The dragon of the A* variant *)

Lemma planTo_keeps fuel mc tc m ok m' :
  planTo W H navBlocked fuel mc tc m = Some (ok, m') ->
  base m' = base m /\ (m' = m \/ pathIdx m' = 0).
Proof.
  unfold planTo. cbv zeta.
  destruct (isBlocked W H navBlocked (col mc) (row mc)
            || isBlocked W H navBlocked (col tc) (row tc));
    [intros [= _ <-]; auto |].
  destruct (aStar W H navBlocked fuel _ _) as [[cells |] |];
    [| intros [= _ <-]; auto | discriminate].
  destruct (length cells <? 2)%nat; intros [= _ <-]; auto.
Qed.

Lemma repath_onPath fuel pause now mcx mcy tx ty st :
  (2 * slots W H < fuel)%nat ->
  onPath st ->
  exists st',
    repath W H navBlocked fuel pause now mcx mcy tx ty st = Some st' /\
    onPath st' /\ world st' = world st.
Proof.
  intros Hfuel Hon. unfold repath. cbv zeta.
  destruct (Qgeb now (hnextPathAt st) || _); [| eauto].
  destruct (hasLineOfSight_total W H mcx mcy tx ty) as [direct ->].
  cbn [mbind option_bind].
  destruct direct.
  - cbn [mbind option_bind world hpath hpathIdx]. eexists.
    split; [reflexivity |]. split; [| reflexivity].
    unfold onPath. cbn [hpath hpathIdx length]. lia.
  - destruct (buildPathTo_total W H navBlocked fuel tx ty (navOf st) Hfuel)
      as [[ok m'] Hr].
    rewrite Hr. cbn [mbind option_bind].
    unfold buildPathTo in Hr. apply planTo_keeps in Hr.
    destruct Hr as [Hbase Hm'].
    eexists. split; [reflexivity |].
    unfold onPath, withNav. cbn [world hpath hpathIdx].
    split.
    + destruct Hm' as [-> | ->]; [exact Hon | lia].
    + rewrite Hbase. cbn [navOf base]. destruct (world st). reflexivity.
Qed.

Lemma keeps_trans st1 st2 st3 : keeps st1 st2 -> keeps st2 st3 -> keeps st1 st3.
Proof.
  intros [_ H12] [Hon H23]. split; [exact Hon |].
  eapply sameRound_trans; eassumption.
Qed.

Lemma moveMonster_keeps vx vy dt st :
  onPath st -> keeps st (moveMonster W H vx vy dt st).
Proof. intros Hon. split; [exact Hon | repeat split]. Qed.

Lemma followOr_keeps dt speed vx vy st :
  onPath st ->
  exists st', followOr M W H dt speed vx vy st = Some st' /\ keeps st st'.
Proof.
  intros Hon. unfold followOr.
  destruct (followPath_steps dt speed (navOf st) Hon)
    as (ok & m' & -> & _ & _ & _ & Hidx & _).
  cbn [mbind option_bind].
  assert (Hk : keeps st (withNav st m')) by (split; [exact Hidx | repeat split]).
  destruct ok; [eauto |].
  eexists. split; [reflexivity |].
  eapply keeps_trans; [exact Hk |]. apply moveMonster_keeps. exact Hidx.
Qed.

Lemma repath_keeps fuel pause now mcx mcy tx ty st :
  (2 * slots W H < fuel)%nat -> onPath st ->
  exists st',
    repath W H navBlocked fuel pause now mcx mcy tx ty st = Some st' /\
    keeps st st'.
Proof.
  intros Hfuel Hon.
  destruct (repath_onPath fuel pause now mcx mcy tx ty st Hfuel Hon)
    as (st' & Hr & Hon' & Hw).
  exists st'. split; [exact Hr |]. split; [exact Hon' |].
  rewrite Hw. apply sameRound_refl.
Qed.

Lemma with_world_keeps st g :
  onPath st -> sameRound (world st) g -> keeps st (with_world st g).
Proof. intros Hon Hg. split; [exact Hon | exact Hg]. Qed.

Lemma chase_keeps fuel dt now mcx mcy sees toP dist t st :
  (2 * slots W H < fuel)%nat -> onPath st ->
  exists st',
    chase M W H navBlocked fuel dt now mcx mcy sees toP dist t st = Some st' /\
    keeps st st'.
Proof.
  intros Hfuel Hon. unfold chase.
  destruct (repath_keeps fuel 220 now mcx mcy (vx_ t) (vy_ t) st Hfuel Hon)
    as (st1 & -> & Hk1).
  cbn [mbind option_bind]. cbv zeta.
  assert (Hmove : exists st2,
    (if sees && Qltb dist 70
     then Some (moveMonster W H
                  (- vx_ toP * (speedChase (monster (world st1)) * (55 # 100)))
                  (- vy_ toP * (speedChase (monster (world st1)) * (55 # 100)))
                  dt st1)
     else if negb sees || Qgtb dist (if sees then 105 else 0)
          then followOr M W H dt
                 (if sees then speedChase (monster (world st1))
                  else speedChase (monster (world st1)) * (9 # 10))%Q
                 (vx_ toP * speedChase (monster (world st1)))
                 (vy_ toP * speedChase (monster (world st1))) st1
          else Some st1) = Some st2 /\ keeps st1 st2).
  { destruct (sees && Qltb dist 70).
    - eexists. split; [reflexivity |]. apply moveMonster_keeps, Hk1.
    - destruct (negb sees || Qgtb dist _).
      + apply followOr_keeps, Hk1.
      + eexists. split; [reflexivity |]. split; [apply Hk1 | apply sameRound_refl]. }
  destruct Hmove as (st2 & -> & Hk2).
  cbn [mbind option_bind].
  pose proof (keeps_trans _ _ _ Hk1 Hk2) as Hk.
  destruct sees; [| eauto].
  destruct (Qltb now _); eexists; (split; [reflexivity |]);
    (eapply keeps_trans; [exact Hk |]);
    apply with_world_keeps; try apply Hk2.
  - eapply sameRound_trans;
      [apply with_monster_sameRound | apply emitConeFlames_sameRound].
  - apply with_monster_sameRound.
Qed.

Lemma patrol_keeps fuel dt now mcx mcy st :
  (2 * slots W H < fuel)%nat -> onPath st ->
  exists st',
    patrol M W H navBlocked fuel dt now mcx mcy st = Some st' /\ keeps st st'.
Proof.
  intros Hfuel Hon. unfold patrol. cbv zeta.
  assert (Hk0 : keeps st
            (if Qgtb now (wander_until (wander (monster (world st))))
             then with_world st (pickWanderTarget M W H now (world st))
             else st)).
  { destruct (Qgtb now _).
    - apply with_world_keeps; [exact Hon | apply pickWanderTarget_sameRound].
    - split; [exact Hon | apply sameRound_refl]. }
  revert Hk0.
  generalize (if Qgtb now (wander_until (wander (monster (world st))))
              then with_world st (pickWanderTarget M W H now (world st))
              else st).
  intros st0 Hk0.
  match goal with |- context [norm M ?a ?b] =>
    destruct (norm_total M a b) as (v & -> & _)
  end.
  cbn [mbind option_bind].
  destruct (repath_keeps fuel 350 now mcx mcy
              (wander_x (wander (monster (world st0))))
              (wander_y (wander (monster (world st0)))) st0 Hfuel
              (proj1 Hk0)) as (st1 & -> & Hk1).
  cbn [mbind option_bind].
  destruct (followOr_keeps dt (speedPatrol (monster (world st1)))
              (vx_ v * speedPatrol (monster (world st1)))
              (vy_ v * speedPatrol (monster (world st1))) st1 (proj1 Hk1))
    as (st2 & -> & Hk2).
  exists st2. split; [reflexivity |].
  eapply keeps_trans; [exact Hk0 |]. eapply keeps_trans; eassumption.
Qed.

(** X23. The dragon of the A* variant stays on its path. With [pathIdx]
    between zero and the length of [path] and fuel for more than twice the
    cells of the grid, [updateMonster] goes through, so [followPath] never
    reads a way point that is not there, and leaves [pathIdx] within these
    bounds; it changes neither the player nor the elapsed time; and it ends
    with the round lost and the cause "mauled" when the rectangles of
    player and dragon intersect after the move, and with the outcome as it
    was when they do not. *)
Theorem updateMonster_on_path (fuel : nat) (dt now : Q) (st : Hunt) :
  onPath st ->
  (2 * slots W H < fuel)%nat ->
  exists st',
    updateMonster M W H navBlocked fuel dt now st = Some st' /\
    onPath st' /\
    player (world st') = player (world st) /\
    elapsed (world st') = elapsed (world st) /\
    ((intersectsAABB (body (player (world st')))
                     (mbody (monster (world st'))) = true /\
      state (world st') = lost /\
      status (world st') = "mauled (press R)"%string) \/
     (intersectsAABB (body (player (world st')))
                     (mbody (monster (world st'))) = false /\
      state (world st') = state (world st) /\
      status (world st') = status (world st))).
Proof.
  intros Hon Hfuel. unfold updateMonster. cbv zeta.
  set (pcx := (x (body (player (world st)))
               + w (body (player (world st))) / 2)%Q).
  set (pcy := (y (body (player (world st)))
               + h (body (player (world st))) / 2)%Q).
  set (mcx := (x (mbody (monster (world st)))
               + w (mbody (monster (world st))) / 2)%Q).
  set (mcy := (y (mbody (monster (world st)))
               + h (mbody (monster (world st))) / 2)%Q).
  destruct (hasLineOfSight_total W H mcx mcy pcx pcy) as [sees ->].
  cbn [mbind option_bind].
  destruct (norm_total M (pcx - mcx) (pcy - mcy)) as (toP & -> & _).
  cbn [mbind option_bind].
  assert (Hk0 : keeps st
            (if sees
             then mkHunt (world st) (hpath st) (hpathIdx st) (hnextPathAt st)
                         (hlastTargetKey st) (vec pcx pcy) now
             else st))
    by (destruct sees; (split; [exact Hon | apply sameRound_refl])).
  revert Hk0.
  generalize (if sees
              then mkHunt (world st) (hpath st) (hpathIdx st) (hnextPathAt st)
                          (hlastTargetKey st) (vec pcx pcy) now
              else st).
  intros st0 Hk0.
  assert (Hstep : exists st1,
    match (if sees then Some (vec pcx pcy)
           else if Qltb (now - lastSeenAt st0) 2500 then Some (lastSeen st0)
                else None) with
    | Some t' =>
        chase M W H navBlocked fuel dt now mcx mcy sees toP
              (len M (pcx - mcx) (pcy - mcy)) t' st0
    | None => patrol M W H navBlocked fuel dt now mcx mcy st0
    end = Some st1 /\ keeps st0 st1).
  { destruct sees; [apply chase_keeps; [exact Hfuel | apply Hk0] |].
    destruct (Qltb _ 2500);
      [apply chase_keeps | apply patrol_keeps]; try exact Hfuel; apply Hk0. }
  destruct Hstep as (st1 & -> & Hk1).
  cbn [mbind option_bind].
  destruct (keeps_trans _ _ _ Hk0 Hk1) as (Hon1 & Hp & Hs & Hm & He).
  eexists. split; [reflexivity |].
  cbn [world with_world hpath hpathIdx].
  split; [exact Hon1 |].
  unfold contactCheck.
  destruct (intersectsAABB (body (player (world st1)))
                           (mbody (monster (world st1)))) eqn:Hhit.
  - cbn [player elapsed state status monster with_state].
    split; [exact Hp |]. split; [exact He |]. left. auto.
  - split; [exact Hp |]. split; [exact He |]. right. auto.
Qed.

End Facts.

Lemma navIdx_cellOf_witness :
  inBounds 110 110 (fst (cellOf 110 7)) (snd (cellOf 110 7)) = true /\
  navIdx 110 (fst (cellOf 110 7)) (snd (cellOf 110 7)) = 7.
Proof.
  destruct (navIdx_cellOf 110 110 7) as (Hin & Hidx & _);
    [vm_compute; reflexivity | vm_compute; split; [discriminate | reflexivity] |].
  split; [exact Hin | exact Hidx].
Defined.

Lemma pointToCell_in_grid_witness :
  inBounds 110 110 (col (pointToCell 110 110 (-5) 300))
           (row (pointToCell 110 110 (-5) 300)) = true.
Proof.
  destruct (pointToCell_in_grid 110 110 (-5) 300) as (Hin & _);
    [vm_compute; discriminate | vm_compute; discriminate |].
  exact Hin.
Defined.

Lemma aStar_finds_route_witness :
  (exists p, aStar 110 110 sampleGrid 51 (0, 0) (4, 4) = Some (Some p) /\
             route 110 110 sampleGrid (0, 0) (4, 4) p) \/
  (aStar 110 110 sampleGrid 51 (0, 0) (4, 4) = Some None /\
   forall p, ~ route 110 110 sampleGrid (0, 0) (4, 4) p).
Proof.
  apply (aStar_finds_route 110 110 sampleGrid 51 (0, 0) (4, 4)).
  - vm_compute. reflexivity.
  - vm_compute. reflexivity.
  - vm_compute. reflexivity.
  - vm_compute. lia.
Defined.

Lemma followPath_cursor_witness :
  exists ok m',
    followPath sampleMath 110 110 (33 # 1000) 125
               (mkNavMonster (base sampleNavMonster)
                             [cellCenter 1 0; cellCenter 2 0] 0 0 None)
    = Some (ok, m') /\ ok = true.
Proof.
  destruct (followPath_cursor sampleMath 110 110 (33 # 1000) 125
              (mkNavMonster (base sampleNavMonster)
                            [cellCenter 1 0; cellCenter 2 0] 0 0 None))
    as (ok & m' & Hrun & Hok & _); [vm_compute; split; discriminate |].
  exists ok, m'. split; [exact Hrun | exact Hok].
Defined.

Lemma buildPathTo_first_step_witness :
  exists m',
    buildPathTo 110 110 sampleGrid 100 55 55 sampleNavMonster = Some (true, m') /\
    exists c1 rest,
      path m' = cellCenter (fst c1) (snd c1) :: rest /\
      free 110 110 sampleGrid c1.
Proof.
  eexists. split; [vm_compute; reflexivity |].
  edestruct (buildPathTo_first_step sampleMath 110 110 sampleGrid 100 55 55
               sampleNavMonster)
    as (c1 & rest & Hpath & _ & Hfree & _);
    [vm_compute; reflexivity |].
  exists c1, rest. split; [exact Hpath | exact Hfree].
Defined.

Lemma aStar_shortest_witness :
  exists p,
    aStar 110 110 sampleGrid 51 (0, 0) (4, 4) = Some (Some p) /\
    forall q, route 110 110 sampleGrid (0, 0) (4, 4) q ->
              (length p <= length q)%nat.
Proof.
  eexists. split; [vm_compute; reflexivity |].
  apply (aStar_shortest 110 110 sampleGrid 51 (0, 0) (4, 4)).
  - vm_compute. reflexivity.
  - vm_compute. reflexivity.
  - vm_compute. reflexivity.
  - vm_compute. reflexivity.
Defined.

Lemma updateMonster_on_path_witness :
  exists st',
    updateMonster sampleMath 110 110 sampleGrid 51 (33 # 1000) 1000 sampleHunt
    = Some st' /\ onPath st'.
Proof.
  destruct (updateMonster_on_path sampleMath 110 110 sampleGrid 51
              (33 # 1000) 1000 sampleHunt) as (st' & Hrun & Hon & _).
  - vm_compute. split; discriminate.
  - vm_compute. lia.
  - exists st'. split; [exact Hrun | exact Hon].
Defined.

End NavMoreFacts.

(** * The geometry in double precision *)

Module DblFacts.

Import PrimFloat.
Local Open Scope float_scope.





(** [sunkMover] overlaps the wall [rect(480, 250, 320, 18)] partially: it
    starts above the wall and ends inside it. The call lifts it by the
    computed overlap, to [y = 224.00000000000003], and the two rectangles
    still intersect. *)
Lemma resolveStaticCollision_rounding :
  let s := Dbl.rect 480 250 320 18 in
  let m := Dbl.sunkMover in
  Dbl.intersectsAABB m s = true /\
  (Dbl.y m <? Dbl.y s) = true /\
  (Dbl.y m + Dbl.h m <=? Dbl.y s + Dbl.h s) = true /\
  Dbl.resolveStaticCollision m s
  = Dbl.rect (Dbl.x m) 0x1.c000000000001p+7 18 26 /\
  Dbl.intersectsAABB (Dbl.resolveStaticCollision m s) s = true.
Proof. vm_compute. repeat split. Qed.

End DblFacts.
